(** * Sector engine: world grid, visibility, movement and entity index

    A shallow embedding of the engine's core classes ([World], [Visibility],
    [Movement], [Entity] / [EntityManager]) and the properties checked
    against them.

    Conventions of the embedding.
    - A JavaScript number is a rational ([Q]); [Math.floor] is [Qfloor],
      [Math.ceil] is [Qceiling], [===] on numbers is [Qeq_bool]. NaN and
      the infinities are outside the model. In [World], [Visibility] and
      [Movement] the arithmetic is exact. In [Entity] and [EntityManager]
      the result of every arithmetic operation passes through a rounding
      function [fl], a parameter of the definitions; [round64] is the
      rounding of binary64 numbers.
    - [Math.cos], [Math.sin], [Math.sqrt] and [Math.PI] are the fields of a
      record [MathLib] that the definitions take as a parameter, so every
      general theorem holds for any implementation of them.
    - A coordinate key such as [`${gx},${gy}`] is the pair [(gx, gy)].
    - A [Map] or a plain object keyed by strings is a [gmap]; a [Set] of
      coordinate keys is a [gset]; a [Set] of objects is a duplicate-free
      list of object references in insertion order.
    - A property read on [undefined] throws a [TypeError]; functions that
      can throw return [option], [None] standing for the exception. *)

From Stdlib Require Import ZArith QArith Qround Qminmax Lia Lra Psatz Ascii String.
From stdpp Require Import base gmap strings list.

Local Open Scope Z_scope.

(** ** JavaScript helpers *)

(** Result of an expression that may evaluate to an object, evaluate to
    [undefined], or throw. *)
Inductive JsResult (A : Type) : Type :=
  | Ret (a : A)
  | Undef
  | Thrown.
Arguments Ret {A} a.
Arguments Undef {A}.
Arguments Thrown {A}.

Definition of_lookup {A} (o : option A) : JsResult A :=
  match o with Some a => Ret a | None => Undef end.

(** [v || d] for a numeric [v] that may be absent: [undefined] and [0] are
    falsy. *)
Definition orZ (v : option Z) (d : Z) : Z :=
  match v with
  | Some n => if n =? 0 then d else n
  | None => d
  end.

Definition orQ (v : option Q) (d : Q) : Q :=
  match v with
  | Some q => if Qeq_bool q 0 then d else q
  | None => d
  end.

(** [v || d] for a string: [undefined] and the empty string are falsy. *)
Definition orString (v : option string) (d : string) : string :=
  match v with
  | Some EmptyString => d
  | Some s => s
  | None => d
  end.

Definition Qltb (a b : Q) : bool := negb (Qle_bool b a).

(** [n / d] rounded to the nearest integer, a tie to the even one, for
    [0 <= n] and [0 < d]. *)
Definition roundHalfEven (n d : Z) : Z :=
  let q := n / d in
  let r := n mod d in
  match Z.compare (2 * r) d with
  | Lt => q
  | Gt => q + 1
  | Eq => if Z.even q then q else q + 1
  end.

(** The binary64 number nearest to [q], a tie to the one with an even
    significand: [q] is scaled to a significand [m] of 53 bits and an
    exponent [e], [|q| = m * 2^e]. The exponent range is not bounded:
    overflow and subnormal numbers are outside the model. *)
Definition round64 (q : Q) : Q :=
  let q' := Qred q in
  let n := Z.abs (Qnum q') in
  let d := Zpos (Qden q') in
  if n =? 0 then 0%Q
  else
    let k := Z.log2 n - Z.log2 d in
    let L := if (if 0 <=? k then d * 2 ^ k <=? n else d <=? n * 2 ^ (- k))
             then k else k - 1 in
    let e := L - 52 in
    let m := if 0 <=? e then roundHalfEven n (d * 2 ^ e)
             else roundHalfEven (n * 2 ^ (- e)) d in
    let s := if Qnum q' <? 0 then -1 else 1 in
    if 0 <=? e then inject_Z (s * m * 2 ^ e)
    else (s * m) # (Z.to_pos (2 ^ (- e))).

Definition upper_ascii (c : ascii) : ascii :=
  let n := nat_of_ascii c in
  if ((97 <=? n) && (n <=? 122))%nat then ascii_of_nat (n - 32) else c.

Fixpoint toUpperCase (s : string) : string :=
  match s with
  | EmptyString => EmptyString
  | String c r => String (upper_ascii c) (toUpperCase r)
  end.

(** The parts of the [Math] object the engine uses. *)
Record MathLib : Type := {
  cos : Q -> Q;
  sin : Q -> Q;
  sqrt : Q -> Q;
  PI : Q
}.

(** ** World (world.js) *)

Module World.

Record SectorType : Type := {
  floor : Q;
  ceiling : Q;
  walkable : bool;
  floorColor : list Z;
  wallColor : list Z;
  ceilingColor : list Z;
  name : string;
  solid : bool;
  friction : Q;
  damage : Q;
  light : Q;
  properties : list (string * string)
}.

(** A definition handed to [registerSectorType]: any subset of the fields. *)
Record SectorDef : Type := {
  d_floor : option Q;
  d_ceiling : option Q;
  d_walkable : option bool;
  d_floorColor : option (list Z);
  d_wallColor : option (list Z);
  d_ceilingColor : option (list Z);
  d_name : option string;
  d_solid : option bool;
  d_friction : option Q;
  d_damage : option Q;
  d_light : option Q;
  d_properties : option (list (string * string))
}.

Definition emptyDef : SectorDef :=
  {| d_floor := None; d_ceiling := None; d_walkable := None;
     d_floorColor := None; d_wallColor := None; d_ceilingColor := None;
     d_name := None; d_solid := None; d_friction := None; d_damage := None;
     d_light := None; d_properties := None |}.

Record Bounds : Type := { x1 : Q; y1 : Q; x2 : Q; y2 : Q }.

Record Region : Type := {
  r_name : string;
  bounds : Bounds;
  r_properties : list (string * string)
}.

Record t : Type := {
  width : Z;
  height : Z;
  defaultSector : string;
  grid : list (list string);
  sectorTypes : gmap string SectorType;
  regions : gmap string Region
}.

Record Config : Type := {
  cfg_width : option Z;
  cfg_height : option Z;
  cfg_defaultSector : option string
}.

Definition defaultConfig : Config :=
  {| cfg_width := None; cfg_height := None; cfg_defaultSector := None |}.

(** [{ ...defaults, ...definition }] *)
Definition mergeDefaults (key : string) (d : SectorDef) : SectorType :=
  {| floor := default 0%Q (d_floor d);
     ceiling := default 1%Q (d_ceiling d);
     walkable := default true (d_walkable d);
     floorColor := default [128; 128; 128] (d_floorColor d);
     wallColor := default [160; 160; 160] (d_wallColor d);
     ceilingColor := default [100; 100; 100] (d_ceilingColor d);
     name := default (toUpperCase key) (d_name d);
     solid := default false (d_solid d);
     friction := default 1%Q (d_friction d);
     damage := default 0%Q (d_damage d);
     light := default 1%Q (d_light d);
     properties := default [] (d_properties d) |}.

Definition registerSectorType (key : string) (d : SectorDef) (w : t) : t :=
  {| width := width w; height := height w; defaultSector := defaultSector w;
     grid := grid w;
     sectorTypes := <[key := mergeDefaults key d]> (sectorTypes w);
     regions := regions w |}.

Definition registerSectorTypes (types : list (string * SectorDef)) (w : t) : t :=
  foldl (fun acc kd => registerSectorType (fst kd) (snd kd) acc) w types.

Definition voidDef : SectorDef :=
  {| d_floor := Some (-10)%Q; d_ceiling := Some (-10)%Q;
     d_walkable := Some false;
     d_floorColor := Some [20; 20; 25]; d_wallColor := Some [40; 40; 50];
     d_ceilingColor := Some [15; 15; 20];
     d_name := Some "VOID"%string; d_solid := Some true;
     d_friction := None; d_damage := None; d_light := None;
     d_properties := None |}.

(** [new World(config)]: [Array(n)] throws a RangeError for negative [n]. *)
Definition new (config : Config) : option t :=
  let w := orZ (cfg_width config) 32 in
  let h := orZ (cfg_height config) 32 in
  let dflt := orString (cfg_defaultSector config) "void" in
  if (w <? 0) || (h <? 0) then None
  else Some (registerSectorType "void" voidDef
    {| width := w; height := h; defaultSector := dflt;
       grid := replicate (Z.to_nat h) (replicate (Z.to_nat w) dflt);
       sectorTypes := ∅; regions := ∅ |}).

Definition outOfBounds (w : t) (gx gy : Z) : bool :=
  (gx <? 0) || (gx >=? width w) || (gy <? 0) || (gy >=? height w).

Definition getSector (w : t) (x y : Q) : JsResult SectorType :=
  let gx := Qfloor x in
  let gy := Qfloor y in
  if outOfBounds w gx gy then of_lookup (sectorTypes w !! defaultSector w)
  else
    match grid w !! Z.to_nat gy with
    | None => Thrown
    | Some row =>
        match row !! Z.to_nat gx with
        | None => of_lookup (sectorTypes w !! defaultSector w)
        | Some key =>
            match sectorTypes w !! key with
            | Some s => Ret s
            | None => of_lookup (sectorTypes w !! defaultSector w)
            end
        end
    end.

Definition getSectorKey (w : t) (gx gy : Z) : JsResult string :=
  if outOfBounds w gx gy then Ret (defaultSector w)
  else
    match grid w !! Z.to_nat gy with
    | None => Thrown
    | Some row => of_lookup (row !! Z.to_nat gx)
    end.

(** [grid[gy][gx] = key] on an existing cell. *)
Definition writeCell (gx gy : Z) (key : string) (g : list (list string))
  : list (list string) :=
  alter (fun row => <[Z.to_nat gx := key]> row) (Z.to_nat gy) g.

Definition withGrid (w : t) (g : list (list string)) : t :=
  {| width := width w; height := height w; defaultSector := defaultSector w;
     grid := g; sectorTypes := sectorTypes w; regions := regions w |}.

(** Returns whether the cell changed, and the world afterwards. *)
Definition setSector (gx gy : Z) (sectorKey : string) (w : t) : bool * t :=
  if outOfBounds w gx gy then (false, w)
  else
    match grid w !! Z.to_nat gy ≫= (fun row => row !! Z.to_nat gx) with
    | Some oldKey =>
        if String.eqb oldKey sectorKey then (false, w)
        else (true, withGrid w (writeCell gx gy sectorKey (grid w)))
    | None => (true, withGrid w (writeCell gx gy sectorKey (grid w)))
    end.

Definition fillRect (x1 y1 x2 y2 : Z) (sectorKey : string) (w : t) : t :=
  let minX := Z.max 0 (Z.min x1 x2) in
  let maxX := Z.min (width w - 1) (Z.max x1 x2) in
  let minY := Z.max 0 (Z.min y1 y2) in
  let maxY := Z.min (height w - 1) (Z.max y1 y2) in
  withGrid w
    (foldl (fun g y =>
              foldl (fun g' x => writeCell x y sectorKey g') g
                    (seqZ minX (maxX - minX + 1)))
           (grid w) (seqZ minY (maxY - minY + 1))).

Definition defineRegion (nm : string) (b : Bounds)
    (props : list (string * string)) (w : t) : t :=
  {| width := width w; height := height w; defaultSector := defaultSector w;
     grid := grid w; sectorTypes := sectorTypes w;
     regions :=
       <[nm := {| r_name := nm;
                  bounds := {| x1 := Qmin (x1 b) (x2 b); y1 := Qmin (y1 b) (y2 b);
                               x2 := Qmax (x1 b) (x2 b); y2 := Qmax (y1 b) (y2 b) |};
                  r_properties := props |}]> (regions w) |}.

(** [getSector(x, y).walkable]; [None] when the property read throws. *)
Definition isWalkable (w : t) (x y : Q) : option bool :=
  match getSector w x y with
  | Ret s => Some (walkable s)
  | _ => None
  end.

Definition getFloorHeight (w : t) (x y : Q) : option Q :=
  match getSector w x y with
  | Ret s => Some (floor s)
  | _ => None
  end.

Definition getCeilingHeight (w : t) (x y : Q) : option Q :=
  match getSector w x y with
  | Ret s => Some (ceiling s)
  | _ => None
  end.

(** The structural snapshot produced by [serialize]. *)
Record Snapshot : Type := {
  s_width : Z;
  s_height : Z;
  s_defaultSector : string;
  s_sectorTypes : gmap string SectorType;
  s_grid : list (list string);
  s_regions : gmap string Region
}.

(** [Object.fromEntries(map)]: walk the entries, define one property each. *)
Definition fromEntries {V} (m : gmap string V) : gmap string V :=
  list_to_map (map_to_list m).

(** [map.clear(); for (const [k, v] of Object.entries(o)) map.set(k, v)] *)
Definition setAll {V} (o : gmap string V) : gmap string V :=
  foldl (fun acc kv => <[fst kv := snd kv]> acc) ∅ (map_to_list o).

Definition serialize (w : t) : Snapshot :=
  {| s_width := width w; s_height := height w;
     s_defaultSector := defaultSector w;
     s_sectorTypes := fromEntries (sectorTypes w);
     s_grid := map (fun row => row) (grid w);
     s_regions := fromEntries (regions w) |}.

(** [deserialize] overwrites every field of the receiver. *)
Definition deserialize (data : Snapshot) (w : t) : t :=
  {| width := s_width data; height := s_height data;
     defaultSector := s_defaultSector data;
     grid := map (fun row => row) (s_grid data);
     sectorTypes := setAll (s_sectorTypes data);
     regions := setAll (s_regions data) |}.

(** Mutations available to the application once the world exists. *)
Inductive Op : Type :=
  | OpRegister (key : string) (d : SectorDef)
  | OpSetSector (gx gy : Z) (key : string)
  | OpFillRect (x1 y1 x2 y2 : Z) (key : string)
  | OpDefineRegion (nm : string) (b : Bounds) (props : list (string * string)).

Definition applyOp (w : t) (o : Op) : t :=
  match o with
  | OpRegister key d => registerSectorType key d w
  | OpSetSector gx gy key => snd (setSector gx gy key w)
  | OpFillRect x1 y1 x2 y2 key => fillRect x1 y1 x2 y2 key w
  | OpDefineRegion nm b props => defineRegion nm b props w
  end.

(** A world as the application obtains it: constructed, then mutated. *)
Definition build (config : Config) (ops : list Op) : option t :=
  (fun w => foldl applyOp w ops) <$> new config.

(** [getRegionsAt(x, y)]: the regions whose bounds contain the point. The
    order of the result, the insertion order of the [Map], is not
    modelled. *)
Definition inBounds (b : Bounds) (x y : Q) : bool :=
  Qle_bool (x1 b) x && Qle_bool x (x2 b)
  && Qle_bool (y1 b) y && Qle_bool y (y2 b).

Definition getRegionsAt (w : t) (x y : Q) : list Region :=
  filter (fun r => inBounds (bounds r) x y = true)
         (snd <$> map_to_list (regions w)).

End World.

(** ** Visibility (visibility.js) *)

Module Visibility.

Definition Cell : Type := (Z * Z)%type.

Record t : Type := {
  viewDistance : Q;
  rayStep : Q;
  fovRayCount : Q;
  discovered : gset Cell;
  currentlyVisible : gset Cell;
  totalWalkable : Z
}.

Record Config : Type := {
  cfg_viewDistance : option Q;
  cfg_rayStep : option Q;
  cfg_fovRayCount : option Q
}.

Definition defaultConfig : Config :=
  {| cfg_viewDistance := None; cfg_rayStep := None; cfg_fovRayCount := None |}.

(** [world.countWalkable()] *)
Definition countWalkable (w : World.t) : option Z :=
  foldl (fun acc y =>
           foldl (fun acc' x =>
                    n ← acc';
                    b ← World.isWalkable w (inject_Z x) (inject_Z y);
                    Some (if b : bool then n + 1 else n))
                 acc (seqZ 0 (World.width w)))
        (Some 0) (seqZ 0 (World.height w)).

Definition new (w : World.t) (config : Config) : option t :=
  n ← countWalkable w;
  Some {| viewDistance := orQ (cfg_viewDistance config) 14;
          rayStep := orQ (cfg_rayStep config) (4 # 10);
          fovRayCount := orQ (cfg_fovRayCount config) 180;
          discovered := ∅; currentlyVisible := ∅; totalWalkable := n |}.

Definition withSets (v : t) (disc cur : gset Cell) : t :=
  {| viewDistance := viewDistance v; rayStep := rayStep v;
     fovRayCount := fovRayCount v; discovered := disc;
     currentlyVisible := cur; totalWalkable := totalWalkable v |}.

(** Iterations after which [for (d = 0; d < limit; d += step)] has left the
    loop when [step] is positive. *)
Definition loopBound (limit step : Q) : nat :=
  Z.to_nat (Qceiling (limit / step)).

(** The body of [_castVisibilityRay]'s loop, [fuel] iterations at most;
    [None] when a property read throws or the fuel runs out. *)
Fixpoint visibilityRayLoop (w : World.t) (limit step dx dy : Q)
    (fuel : nat) (x y d : Q) (cur : gset Cell) : option (gset Cell) :=
  if Qltb d limit then
    match fuel with
    | O => None
    | S fuel' =>
        let x' := (x + dx)%Q in
        let y' := (y + dy)%Q in
        let cur' := {[ (Qfloor x', Qfloor y') ]} ∪ cur in
        match World.isWalkable w x' y' with
        | None => None
        | Some false => Some cur'
        | Some true =>
            visibilityRayLoop w limit step dx dy fuel' x' y' (d + step)%Q cur'
        end
    end
  else Some cur.

Section WithMath.
Context (M : MathLib).

Definition _castVisibilityRay (w : World.t) (v : t) (startX startY angle : Q)
    (cur : gset Cell) : option (gset Cell) :=
  let dx := (cos M angle * rayStep v)%Q in
  let dy := (sin M angle * rayStep v)%Q in
  visibilityRayLoop w (viewDistance v) (rayStep v) dx dy
    (loopBound (viewDistance v) (rayStep v)) startX startY 0 cur.

(** The ray fan of [update]: ray [i] of [rayCount]. *)
Definition sweep (w : World.t) (v : t) (x y startAngle fov : Q) (rayCount : Z)
    : option (gset Cell) :=
  foldl (fun acc i =>
           cur ← acc;
           _castVisibilityRay w v x y
             (startAngle + (inject_Z i / inject_Z rayCount) * fov)%Q cur)
        (Some ∅) (seqZ 0 rayCount).

(** The body of the discovery loop of [update] for one key of the new
    visible set: the discovered set and the list reported so far. *)
Definition discoveryStep (w : World.t) (previousVisible : gset Cell)
    (acc : option (gset Cell * list Cell)) (key : Cell)
    : option (gset Cell * list Cell) :=
  '(d, newly) ← acc;
  if decide (key ∈ previousVisible) then Some (d, newly)
  else
    b ← World.isWalkable w (inject_Z (fst key)) (inject_Z (snd key));
    if (b : bool) && negb (bool_decide (key ∈ d))
    then Some ({[ key ]} ∪ d, newly ++ [key])
    else Some (d, newly).

Definition discoveryPass (w : World.t) (previousVisible : gset Cell)
    (keys : list Cell) (disc : gset Cell)
    : option (gset Cell * list Cell) :=
  foldl (discoveryStep w previousVisible) (Some (disc, [])) keys.

(** [update(x, y, angle = 0, fov = Math.PI * 2)]: the state afterwards and
    the cells reported as newly discovered. *)
Definition update (w : World.t) (v : t) (x y : Q) (angle fov : option Q)
    : option (t * list Cell) :=
  let angle := default 0%Q angle in
  let fov := default (PI M * 2)%Q fov in
  let previousVisible := currentlyVisible v in
  let startAngle := (angle - fov / 2)%Q in
  let rayCount := Qceiling (fovRayCount v * (fov / (PI M * 2))) in
  cur ← sweep w v x y startAngle fov rayCount;
  '(disc, newly) ← discoveryPass w previousVisible (elements cur) (discovered v);
  Some (withSets v disc cur, newly).

Definition isVisible (v : t) (gx gy : Z) : bool :=
  bool_decide ((gx, gy) ∈ currentlyVisible v).

Definition isDiscovered (v : t) (gx gy : Z) : bool :=
  bool_decide ((gx, gy) ∈ discovered v).

Inductive Face : Type := ns | ew.

(** What [castRay] and [castRays] return: the fields after [distance] are
    present on a hit only, the last two once [castRays] has annotated the
    record. *)
Record RayResult : Type := {
  hit : bool;
  x : Q;
  y : Q;
  distance : Q;
  gridX : option Z;
  gridY : option Z;
  sector : option World.SectorType;
  sectorKey : option string;
  face : option Face;
  visible : option bool;
  r_discovered : option bool;
  correctedDistance : option Q;
  column : option Z
}.

Definition castStep : Q := 2 # 100.

Fixpoint castRayLoop (w : World.t) (v : t) (max dx dy : Q)
    (fuel : nat) (x y dist : Q) : option RayResult :=
  if Qltb dist max then
    match fuel with
    | O => None
    | S fuel' =>
        let x' := (x + dx)%Q in
        let y' := (y + dy)%Q in
        let dist' := (dist + castStep)%Q in
        let gx := Qfloor x' in
        let gy := Qfloor y' in
        match World.getSector w x' y' with
        | Ret s =>
            if negb (World.walkable s) then
              let fractX := (x' - inject_Z gx)%Q in
              let isNorthSouth :=
                Qltb fractX (5 # 100) || Qltb (95 # 100) fractX in
              match World.getSectorKey w gx gy with
              | Thrown => None
              | k =>
                  Some {| hit := true; x := x'; y := y'; distance := dist';
                          gridX := Some gx; gridY := Some gy;
                          sector := Some s;
                          sectorKey := match k with Ret s => Some s | _ => None end;
                          face := Some (if isNorthSouth then ns else ew);
                          visible := Some (isVisible v gx gy);
                          r_discovered := Some (isDiscovered v gx gy);
                          correctedDistance := None; column := None |}
              end
            else castRayLoop w v max dx dy fuel' x' y' dist'
        | _ => None
        end
    end
  else
    Some {| hit := false; x := x; y := y; distance := max;
            gridX := None; gridY := None; sector := None; sectorKey := None;
            face := None; visible := None; r_discovered := None;
            correctedDistance := None; column := None |}.

(** [castRay(startX, startY, angle, maxDist = null)] *)
Definition castRay (w : World.t) (v : t) (startX startY angle : Q)
    (maxDist : option Q) : option RayResult :=
  let max := orQ maxDist (viewDistance v * (15 # 10)) in
  let dx := (cos M angle * castStep)%Q in
  let dy := (sin M angle * castStep)%Q in
  castRayLoop w v max dx dy (loopBound max castStep) startX startY 0.

Definition annotate (r : RayResult) (corrected : Q) (col : Z) : RayResult :=
  {| hit := hit r; x := x r; y := y r; distance := distance r;
     gridX := gridX r; gridY := gridY r; sector := sector r;
     sectorKey := sectorKey r; face := face r; visible := visible r;
     r_discovered := r_discovered r;
     correctedDistance := Some corrected; column := Some col |}.

(** The angle of the ray for screen column [i]. *)
Definition rayAngleOf (angle fov : Q) (rayCount : nat) (i : Z) : Q :=
  (angle + ((inject_Z i / inject_Z (Z.of_nat rayCount)) - (1 # 2)) * fov)%Q.

(** [castRays(startX, startY, angle, fov, rayCount)], [rayCount] a count of
    screen columns. *)
Definition castRays (w : World.t) (v : t) (startX startY angle fov : Q)
    (rayCount : nat) : option (list RayResult) :=
  foldl (fun acc i =>
           results ← acc;
           let rayAngle := rayAngleOf angle fov rayCount i in
           h ← castRay w v startX startY rayAngle None;
           Some (results ++
                 [annotate h (distance h * cos M (rayAngle - angle))%Q i]))
        (Some []) (seqZ 0 (Z.of_nat rayCount)).

End WithMath.

Definition discover (v : t) (gx gy : Z) : t :=
  withSets v ({[ (gx, gy) ]} ∪ discovered v) (currentlyVisible v).

Definition resetDiscovery (v : t) : t := withSets v ∅ ∅.

Definition serializeDiscovery (v : t) : list Cell := elements (discovered v).

Definition deserializeDiscovery (data : list Cell) (v : t) : t :=
  withSets v (list_to_set data) (currentlyVisible v).

(** The walkable cells among the discovered ones, as [getDiscoveryCount]
    and [getDiscoveryPercent] count them. *)
Definition discoveredWalkable (w : World.t) (v : t) : option Z :=
  foldl (fun acc key =>
           n ← acc;
           b ← World.isWalkable w (inject_Z (fst key)) (inject_Z (snd key));
           Some (if b : bool then n + 1 else n))
        (Some 0) (elements (discovered v)).

(** [Math.round] *)
Definition round (q : Q) : Z := Qfloor (q + (1 # 2)).

Definition getDiscoveryPercent (w : World.t) (v : t) : option Z :=
  if totalWalkable v =? 0 then Some 100
  else
    n ← discoveredWalkable w v;
    Some (round (inject_Z n / inject_Z (totalWalkable v) * 100)).

(** [{ discovered, total }] *)
Definition getDiscoveryCount (w : World.t) (v : t) : option (Z * Z) :=
  n ← discoveredWalkable w v;
  Some (n, totalWalkable v).

Definition discoverAll (w : World.t) (v : t) : option t :=
  disc ← foldl (fun acc y =>
                  foldl (fun acc' x =>
                           d ← acc';
                           b ← World.isWalkable w (inject_Z x) (inject_Z y);
                           Some (if b : bool then {[ (x, y) ]} ∪ d else d))
                        acc (seqZ 0 (World.width w)))
               (Some (discovered v)) (seqZ 0 (World.height w));
  Some (withSets v disc (currentlyVisible v)).

(** One call made by the game loop between two frames. *)
Inductive Action : Type :=
  | Update (x y : Q) (angle fov : option Q)
  | Mutate (o : World.Op).

Definition step (M : MathLib) (st : World.t * t) (a : Action)
    : option (World.t * t) :=
  match a with
  | Update x y angle fov =>
      r ← update M (fst st) (snd st) x y angle fov;
      Some (fst st, fst r)
  | Mutate o => Some (World.applyOp (fst st) o, snd st)
  end.

(** Runs the calls in order and records the state after each one. *)
Fixpoint run (M : MathLib) (st : World.t * t) (acts : list Action)
    : option (list (World.t * t)) :=
  match acts with
  | [] => Some []
  | a :: rest =>
      st' ← step M st a;
      tr ← run M st' rest;
      Some (st' :: tr)
  end.

End Visibility.

(** ** Movement (movement.js) *)

Module Movement.

Record t : Type := {
  defaultRadius : Q;
  maxStepHeight : Q;
  collisionStep : Q;
  slideIterations : Z
}.

Record Config : Type := {
  cfg_defaultRadius : option Q;
  cfg_maxStepHeight : option Q;
  cfg_collisionStep : option Q;
  cfg_slideIterations : option Z
}.

Definition defaultConfig : Config :=
  {| cfg_defaultRadius := None; cfg_maxStepHeight := None;
     cfg_collisionStep := None; cfg_slideIterations := None |}.

Definition new (config : Config) : t :=
  {| defaultRadius := orQ (cfg_defaultRadius config) (2 # 10);
     maxStepHeight := orQ (cfg_maxStepHeight config) (3 # 10);
     collisionStep := orQ (cfg_collisionStep config) (5 # 100);
     slideIterations := orZ (cfg_slideIterations config) 3 |}.

(** What [move] reads of the entity it is given; [radius] and [z] may be
    missing on a plain object. *)
Record Body : Type := {
  x : Q;
  y : Q;
  radius : option Q;
  z : option Q
}.

Record MoveResult : Type := {
  r_x : Q;
  r_y : Q;
  collided : bool;
  slideX : Q;
  slideY : Q
}.

Definition testPoints (x y r : Q) : list (Q * Q) :=
  [ (x, y);
    (x - r, y - r); (x + r, y - r); (x - r, y + r); (x + r, y + r);
    (x - r, y); (x + r, y); (x, y - r); (x, y + r) ]%Q.

(** The loop of [canOccupy] over the test points, leaving at the first
    failing one. *)
Fixpoint checkPoints (mv : t) (w : World.t) (z : Q) (pts : list (Q * Q))
    : option bool :=
  match pts with
  | [] => Some true
  | (px, py) :: rest =>
      match World.getSector w px py with
      | Ret s =>
          if negb (World.walkable s) then Some false
          else if Qltb (maxStepHeight mv) (World.floor s - z) then Some false
          else checkPoints mv w z rest
      | _ => None
      end
  end.

(** [canOccupy(x, y, radius = null, z = 0)]: the default of [z] makes the
    test [z !== undefined] always succeed, so the step height is checked at
    every point. *)
Definition canOccupy (mv : t) (w : World.t) (x y : Q) (radius z : option Q)
    : option bool :=
  let r := orQ radius (defaultRadius mv) in
  checkPoints mv w (default 0%Q z) (testPoints x y r).

Definition Qneqb (a b : Q) : bool := negb (Qeq_bool a b).

(** The micro-step loop of [move]: [n] steps left, from [(x, y)]. *)
Fixpoint microSteps (mv : t) (w : World.t) (radius z : option Q)
    (stepX stepY : Q) (n : nat) (x y : Q) : option (Q * Q) :=
  match n with
  | O => Some (x, y)
  | S n' =>
      let nextX := (x + stepX)%Q in
      let nextY := (y + stepY)%Q in
      b1 ← canOccupy mv w nextX nextY radius z;
      if b1 : bool then microSteps mv w radius z stepX stepY n' nextX nextY
      else
        b2 ← canOccupy mv w nextX y radius z;
        if b2 : bool then microSteps mv w radius z stepX stepY n' nextX y
        else
          b3 ← canOccupy mv w x nextY radius z;
          if b3 : bool then microSteps mv w radius z stepX stepY n' x nextY
          else Some (x, y)
  end.

Section WithMath.
Context (M : MathLib).

Definition move (mv : t) (w : World.t) (entity : Body) (dx dy : Q)
    : option MoveResult :=
  let radius := Some (orQ (radius entity) (defaultRadius mv)) in
  let startX := x entity in
  let startY := y entity in
  let newX := (startX + dx)%Q in
  let newY := (startY + dy)%Q in
  full ← canOccupy mv w newX newY radius (z entity);
  if full : bool then
    Some {| r_x := newX; r_y := newY; collided := false;
            slideX := 0; slideY := 0 |}
  else
    (* x-only slide *)
    okX ← (if Qneqb dx 0 then canOccupy mv w newX startY radius (z entity)
           else Some false);
    let resultX := if okX : bool then newX else startX in
    (* y-only slide, from wherever the x slide ended *)
    okY ← (if Qneqb dy 0 then canOccupy mv w resultX newY radius (z entity)
           else Some false);
    let resultY := if okY : bool then newY else startY in
    let collided0 := negb (okX || okY) in
    '(resultX', resultY', collided') ←
      (if Qeq_bool resultX startX && Qeq_bool resultY startY
          && (Qneqb dx 0 || Qneqb dy 0)
       then
         let len := sqrt M (dx * dx + dy * dy) in
         if Qltb (collisionStep mv) len then
           let steps := Qceiling (len / collisionStep mv) in
           let stepX := (dx / inject_Z steps)%Q in
           let stepY := (dy / inject_Z steps)%Q in
           '(fx, fy) ← microSteps mv w radius (z entity) stepX stepY
                         (Z.to_nat steps) startX startY;
           Some (fx, fy, Qeq_bool fx startX && Qeq_bool fy startY)
         else Some (resultX, resultY, collided0)
       else Some (resultX, resultY, collided0));
    Some {| r_x := resultX'; r_y := resultY'; collided := collided';
            slideX := resultX' - startX - dx;
            slideY := resultY' - startY - dy |}.

Record TraceResult : Type := {
  valid : bool;
  blockedAt : option (Q * Q);
  progress : option Q
}.

(** The loop of [tracePath]: sample [i] of [0 .. steps], [n] samples
    left, at [(x, y)]. *)
Fixpoint traceLoop (mv : t) (w : World.t) (r : Q) (steps : Z)
    (stepX stepY : Q) (n : nat) (i : Z) (x y : Q) : option TraceResult :=
  match n with
  | O => Some {| valid := true; blockedAt := None; progress := Some 1%Q |}
  | S n' =>
      b ← canOccupy mv w x y (Some r) None;
      if b : bool then
        traceLoop mv w r steps stepX stepY n' (i + 1) (x + stepX)%Q (y + stepY)%Q
      else
        Some {| valid := false; blockedAt := Some (x, y);
                progress := Some (inject_Z i / inject_Z steps)%Q |}
  end.

(** [tracePath(x1, y1, x2, y2, radius = null)] *)
Definition tracePath (mv : t) (w : World.t) (x1 y1 x2 y2 : Q)
    (radius : option Q) : option TraceResult :=
  let r := orQ radius (defaultRadius mv) in
  let dx := (x2 - x1)%Q in
  let dy := (y2 - y1)%Q in
  let dist := sqrt M (dx * dx + dy * dy) in
  if Qltb dist (1 # 100) then
    b ← canOccupy mv w x1 y1 (Some r) None;
    Some {| valid := b; blockedAt := None; progress := None |}
  else
    let steps := Qceiling (dist / collisionStep mv) in
    let stepX := (dx / inject_Z steps)%Q in
    let stepY := (dy / inject_Z steps)%Q in
    traceLoop mv w r steps stepX stepY (Z.to_nat (steps + 1)) 0 x1 y1.

(** The inner loop of [findValidPosition]: the angles of one ring, from
    [angle], [fuel] of them at most. The outer [option] is [None] when a
    property read throws or the fuel runs out; the inner one is the
    position found, if any. *)
Fixpoint ringLoop (mv : t) (w : World.t) (targetX targetY r dist : Q)
    (fuel : nat) (angle : Q) : option (option (Q * Q)) :=
  if Qltb angle (PI M * 2) then
    match fuel with
    | O => None
    | S fuel' =>
        let x := (targetX + cos M angle * dist)%Q in
        let y := (targetY + sin M angle * dist)%Q in
        b ← canOccupy mv w x y (Some r) None;
        if b : bool then Some (Some (x, y))
        else ringLoop mv w targetX targetY r dist fuel' (angle + PI M / 8)%Q
    end
  else Some None.

(** The outer loop of [findValidPosition]: the rings from [dist] on. *)
Fixpoint spiralLoop (mv : t) (w : World.t) (targetX targetY r searchRadius : Q)
    (fuel : nat) (dist : Q) : option (option (Q * Q)) :=
  if Qle_bool dist searchRadius then
    match fuel with
    | O => None
    | S fuel' =>
        found ← ringLoop mv w targetX targetY r dist 16 0;
        match found with
        | Some p => Some (Some p)
        | None =>
            spiralLoop mv w targetX targetY r searchRadius fuel'
                       (dist + (1 # 2))%Q
        end
    end
  else Some None.

(** [findValidPosition(targetX, targetY, radius = null, searchRadius = 5)] *)
Definition findValidPosition (mv : t) (w : World.t) (targetX targetY : Q)
    (radius searchRadius : option Q) : option (option (Q * Q)) :=
  let r := orQ radius (defaultRadius mv) in
  let searchRadius := default 5%Q searchRadius in
  b ← canOccupy mv w targetX targetY (Some r) None;
  if b : bool then Some (Some (targetX, targetY))
  else
    spiralLoop mv w targetX targetY r searchRadius
      (Z.to_nat (Qfloor (searchRadius / (1 # 2)))) (1 # 2).

End WithMath.

End Movement.

(** ** Entity and EntityManager (entity.js) *)

Module Entity.

Record t : Type := {
  id : Z;
  type : string;
  x : Q;
  y : Q;
  z : Q;
  angle : Q;
  radius : Q;
  height : Q;
  solid : bool;
  vx : Q;
  vy : Q;
  speed : Q;
  visible : bool;
  sprite : option string;
  properties : list (string * string);
  active : bool;
  removed : bool
}.

Record Config : Type := {
  cfg_id : option Z;
  cfg_type : option string;
  cfg_x : option Q;
  cfg_y : option Q;
  cfg_z : option Q;
  cfg_angle : option Q;
  cfg_radius : option Q;
  cfg_height : option Q;
  cfg_solid : option bool;
  cfg_speed : option Q;
  cfg_visible : option bool;
  cfg_sprite : option string;
  cfg_properties : option (list (string * string))
}.

(** [new Entity(config)] with the static counter [nextId] threaded through. *)
Definition new (config : Config) (nextId : Z) : t * Z :=
  let '(i, next) :=
    match cfg_id config with
    | Some n => if n =? 0 then (nextId, nextId + 1) else (n, nextId)
    | None => (nextId, nextId + 1)
    end in
  ({| id := i;
      type := orString (cfg_type config) "entity";
      x := orQ (cfg_x config) 0;
      y := orQ (cfg_y config) 0;
      z := orQ (cfg_z config) 0;
      angle := orQ (cfg_angle config) 0;
      radius := orQ (cfg_radius config) (2 # 10);
      height := orQ (cfg_height config) (5 # 10);
      solid := default true (cfg_solid config);
      vx := 0; vy := 0;
      speed := orQ (cfg_speed config) 3;
      visible := default true (cfg_visible config);
      sprite := cfg_sprite config;
      properties := default [] (cfg_properties config);
      active := true; removed := false |}, next).

Definition withPos (e : t) (nx ny : Q) : t :=
  {| id := id e; type := type e; x := nx; y := ny; z := z e;
     angle := angle e; radius := radius e; height := height e;
     solid := solid e; vx := vx e; vy := vy e; speed := speed e;
     visible := visible e; sprite := sprite e; properties := properties e;
     active := active e; removed := removed e |}.

(** The base class's [update(dt)]: apply the velocity. Each product and
    each sum is rounded. *)
Definition update (fl : Q -> Q) (dt : Q) (e : t) : t :=
  if negb (Qeq_bool (vx e) 0) || negb (Qeq_bool (vy e) 0)
  then withPos e (fl (x e + fl (vx e * dt)))%Q (fl (y e + fl (vy e * dt)))%Q
  else e.

(** [remove()]: mark the entity, nothing else. *)
Definition remove (e : t) : t :=
  {| id := id e; type := type e; x := x e; y := y e; z := z e;
     angle := angle e; radius := radius e; height := height e;
     solid := solid e; vx := vx e; vy := vy e; speed := speed e;
     visible := visible e; sprite := sprite e; properties := properties e;
     active := false; removed := true |}.

End Entity.

(** Entities are objects shared by reference between the application and
    the manager: a reference is a number, the store maps references to the
    objects' current contents. *)
Definition Ref : Type := nat.
Definition Store : Type := Ref -> Entity.t.

Definition storeSet (h : Store) (l : Ref) (e : Entity.t) : Store :=
  fun l' => if decide (l' = l) then e else h l'.

(** [set.add(l)] and [set.delete(l)] on a [Set] of objects. *)
Definition setAdd (l : Ref) (s : list Ref) : list Ref :=
  if decide (l ∈ s) then s else s ++ [l].

Definition setDelete (l : Ref) (s : list Ref) : list Ref :=
  filter (fun l' => l' ≠ l) s.

(** [map.set(k, v)], [map.get(k)] and [map.delete(k)] on a [Map] whose
    iteration order matters. *)
Fixpoint mapSet (k : Z) (v : Ref) (m : list (Z * Ref)) : list (Z * Ref) :=
  match m with
  | [] => [(k, v)]
  | (k', v') :: rest =>
      if decide (k' = k) then (k, v) :: rest else (k', v') :: mapSet k v rest
  end.

Fixpoint mapGet (k : Z) (m : list (Z * Ref)) : option Ref :=
  match m with
  | [] => None
  | (k', v') :: rest => if decide (k' = k) then Some v' else mapGet k rest
  end.

Definition mapDelete (k : Z) (m : list (Z * Ref)) : list (Z * Ref) :=
  filter (fun kv => fst kv ≠ k) m.

Module EntityManager.

Record t : Type := {
  entities : list (Z * Ref);
  byType : gmap string (list Ref);
  spatialHash : gmap (Z * Z) (list Ref);
  cellSize : Q
}.

(** [new EntityManager(world)]; no listener is registered. *)
Definition new : t :=
  {| entities := []; byType := ∅; spatialHash := ∅; cellSize := 4 |}.

Definition withHash (m : t) (sh : gmap (Z * Z) (list Ref)) : t :=
  {| entities := entities m; byType := byType m; spatialHash := sh;
     cellSize := cellSize m |}.

(** Deletes [l] from the bucket under [key], and the bucket once empty. *)
Definition dropFromCell (key : Z * Z) (l : Ref)
    (sh : gmap (Z * Z) (list Ref)) : gmap (Z * Z) (list Ref) :=
  match sh !! key with
  | Some cell =>
      let cell' := setDelete l cell in
      if decide (cell' = []) then delete key sh else <[key := cell']> sh
  | None => sh
  end.

Definition get (m : t) (i : Z) : option Ref := mapGet i (entities m).

Definition getByType (m : t) (ty : string) : list Ref :=
  default [] (byType m !! ty).

Definition getAll (m : t) : list Ref := map snd (entities m).

Definition clear (m : t) : t :=
  {| entities := []; byType := ∅; spatialHash := ∅; cellSize := cellSize m |}.

Section WithRounding.
(** The rounding applied to the result of each arithmetic operation. *)
Context (fl : Q -> Q).

Definition _getCellKey (m : t) (x y : Q) : Z * Z :=
  (Qfloor (fl (x / cellSize m)), Qfloor (fl (y / cellSize m))).

Definition _addToSpatialHash (h : Store) (m : t) (l : Ref) : t :=
  let key := _getCellKey m (Entity.x (h l)) (Entity.y (h l)) in
  withHash m (<[key := setAdd l (default [] (spatialHash m !! key))]>
                (spatialHash m)).

Definition _removeFromSpatialHash (h : Store) (m : t) (l : Ref) : t :=
  let key := _getCellKey m (Entity.x (h l)) (Entity.y (h l)) in
  withHash m (dropFromCell key l (spatialHash m)).

Definition _updateSpatialHash (h : Store) (m : t) (l : Ref) (oldX oldY : Q)
    : t :=
  let oldKey := _getCellKey m oldX oldY in
  let newKey := _getCellKey m (Entity.x (h l)) (Entity.y (h l)) in
  if decide (oldKey = newKey) then m
  else _addToSpatialHash h (withHash m (dropFromCell oldKey l (spatialHash m))) l.

Definition add (h : Store) (m : t) (l : Ref) : t :=
  let e := h l in
  let m1 :=
    {| entities := mapSet (Entity.id e) l (entities m);
       byType := <[Entity.type e :=
                     setAdd l (default [] (byType m !! Entity.type e))]>
                   (byType m);
       spatialHash := spatialHash m; cellSize := cellSize m |} in
  _addToSpatialHash h m1 l.

(** [remove(entityOrId)]: an id ([inl]) or an entity object ([inr]). The
    object found under the id is marked, deleted from the by-id map and
    from its type set, and deleted from the bucket of its current
    position. *)
Definition remove (h : Store) (m : t) (entityOrId : Z + Ref) : Store * t :=
  let i := match entityOrId with inl n => n | inr l => Entity.id (h l) end in
  match mapGet i (entities m) with
  | None => (h, m)
  | Some l =>
      let h' := storeSet h l (Entity.remove (h l)) in
      let e := h' l in
      let m1 :=
        {| entities := mapDelete i (entities m);
           byType := match byType m !! Entity.type e with
                     | Some typeSet =>
                         <[Entity.type e := setDelete l typeSet]> (byType m)
                     | None => byType m
                     end;
           spatialHash := spatialHash m; cellSize := cellSize m |} in
      (h', _removeFromSpatialHash h' m1 l)
  end.

(** The test of [getNear] on one entity:
    [dx * dx + dy * dy <= radiusSq], every operation rounded. *)
Definition within (h : Store) (x y radius : Q) (l : Ref) : bool :=
  let radiusSq := fl (radius * radius) in
  let dx := fl (Entity.x (h l) - x) in
  let dy := fl (Entity.y (h l) - y) in
  Qle_bool (fl (fl (dx * dx) + fl (dy * dy))) radiusSq.

(** The body of the innermost loop of [getNear] for one entity of a
    bucket: the ids seen so far and the results so far. *)
Definition scanEntity (h : Store) (x y radius : Q)
    (a : gset Z * list Ref) (l : Ref) : gset Z * list Ref :=
  let '(checked, results) := a in
  if decide (Entity.id (h l) ∈ checked) then a
  else
    let checked' := {[ Entity.id (h l) ]} ∪ checked in
    if within h x y radius l then (checked', results ++ [l])
    else (checked', results).

Definition scanCell (h : Store) (x y radius : Q) (cell : list Ref)
    (acc : gset Z * list Ref) : gset Z * list Ref :=
  foldl (scanEntity h x y radius) acc cell.

Definition getNear (h : Store) (m : t) (x y radius : Q) : list Ref :=
  let minCellX := Qfloor (fl (fl (x - radius) / cellSize m)) in
  let maxCellX := Qfloor (fl (fl (x + radius) / cellSize m)) in
  let minCellY := Qfloor (fl (fl (y - radius) / cellSize m)) in
  let maxCellY := Qfloor (fl (fl (y + radius) / cellSize m)) in
  snd (foldl (fun acc cy =>
                foldl (fun acc' cx =>
                         match spatialHash m !! (cx, cy) with
                         | None => acc'
                         | Some cell => scanCell h x y radius cell acc'
                         end)
                      acc (seqZ minCellX (maxCellX - minCellX + 1)))
             (∅, []) (seqZ minCellY (maxCellY - minCellY + 1))).

Definition getInSector (h : Store) (m : t) (gx gy : Z) : list Ref :=
  filter (fun l => Qfloor (Entity.x (h l)) = gx ∧ Qfloor (Entity.y (h l)) = gy)
         (getNear h m (fl (inject_Z gx + (1 # 2))) (fl (inject_Z gy + (1 # 2))) 1).

(** The body of the first loop of [update(dt)] for one entity; the base
    [Entity.update] is the one run. *)
Definition advanceStep (dt : Q) (a : Store * t) (l : Ref) : Store * t :=
  let '(h, m) := a in
  if negb (Entity.active (h l)) then a
  else
    let oldX := Entity.x (h l) in
    let oldY := Entity.y (h l) in
    let h' := storeSet h l (Entity.update fl dt (h l)) in
    if negb (Qeq_bool (Entity.x (h' l)) oldX)
       || negb (Qeq_bool (Entity.y (h' l)) oldY)
    then (h', _updateSpatialHash h' m l oldX oldY)
    else (h', m).

(** First pass of [update(dt)]: advance every active entity and re-bucket
    the ones that moved. *)
Definition advance (dt : Q) (hm : Store * t) : Store * t :=
  foldl (advanceStep dt) hm (map snd (entities (snd hm))).

(** The body of the second loop of [update(dt)] for one entity. *)
Definition purgeStep (a : Store * t) (l : Ref) : Store * t :=
  let '(h, m) := a in
  if Entity.removed (h l) then remove h m (inr l) else a.

(** Second pass of [update(dt)]: remove the entities found marked. An
    entry deleted while the [Map] is iterated is simply not visited again,
    and [remove] on an id no longer present does nothing, so walking the
    entries as they were when the pass began visits the same entities. *)
Definition purge (hm : Store * t) : Store * t :=
  foldl purgeStep hm (map snd (entities (snd hm))).

Definition update (dt : Q) (hm : Store * t) : Store * t :=
  purge (advance dt hm).

(** Registers the objects [ls] in order on a fresh manager. *)
Definition addAll (h : Store) (ls : list Ref) : t :=
  foldl (add h) new ls.

End WithRounding.

End EntityManager.
(** * Specification vocabulary and scenarios *)

(** Every row index below [height] names a row: what the constructor
    establishes and the mutators keep. *)
Definition rowsPresent (w : World.t) : Prop :=
  length (World.grid w) = Z.to_nat (World.height w) ∧ 0 <= World.height w.

(** The default sector key names a registered sector type. *)
Definition defaultRegistered (w : World.t) : Prop :=
  is_Some (World.sectorTypes w !! World.defaultSector w).

(** The key of the cell at grid coordinates [(gx, gy)], if there is one. *)
Definition cellKey (w : World.t) (gx gy : Z) : option string :=
  World.grid w !! Z.to_nat gy ≫= (fun row => row !! Z.to_nat gx).

(** The grid is [height] rows of [width] keys each. *)
Definition rectangular (w : World.t) : Prop :=
  0 <= World.width w ∧ 0 <= World.height w
  ∧ length (World.grid w) = Z.to_nat (World.height w)
  ∧ Forall (fun row => length row = Z.to_nat (World.width w)) (World.grid w).

(** The key stored at column [gx] of row [gy] of a grid. *)
Definition cellAt (g : list (list string)) (gx gy : Z) : option string :=
  g !! Z.to_nat gy ≫= (fun row => row !! Z.to_nat gx).

(** The cells [fillRect] writes: the rectangle, corners in any order, cut
    to the grid. *)
Definition inFill (w : World.t) (x1 y1 x2 y2 gx gy : Z) : Prop :=
  Z.min x1 x2 <= gx <= Z.max x1 x2 ∧ Z.min y1 y2 <= gy <= Z.max y1 y2
  ∧ World.outOfBounds w gx gy = false.

(** The cells of the grid, row by row. *)
Definition cells (w : World.t) : list (Z * Z) :=
  y ← seqZ 0 (World.height w); x ← seqZ 0 (World.width w); [(x, y)].

(** A 2x2 world whose default key is one the application never registers:
    [new World({ width: 2, height: 2, defaultSector: 'abyss' })]. *)
Definition abyssConfig : World.Config :=
  {| World.cfg_width := Some 2; World.cfg_height := Some 2;
     World.cfg_defaultSector := Some "abyss"%string |}.

(** A 2x2 world with the built-in default, whose application registers
    ['void'] again with no field given:
    [new World({ width: 2, height: 2 }).registerSectorType('void', {})]. *)
Definition smallConfig : World.Config :=
  {| World.cfg_width := Some 2; World.cfg_height := Some 2;
     World.cfg_defaultSector := None |}.

Definition reopenVoid : list World.Op :=
  [World.OpRegister "void" World.emptyDef].

(** [world.isWalkable(gx, gy)] at the integer coordinates of a cell. *)
Definition isWalkableCell (w : World.t) (c : Visibility.Cell) : option bool :=
  World.isWalkable w (inject_Z (fst c)) (inject_Z (snd c)).

(** Every walkable cell of the visible set is in the discovered set. *)
Definition covered (w : World.t) (v : Visibility.t) : Prop :=
  forall c, c ∈ Visibility.currentlyVisible v ->
    isWalkableCell w c = Some true -> c ∈ Visibility.discovered v.

(** The states of a run are numbered from 0, the state the run starts in.
    [seen sts k] holds the cells that are in the visible set of one of the
    states 0 to [k]. *)
Definition seen (sts : list (World.t * Visibility.t)) (k : nat)
    : gset Visibility.Cell :=
  ⋃ ((fun st => Visibility.currentlyVisible (snd st)) <$> take (S k) sts).

(** No step of the run makes walkable a cell that has been in the visible
    set and is not in the discovered set. A cell that becomes a wall, a
    cell that was never in view and a cell already discovered may change
    freely. *)
Definition noOpening (sts : list (World.t * Visibility.t)) : Prop :=
  forall k a b c,
    sts !! k = Some a -> sts !! S k = Some b ->
    c ∈ seen sts k ->
    isWalkableCell (fst b) c = Some true ->
    isWalkableCell (fst a) c = Some true ∨ c ∈ Visibility.discovered (snd a).

(** [noOpening] as a test on the states of a run. *)
Definition noOpeningb (sts : list (World.t * Visibility.t)) : bool :=
  forallb
    (fun k =>
       match sts !! k, sts !! S k with
       | Some a, Some b =>
           forallb
             (fun c =>
                implb (bool_decide (isWalkableCell (fst b) c = Some true))
                      (bool_decide (isWalkableCell (fst a) c = Some true)
                       || bool_decide (c ∈ Visibility.discovered (snd a))))
             (elements (seen sts k))
       | _, _ => true
       end)
    (seq 0 (length sts)).

(** A cell that is in the visible set of state [i] and walkable in a
    state [k] from [i] on is in the discovered set of every state [j]
    from [k] on: with [k = j], the discovered set of a state holds every
    cell that is walkable in that state and is, or has been, in the
    visible set. *)
Definition discoveredCoversSeen (sts : list (World.t * Visibility.t)) : Prop :=
  forall i k j a s b c,
    (i <= k <= j)%nat ->
    sts !! i = Some a -> sts !! k = Some s -> sts !! j = Some b ->
    c ∈ Visibility.currentlyVisible (snd a) ->
    isWalkableCell (fst s) c = Some true ->
    c ∈ Visibility.discovered (snd b).

(** An implementation of the [Math] functions by rationals: the double
    nearest to pi, the Taylor polynomials of degree 8 and 9, and the
    integer square root at nine decimal places. It agrees with the engine's
    host at the arguments the scenarios below reach: [cos 0 = 1],
    [sin 0 = 0], [sqrt 1 = 1]. *)
Definition taylorMath : MathLib :=
  {| cos := fun a =>
       (1 - a * a / 2 + a * a * a * a / 24 - a * a * a * a * a * a / 720
        + a * a * a * a * a * a * a * a / 40320)%Q;
     sin := fun a =>
       (a - a * a * a / 6 + a * a * a * a * a / 120
        - a * a * a * a * a * a * a / 5040
        + a * a * a * a * a * a * a * a * a / 362880)%Q;
     sqrt := fun q =>
       (inject_Z (Z.sqrt (Qnum q * Zpos (Qden q) * 1000000000000000000))
        / inject_Z (Zpos (Qden q) * 1000000000))%Q;
     PI := 884279719003555 # 281474976710656 |}.

Definition floorDef : World.SectorDef := World.emptyDef.

Definition wallDef : World.SectorDef :=
  {| World.d_floor := None; World.d_ceiling := None;
     World.d_walkable := Some false;
     World.d_floorColor := None; World.d_wallColor := None;
     World.d_ceilingColor := None; World.d_name := None;
     World.d_solid := None; World.d_friction := None;
     World.d_damage := None; World.d_light := None;
     World.d_properties := None |}.

(** A 3x1 strip, floor / wall / floor: a closed door between two rooms. *)
Definition doorConfig : World.Config :=
  {| World.cfg_width := Some 3; World.cfg_height := Some 1;
     World.cfg_defaultSector := None |}.

Definition doorOps : list World.Op :=
  [ World.OpRegister "floor" floorDef; World.OpRegister "wall" wallDef;
    World.OpFillRect 0 0 2 0 "floor"; World.OpSetSector 1 0 "wall" ].

(** [new Visibility(world, { fovRayCount: 1 })]: one ray per sweep. *)
Definition oneRayConfig : Visibility.Config :=
  {| Visibility.cfg_viewDistance := None; Visibility.cfg_rayStep := None;
     Visibility.cfg_fovRayCount := Some 1%Q |}.

(** The viewer stands at (0.5, 0.5) and looks along the strip: with
    [angle = 1] and [fov = 2] the single ray leaves at angle 0. Between the
    two updates the door cell becomes floor. *)
Definition lookEast : Visibility.Action :=
  Visibility.Update (1 # 2) (1 # 2) (Some 1%Q) (Some 2%Q).

Definition doorOpens : list Visibility.Action :=
  [ lookEast; Visibility.Mutate (World.OpSetSector 1 0 "floor"); lookEast ].

(** The same viewer while the strip is rebuilt around the closed door:
    the cell the viewer stands on, seen and discovered, is walled up and
    opened again; the far cell, never in view, is walled up and opened
    again. *)
Definition rebuildAroundDoor : list Visibility.Action :=
  [ lookEast;
    Visibility.Mutate (World.OpSetSector 0 0 "wall");
    Visibility.Mutate (World.OpSetSector 2 0 "wall");
    lookEast;
    Visibility.Mutate (World.OpSetSector 0 0 "floor");
    Visibility.Mutate (World.OpSetSector 2 0 "floor");
    lookEast ].


(** The coordinate reached from [x] after [i] additions of [step], as the
    loops that walk a segment compute it. *)
Definition stepped (x step : Q) (i : nat) : Q :=
  Nat.iter i (fun q => (q + step)%Q) x.

(** The solver as the engine creates it: [new Movement(world)]. *)
Definition solver : Movement.t := Movement.new Movement.defaultConfig.

(** A corridor one cell wide along the row [1 <= y < 2], columns 0 to 2:
    its cells are walkable with a floor the solver can step on from height
    0, and no cell of the rows above and below it is walkable. *)
Definition corridor (mv : Movement.t) (w : World.t) : Prop :=
  (forall px py, Qfloor py = 1 -> 0 <= Qfloor px <= 2 ->
     exists s, World.getSector w px py = Ret s ∧ World.walkable s = true
               ∧ (World.floor s <= Movement.maxStepHeight mv)%Q)
  ∧ (forall px py, Qfloor py = 0 ∨ Qfloor py = 2 ->
       exists s, World.getSector w px py = Ret s ∧ World.walkable s = false).

(** The corridor as a level: a 4x3 grid, wall / floor / wall by rows. *)
Definition corridorConfig : World.Config :=
  {| World.cfg_width := Some 4; World.cfg_height := Some 3;
     World.cfg_defaultSector := None |}.

Definition corridorOps : list World.Op :=
  [ World.OpRegister "floor" floorDef; World.OpRegister "wall" wallDef;
    World.OpFillRect 0 0 3 2 "wall"; World.OpFillRect 0 1 3 1 "floor" ].

(** An entity of radius 0.2 at height 0. *)
Definition bodyAt (x y : Q) : Movement.Body :=
  {| Movement.x := x; Movement.y := y;
     Movement.radius := Some (2 # 10); Movement.z := Some 0%Q |}.

(** The entities filed under a bucket key; an absent bucket holds none. *)
Definition bucket (m : EntityManager.t) (key : Z * Z) : list Ref :=
  default [] (EntityManager.spatialHash m !! key).

(** The spatial hash files exactly the entities [P], each once, under the
    key of its current position. *)
Definition indexed (fl : Q -> Q) (h : Store) (m : EntityManager.t)
    (P : Ref -> Prop) : Prop :=
  (0 < EntityManager.cellSize m)%Q
  ∧ forall key,
      NoDup (bucket m key)
      ∧ forall l, l ∈ bucket m key <->
          P l ∧ EntityManager._getCellKey fl m (Entity.x (h l)) (Entity.y (h l))
                = key.

(** Equal numbers round to equal numbers. *)
Definition respectsEq (fl : Q -> Q) : Prop :=
  forall a b, (a == b)%Q -> (fl a == fl b)%Q.

(** Squared distance from the centre of entity [l] to the point [(x, y)]. *)
Definition distSq (h : Store) (x y : Q) (l : Ref) : Q :=
  ((Entity.x (h l) - x) * (Entity.x (h l) - x)
   + (Entity.y (h l) - y) * (Entity.y (h l) - y))%Q.

(** An entity object at a position, everything else as the constructor
    leaves it. *)
Definition entityAt (i : Z) (x y : Q) : Entity.t :=
  {| Entity.id := i; Entity.type := "entity"; Entity.x := x; Entity.y := y;
     Entity.z := 0; Entity.angle := 0; Entity.radius := 2 # 10;
     Entity.height := 5 # 10; Entity.solid := true; Entity.vx := 0;
     Entity.vy := 0; Entity.speed := 3; Entity.visible := true;
     Entity.sprite := None; Entity.properties := [];
     Entity.active := true; Entity.removed := false |}.

(** Three objects: one at (3, 0), one at (5, 1) in the next bucket along
    x, one at (1, 1). *)
Definition threeEntities : Store :=
  fun l =>
    match l with
    | O => entityAt 1 3 0
    | S O => entityAt 2 5 1
    | _ => entityAt 3 1 1
    end.

(** The first object after the application has written a new position
    into it, as the engine's game loop does with the player. *)
Definition firstMoved : Store :=
  storeSet threeEntities 0%nat (entityAt 1 10 10).

(** The three objects with the first one under way: at 64 units a second
    along x it is at (4, 0), in the next bucket, after a tick of 1/64 s. *)
Definition drifting : Store :=
  fun l =>
    match l with
    | O =>
        {| Entity.id := 1; Entity.type := "entity"; Entity.x := 3;
           Entity.y := 0; Entity.z := 0; Entity.angle := 0;
           Entity.radius := 2 # 10; Entity.height := 5 # 10;
           Entity.solid := true; Entity.vx := 64; Entity.vy := 0;
           Entity.speed := 3; Entity.visible := true; Entity.sprite := None;
           Entity.properties := []; Entity.active := true;
           Entity.removed := false |}
    | _ => threeEntities l
    end.

(** The bucket keys [getNear] visits, in visiting order, and the entities
    it meets there. *)
Definition scanKeys (fl : Q -> Q) (m : EntityManager.t) (x y radius : Q)
    : list (Z * Z) :=
  let minCellX := Qfloor (fl (fl (x - radius) / EntityManager.cellSize m))%Q in
  let maxCellX := Qfloor (fl (fl (x + radius) / EntityManager.cellSize m))%Q in
  let minCellY := Qfloor (fl (fl (y - radius) / EntityManager.cellSize m))%Q in
  let maxCellY := Qfloor (fl (fl (y + radius) / EntityManager.cellSize m))%Q in
  cy ← seqZ minCellY (maxCellY - minCellY + 1);
  cx ← seqZ minCellX (maxCellX - minCellX + 1);
  [(cx, cy)].

Definition scanList (fl : Q -> Q) (m : EntityManager.t) (x y radius : Q)
    : list Ref :=
  scanKeys fl m x y radius ≫= bucket m.

(** The entity [l] is one [getNear(x, y, radius)] returns when it is
    registered: it passes the test of the code, as the code computes it,
    and it is filed in one of the buckets the query visits. *)
Definition passes (fl : Q -> Q) (h : Store) (m : EntityManager.t)
    (x y radius : Q) (l : Ref) : Prop :=
  EntityManager.within fl h x y radius l = true
  ∧ EntityManager._getCellKey fl m (Entity.x (h l)) (Entity.y (h l))
    ∈ scanKeys fl m x y radius.

(** No operation of the query [getNear(x, y, radius)] rounds: the square
    of the radius and the four bounds of the bucket range are exact. *)
Definition exactQuery (fl : Q -> Q) (m : EntityManager.t) (x y radius : Q)
    : Prop :=
  let cs := EntityManager.cellSize m in
  (fl (radius * radius) == radius * radius
   ∧ fl (fl (x - radius) / cs) == (x - radius) / cs
   ∧ fl (fl (x + radius) / cs) == (x + radius) / cs
   ∧ fl (fl (y - radius) / cs) == (y - radius) / cs
   ∧ fl (fl (y + radius) / cs) == (y + radius) / cs)%Q.

(** No operation on the entity [l] rounds: the two differences, the sum
    of their squares and the two quotients of its bucket key are exact. *)
Definition exactFor (fl : Q -> Q) (h : Store) (m : EntityManager.t)
    (x y : Q) (l : Ref) : Prop :=
  let cs := EntityManager.cellSize m in
  let ex := Entity.x (h l) in
  let ey := Entity.y (h l) in
  let dx := fl (ex - x)%Q in
  let dy := fl (ey - y)%Q in
  (dx == ex - x ∧ dy == ey - y
   ∧ fl (fl (dx * dx) + fl (dy * dy)) == dx * dx + dy * dy
   ∧ fl (ex / cs) == ex / cs ∧ fl (ey / cs) == ey / cs)%Q.

(** An object one unit east of the origin and 2^-27 north of it: its
    distance to the origin is more than 1, by less than a double next to 1
    can tell. *)
Definition grazing : Store :=
  fun _ => entityAt 1 1 (1 # 134217728).

(** An object and a radius around the origin, as doubles: the object is
    closer to the origin than the radius, by less than the rounded sum of
    the squares keeps. *)
Definition shyRadius : Q := 3494171155816573 # 562949953421312.

Definition shy : Store :=
  fun _ => entityAt 1 (5816708465617871 # 2251799813685248)
                      (6354400358890243 # 1125899906842624).

(** The by-id map is keyed by the ids its objects carry. *)
Definition registered (h : Store) (m : EntityManager.t) : Prop :=
  NoDup (fst <$> EntityManager.entities m)
  ∧ forall i l, (i, l) ∈ EntityManager.entities m -> Entity.id (h l) = i.

(** The application calls [entity.remove()] on the object [l]. *)
Definition mark (h : Store) (l : Ref) : Store :=
  storeSet h l (Entity.remove (h l)).

(** What the queries read of an object: its id and its position. *)
Definition sameIndexData (h1 h2 : Store) : Prop :=
  forall l, Entity.id (h1 l) = Entity.id (h2 l)
            ∧ Entity.x (h1 l) = Entity.x (h2 l)
            ∧ Entity.y (h1 l) = Entity.y (h2 l).

(** The flags and the id of every object, which the first pass leaves
    alone. *)
Definition sameFlags (h1 h2 : Store) : Prop :=
  forall l, Entity.removed (h1 l) = Entity.removed (h2 l)
            ∧ Entity.id (h1 l) = Entity.id (h2 l).

(** [new Entity(config)] for each configuration in turn, the static
    counter threaded through. *)
Definition construct (configs : list Entity.Config) (nextId : Z)
    : list Entity.t * Z :=
  foldl (fun acc c =>
           let e := Entity.new c (snd acc) in
           (fst acc ++ [fst e], snd e))
        ([], nextId) configs.


(** A configuration with nothing given but, possibly, an id. *)
Definition idConfig (i : option Z) : Entity.Config :=
  {| Entity.cfg_id := i; Entity.cfg_type := None; Entity.cfg_x := None;
     Entity.cfg_y := None; Entity.cfg_z := None; Entity.cfg_angle := None;
     Entity.cfg_radius := None; Entity.cfg_height := None;
     Entity.cfg_solid := None; Entity.cfg_speed := None;
     Entity.cfg_visible := None; Entity.cfg_sprite := None;
     Entity.cfg_properties := None |}.
(** * Properties *)

(** ** World: shape of the grid *)

Section WorldFacts.
Import World.

Lemma writeCell_length gx gy key g :
  length (writeCell gx gy key g) = length g.
Proof. unfold writeCell. apply length_alter. Qed.

Lemma foldl_writeCell_length {A} (f : list (list string) -> A -> list (list string))
    (xs : list A) g :
  (forall g' a, length (f g' a) = length g') ->
  length (foldl f g xs) = length g.
Proof.
  intros Hf. revert g. induction xs as [|a xs IH]; intros g; simpl; [done|].
  rewrite IH. apply Hf.
Qed.

Lemma fillRect_length x1 y1 x2 y2 key w :
  length (grid (fillRect x1 y1 x2 y2 key w)) = length (grid w).
Proof.
  unfold fillRect. simpl.
  apply foldl_writeCell_length. intros g' a.
  apply foldl_writeCell_length. intros g'' b. apply writeCell_length.
Qed.

Lemma setSector_length gx gy key w :
  length (grid (snd (setSector gx gy key w))) = length (grid w).
Proof.
  unfold setSector.
  destruct (outOfBounds w gx gy); [done|].
  destruct (grid w !! Z.to_nat gy ≫= _) as [old|]; simpl.
  - destruct (String.eqb old key); simpl; [done|apply writeCell_length].
  - apply writeCell_length.
Qed.

Lemma applyOp_rowsPresent w o : rowsPresent w -> rowsPresent (applyOp w o).
Proof.
  intros [Hl Hh]. destruct o; simpl; split; try done.
  - rewrite setSector_length.
    unfold setSector. destruct (outOfBounds _ _ _); [done|].
    destruct (_ ≫= _) as [old|]; [destruct (String.eqb old key)|]; done.
  - unfold setSector. destruct (outOfBounds _ _ _); [done|].
    destruct (_ ≫= _) as [old|]; [destruct (String.eqb old key)|]; done.
  - by rewrite fillRect_length.
Qed.

Lemma applyOp_defaultRegistered w o :
  defaultRegistered w -> defaultRegistered (applyOp w o).
Proof.
  unfold defaultRegistered. intros Hd. destruct o; simpl; try done.
  - destruct (decide (key = defaultSector w)) as [->|Hne].
    + rewrite lookup_insert_eq. eauto.
    + by rewrite lookup_insert_ne.
  - unfold setSector. destruct (outOfBounds _ _ _); [done|].
    destruct (_ ≫= _) as [old|]; [destruct (String.eqb old key)|]; done.
Qed.

Lemma foldl_applyOp_rowsPresent ops w :
  rowsPresent w -> rowsPresent (foldl applyOp w ops).
Proof.
  revert w. induction ops as [|o ops IH]; intros w Hw; simpl; [done|].
  apply IH, applyOp_rowsPresent, Hw.
Qed.

Lemma foldl_applyOp_defaultRegistered ops w :
  defaultRegistered w -> defaultRegistered (foldl applyOp w ops).
Proof.
  revert w. induction ops as [|o ops IH]; intros w Hw; simpl; [done|].
  apply IH, applyOp_defaultRegistered, Hw.
Qed.

Lemma new_rowsPresent config w : new config = Some w -> rowsPresent w.
Proof.
  unfold new. destruct (_ || _) eqn:Hneg; [done|].
  intros [= <-]. apply orb_false_iff in Hneg as [Hw Hh].
  split; simpl; [apply length_replicate|lia].
Qed.

Lemma build_rowsPresent config ops w :
  build config ops = Some w -> rowsPresent w.
Proof.
  unfold build. destruct (new config) as [w0|] eqn:Hnew; [|done].
  intros [= <-]. eapply foldl_applyOp_rowsPresent, new_rowsPresent, Hnew.
Qed.

(** With the default key left at ['void'], the default sector type is
    registered from construction on. *)
Lemma build_void_registered config ops w :
  cfg_defaultSector config = None ->
  build config ops = Some w -> defaultRegistered w.
Proof.
  unfold build. destruct (new config) as [w0|] eqn:Hnew; [|done].
  intros Hcfg [= <-]. apply foldl_applyOp_defaultRegistered.
  unfold new in Hnew. destruct (_ || _); [done|].
  injection Hnew as <-. unfold defaultRegistered. simpl.
  rewrite Hcfg. simpl. rewrite lookup_insert_eq. eauto.
Qed.

Lemma rowsPresent_lookup w gy :
  rowsPresent w -> 0 <= gy < height w -> is_Some (grid w !! Z.to_nat gy).
Proof.
  intros [Hl Hh] Hgy. apply lookup_lt_is_Some. rewrite Hl. lia.
Qed.

Lemma outOfBounds_false w gx gy :
  outOfBounds w gx gy = false ->
  0 <= gx < width w ∧ 0 <= gy < height w.
Proof. unfold outOfBounds. lia. Qed.

(** [getSector] on a world with its rows in place and its default key
    registered: always a record. *)
Lemma getSector_Ret w x y :
  rowsPresent w -> defaultRegistered w ->
  exists s, getSector w x y = Ret s.
Proof.
  intros Hrows [d Hd]. unfold getSector.
  destruct (outOfBounds w (Qfloor x) (Qfloor y)) eqn:Hoob.
  - rewrite Hd. simpl. eauto.
  - apply outOfBounds_false in Hoob as [_ Hy].
    destruct (rowsPresent_lookup w (Qfloor y) Hrows Hy) as [row ->].
    destruct (row !! Z.to_nat (Qfloor x)) as [key|]; [|rewrite Hd; simpl; eauto].
    destruct (sectorTypes w !! key) as [s|]; [eauto|rewrite Hd; simpl; eauto].
Qed.

Lemma isWalkable_Some w x y :
  rowsPresent w -> defaultRegistered w ->
  exists b, isWalkable w x y = Some b.
Proof.
  intros Hr Hd. unfold isWalkable.
  destruct (getSector_Ret w x y Hr Hd) as [s ->]. eauto.
Qed.

End WorldFacts.

(** ** C1: [getSector] and [isWalkable] outside the grid *)

Section GetSector.
Import World.

Lemma getSector_outside w x y :
  outOfBounds w (Qfloor x) (Qfloor y) = true ->
  getSector w x y = of_lookup (sectorTypes w !! defaultSector w).
Proof. unfold getSector. by intros ->. Qed.

Lemma getSector_unregistered w x y key :
  outOfBounds w (Qfloor x) (Qfloor y) = false ->
  cellKey w (Qfloor x) (Qfloor y) = Some key ->
  sectorTypes w !! key = None ->
  getSector w x y = of_lookup (sectorTypes w !! defaultSector w).
Proof.
  unfold getSector, cellKey. intros -> Hkey Hnone.
  destruct (grid w !! Z.to_nat (Qfloor y)) as [row|]; [|done].
  simpl in Hkey. rewrite Hkey, Hnone. done.
Qed.

(** C1, as the claim states it, fails on worlds the constructor builds:
    with a default key that is never registered [getSector] returns
    [undefined] and [isWalkable] throws; with ['void'] registered again
    without a [walkable] field, [isWalkable] is true outside the grid. *)
Lemma getSector_default_counterexample :
  (exists w, build abyssConfig [] = Some w
     ∧ getSector w (1 # 2) (1 # 2) = Undef
     ∧ getSector w (-1) (-1) = Undef
     ∧ isWalkable w (-1) (-1) = None)
  ∧ (exists w, build smallConfig reopenVoid = Some w
     ∧ outOfBounds w (Qfloor (-1)) (Qfloor (-1)) = true
     ∧ isWalkable w (-1) (-1) = Some true).
Proof.
  split; eexists; (split; [reflexivity|]); repeat split; vm_compute; reflexivity.
Qed.

(** C1 (amended): on every world obtained from the constructor and the
    mutators whose default key is registered, [getSector] returns a
    sector-type record at every coordinate pair; outside the grid, and on
    a cell whose key is not registered, the record is the default one; and
    when the default record is not walkable, [isWalkable] is false outside
    the grid. *)
Theorem getSector_total_default config ops w d x y :
  build config ops = Some w ->
  sectorTypes w !! defaultSector w = Some d ->
  (exists s, getSector w x y = Ret s)
  ∧ (outOfBounds w (Qfloor x) (Qfloor y) = true -> getSector w x y = Ret d)
  ∧ (forall key, outOfBounds w (Qfloor x) (Qfloor y) = false ->
       cellKey w (Qfloor x) (Qfloor y) = Some key ->
       sectorTypes w !! key = None -> getSector w x y = Ret d)
  ∧ (walkable d = false ->
     outOfBounds w (Qfloor x) (Qfloor y) = true ->
     isWalkable w x y = Some false).
Proof.
  intros Hbuild Hd.
  assert (Hrows : rowsPresent w) by (eapply build_rowsPresent; eauto).
  assert (Hreg : defaultRegistered w) by (unfold defaultRegistered; eauto).
  repeat split.
  - by apply getSector_Ret.
  - intros Hoob. rewrite getSector_outside, Hd; done.
  - intros key Hin Hkey Hnone.
    erewrite getSector_unregistered, Hd; done.
  - intros Hw Hoob. unfold isWalkable.
    rewrite getSector_outside, Hd by done. simpl. by rewrite Hw.
Qed.

(** The built-in default: a world built with the default key left alone
    and ['void'] never registered again resolves every outside coordinate
    to the non-walkable ['VOID'] record. *)
Lemma isWalkable_outside_void config ops w x y :
  cfg_defaultSector config = None ->
  Forall (fun o => match o with OpRegister k _ => k ≠ "void"%string | _ => True end) ops ->
  build config ops = Some w ->
  outOfBounds w (Qfloor x) (Qfloor y) = true ->
  isWalkable w x y = Some false.
Proof.
  intros Hcfg Hops Hbuild Hoob.
  assert (Hlk : defaultSector w = "void"%string
                ∧ sectorTypes w !! "void"%string = Some (mergeDefaults "void" voidDef)).
  { unfold build in Hbuild. destruct (new config) as [w0|] eqn:Hnew; [|done].
    injection Hbuild as <-.
    assert (H0 : defaultSector w0 = "void"%string
                 ∧ sectorTypes w0 !! "void"%string = Some (mergeDefaults "void" voidDef)).
    { unfold new in Hnew. destruct (_ || _); [done|]. injection Hnew as <-.
      simpl. rewrite Hcfg. simpl. by rewrite lookup_insert_eq. }
    clear Hnew Hoob. revert w0 H0.
    induction Hops as [|o ops Ho Hops IH]; intros w0 H0; simpl; [done|].
    apply IH. destruct H0 as [H1 H2]. destruct o; simpl; try done.
    - by rewrite lookup_insert_ne.
    - unfold setSector. destruct (outOfBounds _ _ _); [done|].
      destruct (_ ≫= _) as [old|]; [destruct (String.eqb old key)|]; done. }
  destruct Hlk as [Hdef Hvoid].
  unfold isWalkable. rewrite getSector_outside by done.
  rewrite Hdef, Hvoid. done.
Qed.

Lemma getSector_total_default_witness :
  exists w, build smallConfig [OpSetSector 0 0 "lava"] = Some w
    ∧ getSector w (1 # 2) (1 # 2) = Ret (mergeDefaults "void" voidDef)
    ∧ isWalkable w (-1) 5 = Some false.
Proof.
  eexists. split; [reflexivity|].
  pose proof (getSector_total_default smallConfig [OpSetSector 0 0 "lava"%string]
                _ (mergeDefaults "void" voidDef) (1 # 2) (1 # 2)
                eq_refl eq_refl) as (_ & _ & Hkey & _).
  pose proof (getSector_total_default smallConfig [OpSetSector 0 0 "lava"%string]
                _ (mergeDefaults "void" voidDef) (-1) 5
                eq_refl eq_refl) as (_ & _ & _ & Hwalk).
  split.
  - apply (Hkey "lava"%string); reflexivity.
  - apply Hwalk; reflexivity.
Defined.

End GetSector.

(** ** C7: serialize, then deserialize *)

Section RoundTrip.
Import World.

Lemma foldl_insert_lookup {V} (l : list (string * V)) (acc : gmap string V) k :
  NoDup (fst <$> l) ->
  foldl (fun a kv => <[fst kv := snd kv]> a) acc l !! k
  = match list_to_map (M := gmap string V) l !! k with
    | Some v => Some v
    | None => acc !! k
    end.
Proof.
  revert acc. induction l as [|[k' v'] l IH]; intros acc Hnd; simpl.
  - by rewrite lookup_empty.
  - apply NoDup_cons in Hnd as [Hnotin Hnd]. rewrite IH by done.
    destruct (list_to_map (M := gmap string V) l !! k) as [v|] eqn:Hl.
    + destruct (decide (k' = k)) as [->|Hne].
      * apply elem_of_list_to_map_2 in Hl.
        exfalso. apply Hnotin. apply list_elem_of_fmap. by exists (k, v).
      * by rewrite lookup_insert_ne, Hl.
    + destruct (decide (k' = k)) as [->|Hne].
      * by rewrite !lookup_insert_eq.
      * by rewrite !lookup_insert_ne, Hl.
Qed.

Lemma setAll_fromEntries {V} (m : gmap string V) : setAll (fromEntries m) = m.
Proof.
  unfold setAll, fromEntries. rewrite list_to_map_to_list.
  apply map_eq. intros k.
  rewrite foldl_insert_lookup by apply NoDup_fst_map_to_list.
  rewrite list_to_map_to_list, lookup_empty. by destruct (m !! k).
Qed.

Lemma deserialize_serialize w w0 :
  deserialize (serialize w) w0 = w.
Proof.
  unfold deserialize, serialize. simpl.
  rewrite !setAll_fromEntries, !map_id. by destruct w.
Qed.

(** C7: a world restored from the snapshot of [w], into any receiving
    world, answers [getSector] exactly as [w] does, at every coordinate
    pair inside or outside the grid. *)
Theorem getSector_roundtrip w w0 x y :
  getSector (deserialize (serialize w) w0) x y = getSector w x y.
Proof. by rewrite deserialize_serialize. Qed.

End RoundTrip.

(** ** Visibility: the discovery pass and the ray loops *)

Section VisibilityFacts.
Import Visibility.
Context (M : MathLib).

Lemma foldl_option_None {A B} (f : option A -> B -> option A) (l : list B) :
  (forall b, f None b = None) -> foldl f None l = None.
Proof. intros Hf. induction l as [|b l IH]; simpl; [done|]. by rewrite Hf. Qed.

(** What the discovery pass guarantees of its result: nothing is dropped,
    and every key that is walkable and was not visible before is in. *)
Lemma discoveryPass_spec (w : World.t) (prev : gset Cell) (keys : list Cell)
    (disc : gset Cell) (newly : list Cell) (disc' : gset Cell) newly' :
  foldl (discoveryStep w prev) (Some (disc, newly)) keys = Some (disc', newly') ->
  disc ⊆ disc'
  ∧ (forall key, key ∈ keys -> key ∉ prev ->
       isWalkableCell w key = Some true -> key ∈ disc').
Proof.
  revert disc newly.
  induction keys as [|k keys IH]; intros disc newly; cbn [foldl].
  - intros [= <- <-]. split; [done|]. intros key Hin. by apply not_elem_of_nil in Hin.
  - unfold discoveryStep at 2. cbn [mbind option_bind].
    destruct (decide (k ∈ prev)) as [Hprev|Hprev].
    + intros Hrest. pose proof (IH _ _ Hrest) as [Hsub Hkeys]. split; [done|].
      intros key Hin Hnp Hw. apply elem_of_cons in Hin as [->|Hin]; [done|].
      by apply Hkeys.
    + destruct (World.isWalkable w (inject_Z k.1) (inject_Z k.2)) as [b|] eqn:Hb;
        cbn [mbind option_bind]; [|rewrite foldl_option_None; done].
      destruct (b && negb (bool_decide (k ∈ disc))) eqn:Hadd.
      * intros Hrest. pose proof (IH _ _ Hrest) as [Hsub Hkeys].
        split; [etrans; [apply union_subseteq_r|exact Hsub]|].
        intros key Hin Hnp Hw. apply elem_of_cons in Hin as [->|Hin];
          [|by apply Hkeys].
        by apply Hsub, elem_of_union_l, elem_of_singleton.
      * intros Hrest. pose proof (IH _ _ Hrest) as [Hsub Hkeys]. split; [done|].
        intros key Hin Hnp Hw. apply elem_of_cons in Hin as [->|Hin];
          [|by apply Hkeys].
        unfold isWalkableCell in Hw. rewrite Hb in Hw. injection Hw as ->.
        simpl in Hadd. apply negb_false_iff, bool_decide_eq_true in Hadd.
        by apply Hsub.
Qed.

Lemma update_inv w v x y angle fov v' newly :
  update M w v x y angle fov = Some (v', newly) ->
  discovered v ⊆ discovered v'
  ∧ (forall c, c ∈ currentlyVisible v' -> c ∉ currentlyVisible v ->
       isWalkableCell w c = Some true -> c ∈ discovered v')
  ∧ viewDistance v' = viewDistance v ∧ rayStep v' = rayStep v
  ∧ fovRayCount v' = fovRayCount v.
Proof.
  unfold update.
  destruct (sweep _ _ _ _ _ _ _ _) as [cur|]; simpl; [|done].
  destruct (discoveryPass _ _ _ _) as [[disc nw]|] eqn:Hpass; simpl; [|done].
  intros [= <- <-]. simpl.
  apply discoveryPass_spec in Hpass as [Hsub Hkeys].
  repeat split; [done|].
  intros c Hc Hnp Hw. apply Hkeys; [by apply elem_of_elements|done..].
Qed.

(** One update never removes a discovered cell. *)
Lemma update_discovered_subseteq w v x y angle fov v' newly :
  update M w v x y angle fov = Some (v', newly) ->
  discovered v ⊆ discovered v'.
Proof. intros H. by apply update_inv in H as [? _]. Qed.

Lemma step_discovered_subseteq st a st' :
  step M st a = Some st' -> discovered (snd st) ⊆ discovered (snd st').
Proof.
  destruct a as [x y angle fov|o]; simpl.
  - destruct (update _ _ _ _ _ _ _) as [[v' nw]|] eqn:Hup; simpl; [|done].
    intros [= <-]. simpl. eapply update_discovered_subseteq, Hup.
  - by intros [= <-].
Qed.

Lemma run_cons_inv st a rest tr :
  run M st (a :: rest) = Some tr ->
  exists st' tr', step M st a = Some st' ∧ run M st' rest = Some tr'
                  ∧ tr = st' :: tr'.
Proof.
  cbn [run]. destruct (step M st a) as [st'|]; cbn [mbind option_bind]; [|done].
  destruct (run M st' rest) as [tr'|] eqn:Hrun; cbn [mbind option_bind]; [|done].
  intros [= <-]. by exists st', tr'.
Qed.

Lemma run_length st acts tr :
  run M st acts = Some tr -> length tr = length acts.
Proof.
  revert st tr. induction acts as [|a rest IH]; intros st tr.
  - by intros [= <-].
  - intros H. apply run_cons_inv in H as (st' & tr' & _ & Hrun & ->).
    simpl. f_equal. eauto.
Qed.

(** From every state of a run, the rest of the run is a run. *)
Lemma run_suffix st acts tr i a :
  run M st acts = Some tr -> tr !! i = Some a ->
  run M a (drop (S i) acts) = Some (drop (S i) tr).
Proof.
  revert st acts tr. induction i as [|i IH]; intros st acts tr Hrun Hi.
  - destruct acts as [|a0 rest]; [by injection Hrun as <-|].
    apply run_cons_inv in Hrun as (st' & tr' & _ & Hrun & ->).
    simpl in Hi. injection Hi as <-. simpl. by rewrite !drop_0.
  - destruct acts as [|a0 rest]; [by injection Hrun as <-|].
    apply run_cons_inv in Hrun as (st' & tr' & _ & Hrun & ->).
    simpl in Hi. simpl. eauto.
Qed.

Lemma run_discovered_subseteq st acts tr b :
  run M st acts = Some tr -> b ∈ tr ->
  discovered (snd st) ⊆ discovered (snd b).
Proof.
  revert st tr. induction acts as [|a rest IH]; intros st tr Hrun Hb.
  - injection Hrun as <-. by apply not_elem_of_nil in Hb.
  - apply run_cons_inv in Hrun as (st' & tr' & Hstep & Hrun & ->).
    apply step_discovered_subseteq in Hstep.
    apply elem_of_cons in Hb as [->|Hb]; [done|].
    etrans; [exact Hstep|]. eauto.
Qed.

Lemma run_discovered_between st acts tr i j a b :
  run M st acts = Some tr -> (i <= j)%nat ->
  tr !! i = Some a -> tr !! j = Some b ->
  discovered (snd a) ⊆ discovered (snd b).
Proof.
  intros Hrun Hij Hi Hj.
  destruct (decide (i = j)) as [->|Hne].
  - rewrite Hi in Hj. by injection Hj as <-.
  - eapply run_discovered_subseteq; [eapply run_suffix; eauto|].
    apply list_elem_of_lookup. exists (j - S i)%nat.
    rewrite lookup_drop. replace (S i + (j - S i))%nat with j by lia. done.
Qed.

End VisibilityFacts.

(** ** Visibility: the loops return *)

Section VisibilityTotal.
Import Visibility.
Context (M : MathLib).

Lemma Qltb_true a b : Qltb a b = true <-> (a < b)%Q.
Proof.
  unfold Qltb. rewrite negb_true_iff. split.
  - intros H. apply Qnot_le_lt. intros Hle.
    apply Qle_bool_iff in Hle. congruence.
  - intros H. destruct (Qle_bool b a) eqn:E; [|done].
    apply Qle_bool_iff in E. exfalso. eapply Qlt_not_le; eauto.
Qed.

Lemma Qltb_false a b : Qltb a b = false <-> (b <= a)%Q.
Proof.
  unfold Qltb. rewrite negb_false_iff. apply Qle_bool_iff.
Qed.

(** [loopBound] steps of a positive size reach the limit. *)
Lemma loopBound_reaches limit step :
  (0 < step)%Q ->
  (limit <= 0 + inject_Z (Z.of_nat (loopBound limit step)) * step)%Q.
Proof.
  intros Hstep. unfold loopBound.
  set (c := Qceiling (limit / step)).
  assert (Hc : (limit / step <= inject_Z (Z.of_nat (Z.to_nat c)))%Q).
  { apply Qle_trans with (inject_Z c); [apply Qle_ceiling|].
    rewrite <- Zle_Qle. lia. }
  assert (Hl : (limit == limit / step * step)%Q) by (field; lra).
  rewrite Hl at 1. rewrite Qplus_0_l.
  apply Qmult_le_compat_r; [done|lra].
Qed.

Lemma visibilityRayLoop_total w limit step dx dy fuel x y d cur :
  rowsPresent w -> defaultRegistered w ->
  (limit <= d + inject_Z (Z.of_nat fuel) * step)%Q ->
  is_Some (visibilityRayLoop w limit step dx dy fuel x y d cur).
Proof.
  intros Hrows Hreg. revert x y d cur.
  induction fuel as [|fuel IH]; intros x y d cur Hfuel; simpl.
  - destruct (Qltb d limit) eqn:Hlt; [|eauto].
    apply Qltb_true in Hlt.
    change (inject_Z (Z.of_nat 0)) with 0%Q in Hfuel. lra.
  - destruct (Qltb d limit) eqn:Hlt; [|eauto].
    destruct (isWalkable_Some w (x + dx)%Q (y + dy)%Q Hrows Hreg) as [b ->].
    destruct b; [|eauto].
    apply IH. rewrite Nat2Z.inj_succ in Hfuel. unfold Z.succ in Hfuel.
    rewrite inject_Z_plus in Hfuel.
    change (inject_Z 1) with 1%Q in Hfuel. lra.
Qed.

Lemma _castVisibilityRay_total w v x y angle cur :
  rowsPresent w -> defaultRegistered w -> (0 < rayStep v)%Q ->
  is_Some (_castVisibilityRay M w v x y angle cur).
Proof.
  intros Hrows Hreg Hstep. unfold _castVisibilityRay.
  apply visibilityRayLoop_total; [done..|].
  by apply loopBound_reaches.
Qed.

Lemma foldl_bind_total {A B} (f : B -> A -> option A) (l : list B) (a : A) :
  (forall b a', is_Some (f b a')) ->
  is_Some (foldl (fun acc b => a' ← acc; f b a') (Some a) l).
Proof.
  intros Hf. revert a. induction l as [|b l IH]; intros a; simpl; [eauto|].
  destruct (Hf b a) as [a' ->]. apply IH.
Qed.

Lemma discoveryPass_total (w : World.t) (prev : gset Cell) (keys : list Cell)
    (acc : gset Cell * list Cell) :
  rowsPresent w -> defaultRegistered w ->
  is_Some (foldl (discoveryStep w prev) (Some acc) keys).
Proof.
  intros Hrows Hreg. revert acc.
  induction keys as [|k keys IH]; intros [d nw]; cbn [foldl]; [eauto|].
  unfold discoveryStep at 2. cbn [mbind option_bind].
  destruct (decide (k ∈ prev)); [apply IH|].
  destruct (isWalkable_Some w (inject_Z k.1) (inject_Z k.2) Hrows Hreg)
    as [b ->].
  cbn [mbind option_bind]. destruct (b && _); apply IH.
Qed.

Lemma update_total w v x y angle fov :
  rowsPresent w -> defaultRegistered w -> (0 < rayStep v)%Q ->
  is_Some (update M w v x y angle fov).
Proof.
  intros Hrows Hreg Hstep. unfold update.
  destruct (foldl_bind_total
              (fun i cur => _castVisibilityRay M w v x y
                 (default 0%Q angle - default (PI M * 2)%Q fov / 2
                  + inject_Z i
                    / inject_Z (Qceiling (fovRayCount v
                        * (default (PI M * 2)%Q fov / (PI M * 2))))
                    * default (PI M * 2)%Q fov)%Q cur)
              (seqZ 0 (Qceiling (fovRayCount v
                        * (default (PI M * 2)%Q fov / (PI M * 2))))) ∅)
    as [cur Hcur].
  { intros i cur. by apply _castVisibilityRay_total. }
  unfold sweep. rewrite Hcur. cbn [mbind option_bind].
  destruct (discoveryPass_total w (currentlyVisible v) (elements cur)
              (discovered v, []) Hrows Hreg) as [[disc nw] Hres].
  unfold discoveryPass. rewrite Hres. simpl. eauto.
Qed.

Lemma step_total w v a :
  rowsPresent w -> defaultRegistered w -> (0 < rayStep v)%Q ->
  exists w' v', step M (w, v) a = Some (w', v')
    ∧ rowsPresent w' ∧ defaultRegistered w' ∧ rayStep v' = rayStep v.
Proof.
  intros Hrows Hreg Hstep. destruct a as [x y angle fov|o]; simpl.
  - destruct (update_total w v x y angle fov Hrows Hreg Hstep) as [[v' nw] Hup].
    rewrite Hup. cbn [mbind option_bind fst snd].
    apply update_inv in Hup as (_ & _ & _ & Hrs & _).
    by exists w, v'.
  - exists (World.applyOp w o), v. split; [done|].
    split; [by apply applyOp_rowsPresent|].
    split; [by apply applyOp_defaultRegistered|done].
Qed.

Lemma run_total w v acts :
  rowsPresent w -> defaultRegistered w -> (0 < rayStep v)%Q ->
  is_Some (run M (w, v) acts).
Proof.
  revert w v. induction acts as [|a rest IH]; intros w v Hrows Hreg Hstep.
  - simpl. eauto.
  - destruct (step_total w v a Hrows Hreg Hstep)
      as (w' & v' & Hs & Hrows' & Hreg' & Hstep').
    cbn [run]. rewrite Hs. cbn [mbind option_bind].
    destruct (IH w' v' Hrows' Hreg') as [tr Htr]; [by rewrite Hstep'|].
    rewrite Htr. simpl. eauto.
Qed.

End VisibilityTotal.

(** ** C6 and C2: the discovered set over a run of updates *)

Section Discovery.
Import Visibility.

(** C6: from a world with its rows in place and its default key
    registered, and a positive ray step, every sequence of [update] calls
    and grid mutations runs to its end, and the discovered set after each
    call contains the discovered set before it. *)
Theorem discovered_monotone M w v acts :
  rowsPresent w -> defaultRegistered w -> (0 < rayStep v)%Q ->
  exists tr, run M (w, v) acts = Some tr
    ∧ length tr = length acts
    ∧ forall i a b, ((w, v) :: tr) !! i = Some a -> tr !! i = Some b ->
        discovered (snd a) ⊆ discovered (snd b).
Proof.
  intros Hrows Hreg Hstep.
  destruct (run_total M w v acts Hrows Hreg Hstep) as [tr Hrun].
  exists tr. split; [done|]. split; [by eapply run_length|].
  intros i a b Ha Hb. destruct i as [|i].
  - simpl in Ha. injection Ha as <-.
    eapply run_discovered_subseteq; [exact Hrun|].
    apply list_elem_of_lookup. eauto.
  - simpl in Ha. eapply (run_discovered_between M _ _ _ i (S i)); eauto.
Qed.

Lemma discovered_monotone_witness :
  exists w v,
    World.build doorConfig doorOps = Some w
    ∧ Visibility.new w oneRayConfig = Some v
    ∧ exists tr, run taylorMath (w, v) doorOpens = Some tr
        ∧ length tr = length doorOpens
        ∧ forall i a b, ((w, v) :: tr) !! i = Some a -> tr !! i = Some b ->
            discovered (snd a) ⊆ discovered (snd b).
Proof.
  eexists _, _.
  split; [vm_compute; reflexivity|].
  split; [vm_compute; reflexivity|].
  apply (discovered_monotone taylorMath).
  - split; [reflexivity|vm_compute; discriminate].
  - vm_compute. eauto.
  - reflexivity.
Defined.

(** C2, as the claim states it, fails once the grid changes between two
    updates: a wall cell that is in view when it becomes floor is already
    in the previous visible set at the next update, which skips it. After
    the second update the cell is visible and walkable, not discovered. *)
Lemma discovered_misses_opened_door :
  exists w v tr w2 v2,
    World.build doorConfig doorOps = Some w
    ∧ Visibility.new w oneRayConfig = Some v
    ∧ run taylorMath (w, v) doorOpens = Some tr
    ∧ last tr = Some (w2, v2)
    ∧ (1, 0) ∈ currentlyVisible v2
    ∧ isWalkableCell w2 (1, 0) = Some true
    ∧ (1, 0) ∉ discovered v2.
Proof.
  eexists _, _, _, _, _.
  split; [vm_compute; reflexivity|].
  split; [vm_compute; reflexivity|].
  split; [vm_compute; reflexivity|].
  split; [vm_compute; reflexivity|].
  split; [|split].
  - apply (bool_decide_unpack _). vm_compute. exact I.
  - vm_compute. reflexivity.
  - apply (bool_decide_unpack _). vm_compute. exact I.
Qed.

Lemma covered_fresh w config v :
  Visibility.new w config = Some v -> covered w v.
Proof.
  unfold Visibility.new. destruct (countWalkable w); [|done].
  intros [= <-] c Hc. simpl in Hc. by apply not_elem_of_empty in Hc.
Qed.

Lemma elem_of_seen sts k c :
  c ∈ seen sts k <->
  exists i a, (i <= k)%nat ∧ sts !! i = Some a ∧ c ∈ currentlyVisible (snd a).
Proof.
  unfold seen. rewrite elem_of_union_list. split.
  - intros (X & HX & Hc). apply list_elem_of_fmap in HX as (a & -> & Ha).
    apply list_elem_of_lookup in Ha as (i & Hi).
    apply lookup_take_Some in Hi as [Hi Hlt].
    exists i, a. split; [lia|done].
  - intros (i & a & Hi & Ha & Hc). exists (currentlyVisible (snd a)).
    split; [|done]. apply list_elem_of_fmap. exists a. split; [done|].
    apply list_elem_of_lookup. exists i. apply lookup_take_Some. split; [done|lia].
Qed.

Lemma noOpeningb_sound sts : noOpeningb sts = true -> noOpening sts.
Proof.
  unfold noOpeningb. rewrite forallb_forall.
  intros Hall k a b c Ha Hb Hc Hw.
  assert (Hk : In k (seq 0 (length sts))).
  { apply in_seq. apply lookup_lt_Some in Ha. lia. }
  apply Hall in Hk. rewrite Ha, Hb in Hk.
  rewrite forallb_forall in Hk.
  assert (Hin : In c (elements (seen sts k))).
  { apply list_elem_of_In. by apply elem_of_elements. }
  apply Hk in Hin. rewrite (bool_decide_eq_true_2 _ Hw) in Hin.
  cbn [implb] in Hin. apply orb_true_iff in Hin as [H|H].
  - left. by apply bool_decide_eq_true in H.
  - right. by apply bool_decide_eq_true in H.
Qed.

(** Two consecutive states of a run are related by one call. *)
Lemma run_step_at M st acts tr k a b :
  run M st acts = Some tr ->
  (st :: tr) !! k = Some a -> (st :: tr) !! S k = Some b ->
  exists act, step M a act = Some b.
Proof.
  revert st acts tr. induction k as [|k IH]; intros st acts tr Hrun Ha Hb.
  - simpl in Ha. injection Ha as <-.
    destruct acts as [|a0 rest]; [by injection Hrun as <-|].
    apply run_cons_inv in Hrun as (st' & tr' & Hstep & _ & ->).
    simpl in Hb. injection Hb as <-. eauto.
  - destruct acts as [|a0 rest]; [by injection Hrun as <-|].
    apply run_cons_inv in Hrun as (st' & tr' & _ & Hrun & ->).
    eapply (IH st' rest tr'); eauto.
Qed.

(** A call changes the world or the visibility state, not both: an update
    leaves the world as it is, drops no discovered cell and discovers the
    walkable cells new to the visible set; a mutation leaves the
    visibility state as it is. *)
Lemma step_cases M a act b :
  step M a act = Some b ->
  (fst b = fst a
   ∧ discovered (snd a) ⊆ discovered (snd b)
   ∧ forall c, c ∈ currentlyVisible (snd b) -> c ∉ currentlyVisible (snd a) ->
       isWalkableCell (fst a) c = Some true -> c ∈ discovered (snd b))
  ∨ snd b = snd a.
Proof.
  destruct act as [x y angle fov|o]; simpl.
  - destruct (update _ _ _ _ _ _ _) as [[v' nw]|] eqn:Hup; simpl; [|done].
    intros [= <-]. left. simpl.
    apply update_inv in Hup as (Hsub & Hnew & _). done.
  - intros [= <-]. by right.
Qed.

Lemma noOpening_covers M st acts tr :
  covered (fst st) (snd st) -> run M st acts = Some tr ->
  noOpening (st :: tr) ->
  forall k b c, (st :: tr) !! k = Some b -> c ∈ seen (st :: tr) k ->
    isWalkableCell (fst b) c = Some true -> c ∈ discovered (snd b).
Proof.
  intros Hcov Hrun Hno. induction k as [|k IH]; intros b c Hb Hc Hw.
  - simpl in Hb. injection Hb as <-.
    apply elem_of_seen in Hc as (i & a & Hi & Ha & Hc).
    assert (i = 0%nat) as -> by lia. simpl in Ha. injection Ha as <-.
    by apply Hcov.
  - destruct ((st :: tr) !! k) as [a|] eqn:Ha.
    2:{ apply lookup_ge_None in Ha. apply lookup_lt_Some in Hb. lia. }
    destruct (run_step_at M st acts tr k a b Hrun Ha Hb) as [act Hstep].
    assert (Hprev : c ∈ seen (st :: tr) k -> c ∈ discovered (snd b)).
    { intros Hck.
      destruct (step_cases M a act b Hstep) as [(Hw' & Hsub & _)|Hv'].
      - apply Hsub, (IH a c eq_refl Hck). by rewrite <- Hw'.
      - rewrite Hv'. destruct (Hno k a b c Ha Hb Hck Hw) as [Hwa|Hd]; [|done].
        by apply (IH a c eq_refl Hck). }
    apply elem_of_seen in Hc as (i & a0 & Hi & Ha0 & Hc).
    destruct (decide (i = S k)) as [->|Hne].
    + rewrite Hb in Ha0. injection Ha0 as <-.
      destruct (decide (c ∈ currentlyVisible (snd a))) as [Hold|Hold].
      * apply Hprev, elem_of_seen. exists k, a. split; [lia|done].
      * destruct (step_cases M a act b Hstep) as [(Hw' & _ & Hnew)|Hv'].
        -- apply Hnew; [done..|]. by rewrite <- Hw'.
        -- by rewrite Hv' in Hc.
    + apply Hprev, elem_of_seen. exists i, a0. split; [lia|done].
Qed.

(** The discovered set only grows along a run, the state the run starts
    in included. *)
Lemma run_discovered_mono M st acts tr i j a b :
  run M st acts = Some tr -> (i <= j)%nat ->
  (st :: tr) !! i = Some a -> (st :: tr) !! j = Some b ->
  discovered (snd a) ⊆ discovered (snd b).
Proof.
  intros Hrun. revert b. induction j as [|j IH]; intros b Hij Ha Hb.
  - assert (i = 0%nat) as -> by lia. rewrite Ha in Hb. by injection Hb as <-.
  - destruct (decide (i = S j)) as [->|Hne].
    { rewrite Ha in Hb. by injection Hb as <-. }
    destruct ((st :: tr) !! j) as [s|] eqn:Hs.
    2:{ apply lookup_ge_None in Hs. apply lookup_lt_Some in Hb. lia. }
    destruct (run_step_at M st acts tr j s b Hrun Hs Hb) as [act Hstep].
    etrans; [apply (IH s); [lia|done..]|].
    eapply step_discovered_subseteq, Hstep.
Qed.

(** C2 (amended): take a run of [update] calls and grid mutations (no
    discovery reset) from a state in which every walkable visible cell is
    discovered, as in a fresh engine, and number its states from 0. The
    discovered set of every state contains every cell that is, or has
    been, in the visible set and is walkable in that state, or was at a
    moment since it was in the visible set, if and only if no step of the
    run makes walkable a cell that has been in the visible set and is not
    discovered. Mutations that turn cells into walls, that touch cells
    never in view, or that reopen discovered cells keep the invariant. *)
Theorem discovered_covers_visible M w v acts tr :
  covered w v ->
  run M (w, v) acts = Some tr ->
  noOpening ((w, v) :: tr) <-> discoveredCoversSeen ((w, v) :: tr).
Proof.
  intros Hcov Hrun. split.
  - intros Hno i k j a s b c [Hik Hkj] Ha Hs Hb Hc Hw.
    apply (run_discovered_mono M (w, v) acts tr k j s b Hrun Hkj Hs Hb).
    eapply (noOpening_covers M (w, v) acts tr); eauto.
    apply elem_of_seen. exists i, a. done.
  - intros Hall k a b c Ha Hb Hc Hw.
    apply elem_of_seen in Hc as (i & a0 & Hi & Ha0 & Hc).
    assert (Hd : c ∈ discovered (snd b)).
    { apply (Hall i (S k) (S k) a0 b b c); [lia|done..]. }
    destruct (run_step_at M (w, v) acts tr k a b Hrun Ha Hb) as [act Hstep].
    destruct (step_cases M a act b Hstep) as [(Hw' & _)|Hv'].
    + left. by rewrite <- Hw'.
    + right. by rewrite <- Hv'.
Qed.

Lemma discovered_covers_visible_witness :
  exists w v tr,
    World.build doorConfig doorOps = Some w
    ∧ Visibility.new w oneRayConfig = Some v
    ∧ run taylorMath (w, v) rebuildAroundDoor = Some tr
    ∧ discoveredCoversSeen ((w, v) :: tr).
Proof.
  eexists _, _, _.
  split; [vm_compute; reflexivity|].
  split; [vm_compute; reflexivity|].
  lazymatch goal with
  | |- run _ (?w, ?v) _ = _ ∧ _ => pose (w0 := w); pose (v0 := v)
  end.
  split; [vm_compute; reflexivity|].
  refine (proj1 (discovered_covers_visible taylorMath w0 v0 rebuildAroundDoor
                   _ _ _) _).
  - eapply (covered_fresh _ oneRayConfig). vm_compute. reflexivity.
  - vm_compute. reflexivity.
  - apply noOpeningb_sound. vm_compute. reflexivity.
Defined.

(** What that run goes through: the viewer's cell (0, 0) is seen and
    discovered, is a wall in the third state and walkable again in the
    last; the far cell (2, 0) is walkable in the last state, was never in
    the visible set and is not discovered. *)
Lemma rebuildAroundDoor_run :
  exists w v tr st2 st7,
    World.build doorConfig doorOps = Some w
    ∧ Visibility.new w oneRayConfig = Some v
    ∧ run taylorMath (w, v) rebuildAroundDoor = Some tr
    ∧ tr !! 1%nat = Some st2 ∧ last tr = Some st7
    ∧ (0, 0) ∈ seen ((w, v) :: tr) 1
    ∧ isWalkableCell (fst st2) (0, 0) = Some false
    ∧ isWalkableCell (fst st7) (0, 0) = Some true
    ∧ (0, 0) ∈ discovered (snd st7)
    ∧ isWalkableCell (fst st7) (2, 0) = Some true
    ∧ ((2, 0) ∉ seen ((w, v) :: tr) 7)
    ∧ (2, 0) ∉ discovered (snd st7).
Proof.
  eexists _, _, _, _, _.
  split; [vm_compute; reflexivity|].
  split; [vm_compute; reflexivity|].
  split; [vm_compute; reflexivity|].
  split; [reflexivity|]. split; [reflexivity|].
  split; [apply (bool_decide_unpack _); vm_compute; exact I|].
  split; [vm_compute; reflexivity|].
  split; [vm_compute; reflexivity|].
  split; [apply (bool_decide_unpack _); vm_compute; exact I|].
  split; [vm_compute; reflexivity|].
  split; apply (bool_decide_unpack _); vm_compute; exact I.
Qed.

End Discovery.

(** ** C9: one annotated record per screen column *)

Section CastRays.
Import Visibility.
Context (M : MathLib).






End CastRays.



(** The two columns of that view, computed: the ray of column 0 leaves at
    angle -1/2 and its distance is corrected by cos(-1/2) < 1; the ray of
    column 1 leaves at angle 0 and keeps its distance. *)
Lemma castRays_two_columns :
  exists w v r0 r1,
    World.build doorConfig doorOps = Some w
    ∧ Visibility.new w oneRayConfig = Some v
    ∧ Visibility.castRays taylorMath w v (1 # 2) (1 # 2) 0 1 2 = Some [r0; r1]
    ∧ Visibility.column r0 = Some 0 ∧ Visibility.column r1 = Some 1
    ∧ (exists d0, Visibility.correctedDistance r0 = Some d0
                  ∧ (d0 < Visibility.distance r0)%Q)
    ∧ (exists d1, Visibility.correctedDistance r1 = Some d1
                  ∧ (d1 == Visibility.distance r1)%Q).
Proof.
  eexists _, _, _, _.
  split; [vm_compute; reflexivity|].
  split; [vm_compute; reflexivity|].
  split; [vm_compute; reflexivity|].
  split; [reflexivity|]. split; [reflexivity|].
  split; eexists; (split; [reflexivity|]); vm_compute; reflexivity.
Qed.

(** ** Movement: occupancy tests *)

Section MovementFacts.
Import Movement.

Lemma getSector_Qeq w px py px' py' :
  (px == px')%Q -> (py == py')%Q ->
  World.getSector w px py = World.getSector w px' py'.
Proof.
  intros Hx Hy. unfold World.getSector.
  by rewrite (Qfloor_comp _ _ Hx), (Qfloor_comp _ _ Hy).
Qed.

Lemma checkPoints_Qeq mv w z pts pts' :
  Forall2 (fun p q => (fst p == fst q)%Q ∧ (snd p == snd q)%Q) pts pts' ->
  checkPoints mv w z pts = checkPoints mv w z pts'.
Proof.
  induction 1 as [|[px py] [qx qy] pts pts' [Hx Hy] _ IH]; simpl; [done|].
  simpl in Hx, Hy. rewrite (getSector_Qeq w px py qx qy Hx Hy).
  destruct (World.getSector w qx qy) as [s| |]; [|done..].
  destruct (negb _); [done|]. destruct (Qltb _ _); [done|]. exact IH.
Qed.

Lemma canOccupy_Qeq mv w x y x' y' radius z :
  (x == x')%Q -> (y == y')%Q ->
  canOccupy mv w x y radius z = canOccupy mv w x' y' radius z.
Proof.
  intros Hx Hy. unfold canOccupy, testPoints.
  apply checkPoints_Qeq.
  repeat (constructor; [simpl; split; rewrite ?Hx, ?Hy; reflexivity|]).
  constructor.
Qed.

Lemma checkPoints_total mv w z pts :
  rowsPresent w -> defaultRegistered w ->
  is_Some (checkPoints mv w z pts).
Proof.
  intros Hrows Hreg. induction pts as [|[px py] pts IH]; simpl; [eauto|].
  destruct (getSector_Ret w px py Hrows Hreg) as [s ->].
  destruct (negb _); [eauto|]. destruct (Qltb _ _); eauto.
Qed.

Lemma canOccupy_total mv w x y radius z :
  rowsPresent w -> defaultRegistered w ->
  is_Some (canOccupy mv w x y radius z).
Proof. intros. by apply checkPoints_total. Qed.

Lemma Qeq_bool_refl q : Qeq_bool q q = true.
Proof. apply Qeq_bool_iff. reflexivity. Qed.

End MovementFacts.

(** ** C10: a radius of zero *)

Section ZeroRadius.
Import Movement.

Lemma orQ_idem q d : orQ (Some (orQ q d)) d = orQ q d.
Proof.
  unfold orQ. destruct q as [q|].
  - destruct (Qeq_bool q 0) eqn:Hq.
    + by destruct (Qeq_bool d 0).
    + by rewrite Hq.
  - by destruct (Qeq_bool d 0).
Qed.

(** C10: [canOccupy] with a radius of exactly 0 is not a test of the one
    point [(x, y)]: the radius is replaced by the solver's default one, 0.2
    unless configured otherwise, so the nine points at that distance are
    sampled and the answer is the one for the default radius, and for no
    radius given; [move] treats an entity of radius 0 the same way. *)
Theorem zero_radius_is_default M mv w x y z dx dy :
  canOccupy mv w x y (Some 0%Q) z
    = checkPoints mv w (default 0%Q z) (testPoints x y (defaultRadius mv))
  ∧ canOccupy mv w x y (Some 0%Q) z
    = canOccupy mv w x y (Some (defaultRadius mv)) z
  ∧ canOccupy mv w x y (Some 0%Q) z = canOccupy mv w x y None z
  ∧ move M mv w {| x := x; y := y; radius := Some 0%Q; z := z |} dx dy
    = move M mv w {| x := x; y := y; radius := Some (defaultRadius mv); z := z |}
        dx dy
  ∧ defaultRadius (new defaultConfig) = (2 # 10)%Q.
Proof.
  assert (Hdr : orQ (Some (defaultRadius mv)) (defaultRadius mv) = defaultRadius mv).
  { unfold orQ. by destruct (Qeq_bool _ _). }
  split; [reflexivity|].
  split; [unfold canOccupy; by rewrite Hdr|].
  split; [reflexivity|].
  split; [|reflexivity].
  unfold move. cbn [radius]. by rewrite Hdr.
Qed.

(** The difference from a point test, on the corridor level: the centre
    (1.5, 1.1) lies on walkable floor, yet with radius 0 the position is
    refused, because the sample 0.2 above it lies in the wall row. *)
Lemma zero_radius_not_point_test :
  exists w,
    World.build corridorConfig corridorOps = Some w
    ∧ World.isWalkable w (15 # 10) (11 # 10) = Some true
    ∧ canOccupy solver w (15 # 10) (11 # 10) (Some 0%Q) (Some 0%Q) = Some false.
Proof.
  eexists. split; [vm_compute; reflexivity|].
  split; vm_compute; reflexivity.
Qed.

End ZeroRadius.

(** ** C3: a move of zero length *)

Section MoveZero.
Import Movement.
Context (M : MathLib).

(** [collided] is true only when the returned position is the start. *)
Lemma move_collided_still mv w e dx dy res :
  move M mv w e dx dy = Some res -> collided res = true ->
  (r_x res == x e)%Q ∧ (r_y res == y e)%Q.
Proof.
  unfold move.
  destruct (canOccupy mv w (x e + dx) (y e + dy) _ (z e)) as [[|]|];
    cbn [mbind option_bind]; [by intros [= <-]| |done].
  destruct (if Qneqb dx 0 then _ else Some false) as [okX|];
    cbn [mbind option_bind]; [|done].
  destruct (if Qneqb dy 0 then _ else Some false) as [okY|];
    cbn [mbind option_bind]; [|done].
  destruct (Qeq_bool (if okX then _ else _) (x e)
            && Qeq_bool (if okY then _ else _) (y e)
            && (Qneqb dx 0 || Qneqb dy 0)).
  - destruct (Qltb _ _).
    + destruct (microSteps _ _ _ _ _ _ _ _ _) as [[fx fy]|];
        cbn [mbind option_bind]; [|done].
      intros [= <-]. cbn [collided r_x r_y]. intros Hc.
      apply andb_true_iff in Hc as [Hx Hy].
      by apply Qeq_bool_iff in Hx, Hy.
    + cbn [mbind option_bind]. intros [= <-]. cbn [collided r_x r_y].
      intros Hc. apply negb_true_iff, orb_false_iff in Hc as [-> ->].
      split; reflexivity.
  - cbn [mbind option_bind]. intros [= <-]. cbn [collided r_x r_y].
    intros Hc. apply negb_true_iff, orb_false_iff in Hc as [-> ->].
    split; reflexivity.
Qed.

(** C3 (amended): on a world with its rows in place and its default key
    registered, [move(entity, 0, 0)] returns the entity's position and a
    zero slide; its [collided] flag is false exactly when the entity's
    current position can be occupied, and true when it cannot. For any
    displacement, [collided] is true only if the returned position is the
    start. *)
Theorem move_zero mv w e :
  rowsPresent w -> defaultRegistered w ->
  (exists occ res,
     canOccupy mv w (x e) (y e) (Some (orQ (radius e) (defaultRadius mv))) (z e)
       = Some occ
     ∧ move M mv w e 0 0 = Some res
     ∧ (r_x res == x e)%Q ∧ (r_y res == y e)%Q
     ∧ collided res = negb occ
     ∧ (slideX res == 0)%Q ∧ (slideY res == 0)%Q)
  ∧ (forall dx dy res, move M mv w e dx dy = Some res ->
       collided res = true -> (r_x res == x e)%Q ∧ (r_y res == y e)%Q).
Proof.
  intros Hrows Hreg. split; [|intros dx dy res; apply move_collided_still].
  destruct (canOccupy_total mv w (x e) (y e)
              (Some (orQ (radius e) (defaultRadius mv))) (z e) Hrows Hreg)
    as [occ Hocc].
  exists occ. unfold move.
  rewrite (canOccupy_Qeq mv w (x e + 0) (y e + 0) (x e) (y e)) by ring.
  rewrite Hocc. cbn [mbind option_bind]. destruct occ.
  - eexists. split; [done|]. split; [reflexivity|].
    cbn [r_x r_y collided slideX slideY]. repeat split; try ring. 
  - change (Qneqb 0 0) with false. cbv iota. cbn [mbind option_bind].
    cbv iota. rewrite !Qeq_bool_refl. cbn [orb andb negb].
    cbn [mbind option_bind].
    eexists. split; [done|]. split; [reflexivity|].
    cbn [r_x r_y collided slideX slideY]. repeat split; try ring.
Qed.

End MoveZero.

(** C3, as the claim states it, fails for an entity whose current position
    cannot be occupied: at (0.9, 0.5) on the floor cell next to the door,
    the entity's edge reaches into the wall cell, and [move(entity, 0, 0)]
    returns [collided = true]. *)
Lemma move_zero_collides_counterexample :
  exists w res,
    World.build doorConfig doorOps = Some w
    ∧ Movement.move taylorMath solver w (bodyAt (9 # 10) (5 # 10)) 0 0 = Some res
    ∧ Movement.collided res = true.
Proof.
  eexists _, _. split; [vm_compute; reflexivity|].
  split; vm_compute; reflexivity.
Qed.

Lemma move_zero_witness :
  exists w,
    World.build doorConfig doorOps = Some w
    ∧ exists occ res,
        Movement.canOccupy solver w (5 # 10) (5 # 10) (Some (2 # 10)%Q) (Some 0%Q)
          = Some occ
        ∧ Movement.move taylorMath solver w (bodyAt (5 # 10) (5 # 10)) 0 0
          = Some res
        ∧ (Movement.r_x res == 5 # 10)%Q ∧ (Movement.r_y res == 5 # 10)%Q
        ∧ Movement.collided res = negb occ
        ∧ (Movement.slideX res == 0)%Q ∧ (Movement.slideY res == 0)%Q.
Proof.
  eexists. split; [vm_compute; reflexivity|].
  apply (move_zero taylorMath solver _ (bodyAt (5 # 10) (5 # 10))).
  - split; [reflexivity|vm_compute; discriminate].
  - vm_compute. eauto.
Defined.

(** ** C8: the corridor *)

Section Corridor.
Import Movement.
Context (M : MathLib).

(** With its centre on the line [y = 1] between the wall row and the
    corridor row, a circle of radius 0.2 cannot be placed anywhere. *)
Lemma corridor_edge_blocked w px py :
  rowsPresent w -> defaultRegistered w -> corridor solver w ->
  (py == 1)%Q ->
  canOccupy solver w px py (Some (2 # 10)%Q) (Some 0%Q) = Some false.
Proof.
  intros Hrows Hreg [_ Hwall] Hpy. unfold canOccupy.
  change (orQ (Some (2 # 10)%Q) (defaultRadius solver)) with (2 # 10)%Q.
  unfold testPoints. cbn [checkPoints].
  destruct (getSector_Ret w px py Hrows Hreg) as [s ->].
  destruct (negb (World.walkable s)); [done|].
  destruct (Qltb _ _); [done|].
  destruct (Hwall (px - (2 # 10))%Q (py - (2 # 10))%Q) as (s' & -> & ->).
  { left. rewrite (Qfloor_comp _ (8 # 10)) by (rewrite Hpy; reflexivity).
    reflexivity. }
  done.
Qed.

Lemma microSteps_edge_blocked w stepX stepY n px py :
  rowsPresent w -> defaultRegistered w -> corridor solver w ->
  (py == 1)%Q -> (stepY == 0)%Q ->
  microSteps solver w (Some (2 # 10)%Q) (Some 0%Q) stepX stepY n px py
  = Some (px, py).
Proof.
  intros Hrows Hreg Hcor Hpy Hstep. destruct n as [|n]; [done|].
  assert (Hnext : (py + stepY == 1)%Q) by (rewrite Hpy, Hstep; reflexivity).
  cbn [microSteps].
  rewrite (corridor_edge_blocked w (px + stepX) (py + stepY)) by done.
  cbn [mbind option_bind].
  rewrite (corridor_edge_blocked w (px + stepX) py) by done.
  cbn [mbind option_bind].
  rewrite (corridor_edge_blocked w px (py + stepY)) by done.
  done.
Qed.

Lemma checkPoints_all_free mv w z pts :
  Forall (fun p => exists s, World.getSector w (fst p) (snd p) = Ret s
                     ∧ World.walkable s = true
                     ∧ (World.floor s - z <= maxStepHeight mv)%Q) pts ->
  checkPoints mv w z pts = Some true.
Proof.
  induction 1 as [|[px py] pts (s & Hs & Hw & Hf) _ IH]; [done|].
  cbn [checkPoints]. simpl in Hs. rewrite Hs, Hw. cbn [negb].
  apply Qltb_false in Hf. by rewrite Hf.
Qed.

(** On the corridor's centre line every sample of the circle at (2, 1.5)
    falls on the corridor's floor. *)
Lemma corridor_centre_free w :
  corridor solver w ->
  canOccupy solver w (1 + 1) ((3 # 2) + 0) (Some (2 # 10)%Q) (Some 0%Q)
  = Some true.
Proof.
  intros [Hfloor _]. unfold canOccupy.
  change (orQ (Some (2 # 10)%Q) (defaultRadius solver)) with (2 # 10)%Q.
  apply checkPoints_all_free. unfold testPoints.
  repeat (constructor;
    [cbn [fst snd];
     match goal with
     | |- exists s, World.getSector w ?px ?py = _ ∧ _ =>
         destruct (Hfloor px py) as (s & Hs & Hw & Hf);
           [vm_compute; reflexivity
           |vm_compute; split; discriminate
           |exists s; split; [done|]; split; [done|];
            change (default 0%Q (Some 0%Q)) with 0%Q; lra]
     end|]).
  constructor.
Qed.

(** C8 (amended): in a corridor one cell wide along the row [1 <= y < 2],
    with non-walkable rows above and below, an entity of radius 0.2 on
    the corridor's centre line at (1, 1.5) that moves by (1, 0) ends at
    (2, 1.5) with [collided = false] and a zero slide. At (1, 1), on the
    line between the corridor and the wall row, the same move is refused:
    the position is unchanged, [collided = true] and [slideX = -1]. *)
Theorem corridor_move w :
  rowsPresent w -> defaultRegistered w -> corridor solver w ->
  (exists res,
     move M solver w (bodyAt 1 (3 # 2)) 1 0 = Some res
     ∧ (r_x res == 2)%Q ∧ (r_y res == 3 # 2)%Q
     ∧ collided res = false
     ∧ (slideX res == 0)%Q ∧ (slideY res == 0)%Q)
  ∧ (exists res,
       move M solver w (bodyAt 1 1) 1 0 = Some res
       ∧ (r_x res == 1)%Q ∧ (r_y res == 1)%Q
       ∧ collided res = true
       ∧ (slideX res == -1)%Q ∧ (slideY res == 0)%Q).
Proof.
  intros Hrows Hreg Hcor. split.
  - unfold move, bodyAt. cbn [x y radius z].
    change (orQ (Some (2 # 10)%Q) (defaultRadius solver)) with (2 # 10)%Q.
    rewrite !corridor_centre_free by done. cbn [mbind option_bind].
    eexists. split; [reflexivity|]. cbn [r_x r_y collided slideX slideY].
    repeat split; reflexivity.
  - unfold move, bodyAt. cbn [x y radius z].
    change (orQ (Some (2 # 10)%Q) (defaultRadius solver)) with (2 # 10)%Q.
    rewrite !(corridor_edge_blocked w (1 + 1)) by (done || reflexivity).
    cbn [mbind option_bind].
    change (Qneqb 1 0) with true. change (Qneqb 0 0) with false. cbv iota.
    cbn [mbind option_bind]. cbv iota.
    change (Qeq_bool 1 1) with true. cbn [andb orb negb]. cbv iota.
    destruct (Qltb (collisionStep solver) (sqrt M (1 * 1 + 0 * 0))).
    + rewrite microSteps_edge_blocked; try done; [|reflexivity..].
      cbn [mbind option_bind]. change (Qeq_bool 1 1) with true. cbn [andb].
      eexists. split; [reflexivity|]. cbn [r_x r_y collided slideX slideY].
      repeat split; reflexivity.
    + cbn [mbind option_bind].
      eexists. split; [reflexivity|]. cbn [r_x r_y collided slideX slideY].
      repeat split; reflexivity.
Qed.

End Corridor.

(** C8, as the claim states it, fails: on the corridor level the entity at
    (1, 1) stays at (1, 1), with [collided = true] and [slideX = -1]. *)
Lemma corridor_move_counterexample :
  exists w res,
    World.build corridorConfig corridorOps = Some w
    ∧ Movement.move taylorMath solver w (bodyAt 1 1) 1 0 = Some res
    ∧ (Movement.r_x res == 1)%Q ∧ (Movement.r_y res == 1)%Q
    ∧ Movement.collided res = true
    ∧ (Movement.slideX res == -1)%Q ∧ (Movement.slideY res == 0)%Q.
Proof.
  eexists _, _. split; [vm_compute; reflexivity|].
  repeat split; vm_compute; reflexivity.
Qed.

Lemma corridor_level w :
  World.build corridorConfig corridorOps = Some w -> corridor solver w.
Proof.
  intros Hw. vm_compute in Hw. injection Hw as <-.
  split.
  - intros px py Hy Hx. unfold World.getSector, World.outOfBounds.
    rewrite Hy.
    assert (Hcases : Qfloor px = 0 ∨ Qfloor px = 1 ∨ Qfloor px = 2) by lia.
    destruct Hcases as [-> | [-> | ->]];
      (vm_compute; eexists;
       split; [reflexivity|split; [reflexivity|vm_compute; discriminate]]).
  - intros px py Hy. unfold World.getSector, World.outOfBounds.
    cbn [World.width World.height World.grid World.sectorTypes
         World.defaultSector].
    destruct ((Qfloor px <? 0) || (Qfloor px >=? 4)) eqn:Hout.
    + destruct Hy as [-> | ->]; cbn [orb];
        vm_compute; eexists; split; reflexivity.
    + assert (Hcases : Qfloor px = 0 ∨ Qfloor px = 1 ∨ Qfloor px = 2
                       ∨ Qfloor px = 3) by lia.
      destruct Hy as [-> | ->];
        destruct Hcases as [-> | [-> | [-> | ->]]];
        vm_compute; eexists; split; reflexivity.
Qed.

Lemma corridor_move_witness :
  exists w,
    World.build corridorConfig corridorOps = Some w
    ∧ (exists res,
         Movement.move taylorMath solver w (bodyAt 1 (3 # 2)) 1 0 = Some res
         ∧ (Movement.r_x res == 2)%Q ∧ (Movement.r_y res == 3 # 2)%Q
         ∧ Movement.collided res = false
         ∧ (Movement.slideX res == 0)%Q ∧ (Movement.slideY res == 0)%Q).
Proof.
  eexists. split; [vm_compute; reflexivity|].
  apply (corridor_move taylorMath).
  - split; [reflexivity|vm_compute; discriminate].
  - vm_compute. eauto.
  - apply corridor_level. vm_compute. reflexivity.
Defined.

(** ** Rounding to binary64 *)

Section Rounding.

(** [round64] sees the value of its argument, not how it is written. *)
Lemma round64_respectsEq : respectsEq round64.
Proof.
  intros a b Hab. unfold round64.
  by rewrite (Qred_complete a b Hab).
Qed.

End Rounding.

(** ** EntityManager: the spatial hash *)

Section SpatialHash.
Import EntityManager.
Context (fl : Q -> Q).

Lemma elem_of_setAdd l l' s : l' ∈ setAdd l s <-> l' ∈ s ∨ l' = l.
Proof.
  unfold setAdd. destruct (decide (l ∈ s)) as [Hin|Hin].
  - split; [by left|]. intros [?| ->]; done.
  - rewrite elem_of_app, list_elem_of_singleton. done.
Qed.

Lemma NoDup_setAdd l s : NoDup s -> NoDup (setAdd l s).
Proof.
  intros Hs. unfold setAdd. destruct (decide (l ∈ s)) as [Hin|Hin]; [done|].
  apply NoDup_app. split; [done|]. split; [|apply NoDup_singleton].
  intros x Hx Hx'. apply list_elem_of_singleton in Hx'. by subst.
Qed.

Lemma elem_of_setDelete l l' s : l' ∈ setDelete l s <-> l' ∈ s ∧ l' ≠ l.
Proof. unfold setDelete. rewrite list_elem_of_filter. tauto. Qed.

Lemma NoDup_setDelete l s : NoDup s -> NoDup (setDelete l s).
Proof. apply NoDup_filter. Qed.

Lemma bucket_addToSpatialHash h m l key :
  bucket (_addToSpatialHash fl h m l) key
  = if decide (_getCellKey fl m (Entity.x (h l)) (Entity.y (h l)) = key)
    then setAdd l (bucket m key) else bucket m key.
Proof.
  unfold bucket, _addToSpatialHash, withHash. cbn [spatialHash].
  destruct (decide _) as [<-|Hne].
  - by rewrite lookup_insert_eq.
  - by rewrite lookup_insert_ne.
Qed.

Lemma bucket_add h m l key :
  bucket (add fl h m l) key
  = if decide (_getCellKey fl m (Entity.x (h l)) (Entity.y (h l)) = key)
    then setAdd l (bucket m key) else bucket m key.
Proof. unfold add. by rewrite bucket_addToSpatialHash. Qed.

(** The bucket under [key'] once [l] is dropped from the one under
    [key]; an emptied bucket is deleted, and holds nothing either way. *)
Lemma bucket_dropFromCell m key l key' :
  bucket (withHash m (dropFromCell key l (spatialHash m))) key'
  = if decide (key = key') then setDelete l (bucket m key') else bucket m key'.
Proof.
  unfold bucket, withHash, dropFromCell. cbn [spatialHash].
  destruct (spatialHash m !! key) as [cell|] eqn:Hcell.
  - cbv zeta. destruct (decide (setDelete l cell = [])) as [He|He].
    + destruct (decide (key = key')) as [<-|Hne].
      * rewrite lookup_delete_eq, Hcell. simpl. by rewrite He.
      * by rewrite lookup_delete_ne.
    + destruct (decide (key = key')) as [<-|Hne].
      * by rewrite lookup_insert_eq, Hcell.
      * by rewrite lookup_insert_ne.
  - destruct (decide (key = key')) as [<-|Hne]; [|done].
    by rewrite Hcell.
Qed.

Lemma add_cellSize h m l : cellSize (add fl h m l) = cellSize m.
Proof. done. Qed.

Lemma add_indexed h m P l :
  indexed fl h m P -> indexed fl h (add fl h m l) (fun l' => P l' ∨ l' = l).
Proof.
  intros [Hcs Hidx]. split; [done|].
  intros key. rewrite bucket_add.
  destruct (Hidx key) as [Hnd Hmem].
  assert (Hkey : forall l',
            _getCellKey fl (add fl h m l) (Entity.x (h l')) (Entity.y (h l'))
            = _getCellKey fl m (Entity.x (h l')) (Entity.y (h l')))
    by done.
  destruct (decide _) as [Heq|Hne].
  - split; [by apply NoDup_setAdd|].
    intros l'. rewrite elem_of_setAdd, Hmem, Hkey.
    split; [|tauto]. intros [[? ?]| ->]; auto.
  - split; [done|]. intros l'. rewrite Hmem, Hkey.
    split; [tauto|]. intros [[?| ->] ?]; [done|]. by destruct Hne.
Qed.

Lemma new_indexed h : indexed fl h new (fun _ => False).
Proof.
  split; [reflexivity|]. intros key. unfold bucket. cbn [new spatialHash].
  rewrite lookup_empty. simpl. split; [constructor|].
  intros l. split; [by intros ?%not_elem_of_nil|tauto].
Qed.

Lemma indexed_ext h m (P Q : Ref -> Prop) :
  (forall l, P l <-> Q l) -> indexed fl h m P -> indexed fl h m Q.
Proof.
  intros HPQ [Hcs Hidx]. split; [done|]. intros key.
  destruct (Hidx key) as [Hnd Hmem]. split; [done|].
  intros l. by rewrite Hmem, HPQ.
Qed.

(** The index reads the store for bucket keys only. *)
Lemma indexed_store h h' m P :
  (forall l, _getCellKey fl m (Entity.x (h' l)) (Entity.y (h' l))
             = _getCellKey fl m (Entity.x (h l)) (Entity.y (h l))) ->
  indexed fl h m P -> indexed fl h' m P.
Proof.
  intros Hkey [Hcs Hidx]. split; [done|]. intros key.
  destruct (Hidx key) as [Hnd Hmem]. split; [done|].
  intros l. by rewrite Hmem, Hkey.
Qed.

Lemma foldl_add_indexed h ls m P :
  indexed fl h m P ->
  indexed fl h (foldl (add fl h) m ls) (fun l => P l ∨ l ∈ ls).
Proof.
  revert m P. induction ls as [|l ls IH]; intros m P Hidx; simpl.
  - eapply indexed_ext; [|exact Hidx]. intros l.
    split; [by left|]. intros [?|?%not_elem_of_nil]; done.
  - eapply indexed_ext; [|apply IH, add_indexed, Hidx].
    intros l'. cbn beta. rewrite elem_of_cons. tauto.
Qed.

(** After [addAll], the hash files exactly the objects added. *)
Lemma addAll_indexed h ls : indexed fl h (addAll fl h ls) (fun l => l ∈ ls).
Proof.
  eapply indexed_ext; [|apply foldl_add_indexed, new_indexed].
  intros l. cbn beta. tauto.
Qed.

(** Dropping [l] from the bucket of its position takes it out of the
    index and leaves the other entities filed as they were. *)
Lemma drop_indexed h m P l :
  indexed fl h m P ->
  indexed fl h
    (withHash m (dropFromCell
                   (_getCellKey fl m (Entity.x (h l)) (Entity.y (h l))) l
                   (spatialHash m)))
    (fun l' => P l' ∧ l' ≠ l).
Proof.
  intros [Hcs Hidx]. split; [done|]. intros key.
  rewrite bucket_dropFromCell. destruct (Hidx key) as [Hnd Hmem].
  change (_getCellKey fl (withHash m _)) with (_getCellKey fl m).
  destruct (decide _) as [Heq|Hne].
  - split; [by apply NoDup_setDelete|].
    intros l'. rewrite elem_of_setDelete, Hmem. tauto.
  - split; [done|]. intros l'. rewrite Hmem. split; [|tauto].
    intros [HP Hk]. split; [|done]. split; [done|]. intros ->. by apply Hne.
Qed.

(** An entity filed under the key of its old position is filed under the
    key of its new one once [_updateSpatialHash] has run. *)
Lemma updateSpatialHash_indexed h h' m P l :
  indexed fl h m P -> P l ->
  (forall l', l' ≠ l -> h' l' = h l') ->
  indexed fl h' (_updateSpatialHash fl h' m l (Entity.x (h l)) (Entity.y (h l))) P.
Proof.
  intros Hidx HP Hother. unfold _updateSpatialHash. cbv zeta.
  set (oldKey := _getCellKey fl m (Entity.x (h l)) (Entity.y (h l))).
  set (newKey := _getCellKey fl m (Entity.x (h' l)) (Entity.y (h' l))).
  destruct (decide (oldKey = newKey)) as [Heq|Hne].
  - apply (indexed_store h); [|done].
    intros l'. destruct (decide (l' = l)) as [->|Hl]; [done|].
    by rewrite Hother.
  - destruct Hidx as [Hcs Hidx]. split; [done|]. intros key.
    rewrite bucket_addToSpatialHash, bucket_dropFromCell.
    change (_getCellKey fl (_addToSpatialHash fl h' (withHash m _) l))
      with (_getCellKey fl m).
    change (_getCellKey fl (withHash m _)) with (_getCellKey fl m).
    fold newKey. destruct (Hidx key) as [Hnd Hmem].
    assert (Hk : forall l', l' ≠ l ->
              _getCellKey fl m (Entity.x (h' l')) (Entity.y (h' l'))
              = _getCellKey fl m (Entity.x (h l')) (Entity.y (h l'))).
    { intros l' Hl. by rewrite Hother. }
    destruct (decide (newKey = key)) as [Hn|Hn];
      destruct (decide (oldKey = key)) as [Ho|Ho].
    + exfalso. apply Hne. congruence.
    + split; [by apply NoDup_setAdd|].
      intros l'. rewrite elem_of_setAdd, Hmem.
      destruct (decide (l' = l)) as [->|Hl]; [tauto|].
      rewrite (Hk l' Hl). tauto.
    + split; [by apply NoDup_setDelete|].
      intros l'. rewrite elem_of_setDelete, Hmem.
      destruct (decide (l' = l)) as [->|Hl].
      * split; [tauto|]. intros [_ Hkey]. by destruct Hn.
      * rewrite (Hk l' Hl). tauto.
    + split; [done|]. intros l'. rewrite Hmem.
      destruct (decide (l' = l)) as [->|Hl].
      * split; intros [_ Hkey]; [by destruct Ho|by destruct Hn].
      * by rewrite (Hk l' Hl).
Qed.

End SpatialHash.

(** ** C4: [getNear] *)

Section GetNear.
Import EntityManager.
Context (fl : Q -> Q).

Lemma scanCell_bucket h m x y radius key acc :
  match spatialHash m !! key with
  | None => acc
  | Some cell => scanCell fl h x y radius cell acc
  end = foldl (scanEntity fl h x y radius) acc (bucket m key).
Proof. unfold bucket, scanCell. by destruct (spatialHash m !! key). Qed.

Lemma getNear_scanList h m x y radius :
  getNear fl h m x y radius
  = snd (foldl (scanEntity fl h x y radius) (∅, []) (scanList fl m x y radius)).
Proof.
  unfold getNear, scanList, scanKeys. cbv zeta. f_equal.
  generalize (seqZ (Qfloor (fl (fl (y - radius) / cellSize m)))
                   (Qfloor (fl (fl (y + radius) / cellSize m))
                    - Qfloor (fl (fl (y - radius) / cellSize m)) + 1)).
  generalize (seqZ (Qfloor (fl (fl (x - radius) / cellSize m)))
                   (Qfloor (fl (fl (x + radius) / cellSize m))
                    - Qfloor (fl (fl (x - radius) / cellSize m)) + 1)).
  intros xs ys. generalize (∅ : gset Z, [] : list Ref).
  induction ys as [|cy ys IHy]; intros acc; [done|].
  cbn [foldl]. rewrite IHy. csimpl. rewrite bind_app, foldl_app. f_equal.
  clear IHy. revert acc.
  induction xs as [|cx xs IHx]; intros acc; [done|].
  cbn [foldl]. rewrite IHx. csimpl. rewrite foldl_app. f_equal.
  apply scanCell_bucket.
Qed.

(** Scanning entities with pairwise distinct, not yet seen ids keeps
    exactly the ones that pass the test, in order. *)
Lemma scan_spec h x y radius L checked results :
  (forall l, l ∈ L -> Entity.id (h l) ∉ checked) ->
  NoDup ((fun l => Entity.id (h l)) <$> L) ->
  snd (foldl (scanEntity fl h x y radius) (checked, results) L)
  = results ++ filter (fun l => within fl h x y radius l = true) L.
Proof.
  revert checked results.
  induction L as [|l L IH]; intros checked results Hfresh Hnd.
  - simpl. by rewrite app_nil_r.
  - cbn [foldl]. unfold scanEntity at 2.
    destruct (decide (Entity.id (h l) ∈ checked)) as [Hin|_].
    { exfalso. eapply Hfresh; [by left|done]. }
    rewrite fmap_cons in Hnd. apply NoDup_cons in Hnd as [Hl Hnd].
    assert (Hfresh' : forall l', l' ∈ L ->
              Entity.id (h l') ∉ {[Entity.id (h l)]} ∪ checked).
    { intros l' Hl' [Heq%elem_of_singleton|Hc]%elem_of_union.
      - apply Hl. rewrite <- Heq. apply list_elem_of_fmap. by exists l'.
      - eapply Hfresh; [by right|done]. }
    rewrite filter_cons.
    destruct (within fl h x y radius l) eqn:Hw.
    + rewrite IH by done. destruct (decide _); [|done].
      by rewrite <- app_assoc.
    + rewrite IH by done. by destruct (decide _).
Qed.

(** Whatever the ids, a scan returns entities of the list only. *)
Lemma scan_subset h x y radius L acc l :
  l ∈ snd (foldl (scanEntity fl h x y radius) acc L) -> l ∈ snd acc ∨ l ∈ L.
Proof.
  revert acc. induction L as [|l0 L IH]; intros acc; [by left|].
  cbn [foldl]. intros Hl. apply IH in Hl as [Hl|Hl]; [|right; by right].
  destruct acc as [checked results]. unfold scanEntity in Hl.
  destruct (decide _); [by left|].
  destruct (within fl h x y radius l0); [|by left]. cbn [snd] in Hl.
  apply elem_of_app in Hl as [Hl|Hl%list_elem_of_singleton]; [by left|].
  right. subst. by left.
Qed.

Lemma elem_of_scanKeys m x y radius cx cy :
  (cx, cy) ∈ scanKeys fl m x y radius <->
  Qfloor (fl (fl (x - radius) / cellSize m)) <= cx
    <= Qfloor (fl (fl (x + radius) / cellSize m))
  ∧ Qfloor (fl (fl (y - radius) / cellSize m)) <= cy
    <= Qfloor (fl (fl (y + radius) / cellSize m)).
Proof.
  unfold scanKeys. cbv zeta. rewrite list_elem_of_bind. split.
  - intros (cy' & Hin & Hcy). apply list_elem_of_bind in Hin as (cx' & Hin & Hcx).
    apply list_elem_of_singleton in Hin. injection Hin as ? ?. subst cx' cy'.
    apply elem_of_seqZ in Hcx, Hcy. lia.
  - intros [Hx Hy]. exists cy. split; [|apply elem_of_seqZ; lia].
    apply list_elem_of_bind. exists cx.
    split; [by apply list_elem_of_singleton|apply elem_of_seqZ; lia].
Qed.

Lemma NoDup_scanKeys m x y radius : NoDup (scanKeys fl m x y radius).
Proof.
  unfold scanKeys. cbv zeta. apply NoDup_bind; [| |apply NoDup_seqZ].
  - intros cy1 cy2 [cx cy] _ _ H1 H2.
    apply list_elem_of_bind in H1 as (? & H1%list_elem_of_singleton & _).
    apply list_elem_of_bind in H2 as (? & H2%list_elem_of_singleton & _).
    congruence.
  - intros cy _. apply NoDup_bind; [| |apply NoDup_seqZ].
    + intros cx1 cx2 k _ _ H1%list_elem_of_singleton H2%list_elem_of_singleton.
      congruence.
    + intros cx _. apply NoDup_singleton.
Qed.

Lemma elem_of_scanList h m P x y radius l :
  indexed fl h m P ->
  l ∈ scanList fl m x y radius <->
  P l ∧ _getCellKey fl m (Entity.x (h l)) (Entity.y (h l))
        ∈ scanKeys fl m x y radius.
Proof.
  intros [_ Hidx]. unfold scanList. rewrite list_elem_of_bind. split.
  - intros (key & Hl & Hkey). apply (Hidx key) in Hl as [HP <-]. done.
  - intros [HP Hkey]. eexists. split; [|exact Hkey]. by apply Hidx.
Qed.

Lemma NoDup_scanList h m P x y radius :
  indexed fl h m P -> NoDup (scanList fl m x y radius).
Proof.
  intros [_ Hidx]. unfold scanList.
  apply NoDup_bind; [| |apply NoDup_scanKeys].
  - intros k1 k2 l _ _ H1 H2.
    apply (Hidx k1) in H1 as [_ <-]. by apply (Hidx k2) in H2 as [_ <-].
  - intros key _. apply Hidx.
Qed.

(** [getNear] on an index that files the entities [P], whose ids are
    pairwise distinct: the result has no duplicates and holds the
    entities of [P] that pass the test in a visited bucket. *)
Lemma getNear_indexed h m P x y radius :
  indexed fl h m P ->
  (forall l l', P l -> P l' -> Entity.id (h l) = Entity.id (h l') -> l = l') ->
  NoDup (getNear fl h m x y radius)
  ∧ forall l, l ∈ getNear fl h m x y radius <->
      P l ∧ passes fl h m x y radius l.
Proof.
  intros Hidx Hids.
  pose proof (NoDup_scanList h m P x y radius Hidx) as HndL.
  rewrite getNear_scanList, scan_spec; cbn [app].
  - split; [by apply NoDup_filter|].
    intros l. rewrite list_elem_of_filter.
    rewrite (elem_of_scanList h m P) by done.
    unfold passes. tauto.
  - intros l _. apply not_elem_of_empty.
  - apply NoDup_fmap_2_strong; [|done].
    intros l l' Hl Hl' Hid.
    apply (elem_of_scanList h m P) in Hl as [Hl _]; [|done].
    apply (elem_of_scanList h m P) in Hl' as [Hl' _]; [|done].
    by apply Hids.
Qed.

(** Whatever the ids, [getNear] returns filed entities only. *)
Lemma getNear_filed h m P x y radius l :
  indexed fl h m P -> l ∈ getNear fl h m x y radius -> P l.
Proof.
  intros Hidx. rewrite getNear_scanList. intros Hl.
  apply scan_subset in Hl as [Hl|Hl]; [by apply not_elem_of_nil in Hl|].
  by apply (elem_of_scanList h m P) in Hl as [Hl _].
Qed.

Lemma sq_le_abs (a b r : Q) :
  (0 <= r)%Q -> (a * a + b * b <= r * r)%Q -> (- r <= a)%Q ∧ (a <= r)%Q.
Proof.
  intros Hr H.
  assert (Hb : (0 <= b * b)%Q) by nra.
  split.
  - destruct (Qlt_le_dec a (- r)) as [Hlt|Hle]; [|exact Hle].
    exfalso. assert ((r * r < a * a)%Q) by nra. lra.
  - destruct (Qlt_le_dec r a) as [Hlt|Hle]; [|exact Hle].
    exfalso. assert ((r * r < a * a)%Q) by nra. lra.
Qed.

(** Where nothing rounds, the test of the code is the comparison of the
    squared distance with the squared radius. *)
Lemma within_exact h m x y radius l :
  exactQuery fl m x y radius -> exactFor fl h m x y l ->
  within fl h x y radius l = true <-> (distSq h x y l <= radius * radius)%Q.
Proof.
  intros (Hr & _) (Hdx & Hdy & Hsum & _). unfold within, distSq. cbv zeta.
  rewrite Qle_bool_iff, Hsum, Hr, Hdx, Hdy. done.
Qed.

(** Where nothing rounds, an entity within [radius] of the point lies in
    one of the visited buckets. *)
Lemma within_scanKeys h m x y radius l :
  exactQuery fl m x y radius -> exactFor fl h m x y l ->
  (0 < cellSize m)%Q -> (0 <= radius)%Q ->
  (distSq h x y l <= radius * radius)%Q ->
  _getCellKey fl m (Entity.x (h l)) (Entity.y (h l)) ∈ scanKeys fl m x y radius.
Proof.
  intros (_ & Hx1 & Hx2 & Hy1 & Hy2) (_ & _ & _ & Hkx & Hky) Hcs Hr Hd.
  unfold _getCellKey. apply elem_of_scanKeys.
  rewrite (Qfloor_comp _ _ Hx1), (Qfloor_comp _ _ Hx2),
    (Qfloor_comp _ _ Hy1), (Qfloor_comp _ _ Hy2),
    (Qfloor_comp _ _ Hkx), (Qfloor_comp _ _ Hky).
  unfold distSq in Hd.
  set (ex := Entity.x (h l)) in *. set (ey := Entity.y (h l)) in *.
  destruct (sq_le_abs (ex - x) (ey - y) radius Hr Hd) as [Hxa Hxb].
  assert (Hd' : ((ey - y) * (ey - y) + (ex - x) * (ex - x)
                 <= radius * radius)%Q) by lra.
  destruct (sq_le_abs (ey - y) (ex - x) radius Hr Hd') as [Hya Hyb].
  assert (Hx : (x - radius <= ex)%Q ∧ (ex <= x + radius)%Q) by (split; lra).
  assert (Hy : (y - radius <= ey)%Q ∧ (ey <= y + radius)%Q) by (split; lra).
  assert (Hinv : (0 <= / cellSize m)%Q) by (apply Qlt_le_weak, Qinv_lt_0_compat, Hcs).
  split; split; apply Qfloor_resp_le; unfold Qdiv;
    apply Qmult_le_compat_r; tauto.
Qed.

(** C4 (amended): for entities with pairwise distinct ids registered with
    [add] and left where they were when added, [getNear(x, y, radius)]
    returns, without duplicates, exactly the registered entities that
    pass the test [dx * dx + dy * dy <= radius * radius] as the code
    computes it, every operation rounded, and that are filed in a bucket
    of the range the query visits. Where none of these operations rounds
    and the radius is not negative, these are exactly the registered
    entities whose distance to [(x, y)] is at most [radius], the boundary
    included, whichever bucket they are filed in. *)
Theorem getNear_exact h ls x y radius :
  (forall l l', l ∈ ls -> l' ∈ ls ->
     Entity.id (h l) = Entity.id (h l') -> l = l') ->
  NoDup (getNear fl h (addAll fl h ls) x y radius)
  ∧ (forall l, l ∈ getNear fl h (addAll fl h ls) x y radius <->
       l ∈ ls ∧ passes fl h (addAll fl h ls) x y radius l)
  ∧ (exactQuery fl (addAll fl h ls) x y radius ->
     (forall l, l ∈ ls -> exactFor fl h (addAll fl h ls) x y l) ->
     (0 <= radius)%Q ->
     forall l, l ∈ getNear fl h (addAll fl h ls) x y radius <->
       l ∈ ls ∧ (distSq h x y l <= radius * radius)%Q).
Proof.
  intros Hids.
  pose proof (addAll_indexed fl h ls) as Hidx.
  destruct (getNear_indexed h (addAll fl h ls) (fun l => l ∈ ls) x y radius
              Hidx Hids) as [Hnd Hmem].
  split; [done|]. split; [done|].
  intros Hq Hls Hr l. rewrite Hmem. unfold passes. split.
  - intros (Hl & Hw & _). split; [done|].
    by apply (within_exact h (addAll fl h ls)); auto.
  - intros [Hl Hd]. split; [done|]. split.
    + by apply (within_exact h (addAll fl h ls)); auto.
    + destruct Hidx as [Hcs _]. apply (within_scanKeys h); auto.
Qed.

End GetNear.

(** C4, as the claim states it, fails in four ways. An entity at a
    distance of exactly [radius] is returned, so the bound is not strict.
    With a negative radius an entity at the query point can still be
    returned. An entity whose position the application has written since
    it was added is looked for in its old bucket only: moved to (10, 10),
    it is not found there. And the test compares rounded numbers: the
    entity at (1, 2^-27) is returned for the radius 1 around the origin,
    further away than 1 as it is, because [1 + 2^-54] rounds to 1. *)
Lemma getNear_counterexample :
  (0%nat ∈ EntityManager.getNear round64 threeEntities
             (EntityManager.addAll round64 threeEntities [0; 1; 2]%nat) 0 0 3
   ∧ ~ (distSq threeEntities 0 0 0%nat < 3 * 3)%Q)
  ∧ (2%nat ∈ EntityManager.getNear round64 threeEntities
               (EntityManager.addAll round64 threeEntities [0; 1; 2]%nat)
               1 1 (- (1 # 2))
     ∧ (- (1 # 2) < 0)%Q)
  ∧ (EntityManager.getNear round64 firstMoved
       (EntityManager.addAll round64 threeEntities [0; 1; 2]%nat) 10 10 1 = []
     ∧ EntityManager.get
         (EntityManager.addAll round64 threeEntities [0; 1; 2]%nat) 1
       = Some 0%nat
     ∧ (distSq firstMoved 10 10 0%nat < 1 * 1)%Q)
  ∧ (EntityManager.getNear round64 grazing
       (EntityManager.addAll round64 grazing [0%nat]) 0 0 1 = [0%nat]
     ∧ (1 * 1 < distSq grazing 0 0 0%nat)%Q).
Proof.
  split; [|split; [|split]].
  - split; [apply (bool_decide_unpack _); vm_compute; exact I|].
    vm_compute. discriminate.
  - split; [apply (bool_decide_unpack _); vm_compute; exact I|reflexivity].
  - split; [vm_compute; reflexivity|]. split; reflexivity.
  - split; [vm_compute; reflexivity|reflexivity].
Qed.

Lemma getNear_exact_witness :
  NoDup (EntityManager.getNear round64 threeEntities
           (EntityManager.addAll round64 threeEntities [0; 1; 2]%nat) 4 0 2)
  ∧ forall l,
      l ∈ EntityManager.getNear round64 threeEntities
            (EntityManager.addAll round64 threeEntities [0; 1; 2]%nat) 4 0 2 <->
      l ∈ [0; 1; 2]%nat ∧ (distSq threeEntities 4 0 l <= 2 * 2)%Q.
Proof.
  destruct (getNear_exact round64 threeEntities [0; 1; 2]%nat 4 0 2)
    as (Hnd & _ & Hexact).
  - intros l l' Hl Hl' Hid.
    repeat (apply elem_of_cons in Hl as [->|Hl]);
      try (by apply not_elem_of_nil in Hl);
      repeat (apply elem_of_cons in Hl' as [->|Hl']);
      try (by apply not_elem_of_nil in Hl');
      try reflexivity; vm_compute in Hid; discriminate.
  - split; [exact Hnd|]. apply Hexact.
    + vm_compute. auto.
    + intros l Hl.
      repeat (apply elem_of_cons in Hl as [->|Hl]; [vm_compute; auto 10|]).
      by apply not_elem_of_nil in Hl.
    + vm_compute. discriminate.
Defined.

(** The two entities in range of (4, 0) lie in different buckets. *)
Lemma getNear_across_buckets :
  EntityManager.getNear round64 threeEntities
    (EntityManager.addAll round64 threeEntities [0; 1; 2]%nat) 4 0 2
  = [0; 1]%nat
  ∧ EntityManager._getCellKey round64 EntityManager.new 3 0 = (0, 0)
  ∧ EntityManager._getCellKey round64 EntityManager.new 5 1 = (1, 0).
Proof. split; [|split]; vm_compute; reflexivity. Qed.

(** Rounding works the other way too: an entity closer to the origin
    than the radius, by a margin the rounded sum of squares loses, is not
    returned. *)
Lemma getNear_rounds_away :
  EntityManager.getNear round64 shy
    (EntityManager.addAll round64 shy [0%nat]) 0 0 shyRadius = []
  ∧ (distSq shy 0 0 0%nat < shyRadius * shyRadius)%Q.
Proof. split; [vm_compute; reflexivity|reflexivity]. Qed.
(** ** EntityManager: the by-id map *)

Section ById.
Import EntityManager.
Context (fl : Q -> Q).

Lemma filter_ext_in {A} (P1 P2 : A -> Prop)
    `{!forall x, Decision (P1 x), !forall x, Decision (P2 x)} (l : list A) :
  (forall x, x ∈ l -> P1 x <-> P2 x) -> filter P1 l = filter P2 l.
Proof.
  induction l as [|a l IH]; intros Hext; [done|].
  rewrite !filter_cons.
  rewrite IH by (intros x Hx; apply Hext; by right).
  destruct (decide (P1 a)) as [H1|H1], (decide (P2 a)) as [H2|H2]; try done.
  - destruct H2. apply Hext; [by left|done].
  - destruct H1. apply Hext; [by left|done].
Qed.

Lemma filter_all_in {A} (P : A -> Prop) `{!forall x, Decision (P x)}
    (l : list A) :
  (forall x, x ∈ l -> P x) -> filter P l = l.
Proof.
  induction l as [|a l IH]; intros Hall; [done|].
  rewrite filter_cons. destruct (decide (P a)) as [_|Hn].
  - f_equal. apply IH. intros x Hx. apply Hall. by right.
  - destruct Hn. apply Hall. by left.
Qed.

Lemma sublist_fmap_fst (L1 L2 : list (Z * Ref)) :
  sublist L1 L2 -> sublist (fst <$> L1) (fst <$> L2).
Proof. induction 1; csimpl; by constructor. Qed.

Lemma mapGet_Some k v (L : list (Z * Ref)) :
  mapGet k L = Some v -> (k, v) ∈ L.
Proof.
  induction L as [|[k' v'] L IH]; simpl; [done|].
  destruct (decide (k' = k)) as [->|Hne].
  - intros [= ->]. by left.
  - intros H. right. by apply IH.
Qed.

Lemma mapGet_None k (L : list (Z * Ref)) :
  mapGet k L = None -> forall v, (k, v) ∉ L.
Proof.
  induction L as [|[k' v'] L IH]; simpl; intros H v Hin.
  - by apply not_elem_of_nil in Hin.
  - destruct (decide (k' = k)) as [->|Hne]; [done|].
    apply elem_of_cons in Hin as [[= ? ?]|Hin]; [by subst|].
    by eapply IH.
Qed.

Lemma unique_value (L : list (Z * Ref)) k a b :
  NoDup (fst <$> L) -> (k, a) ∈ L -> (k, b) ∈ L -> a = b.
Proof.
  induction L as [|[k' v'] L IH]; intros Hnd Ha Hb.
  - by apply not_elem_of_nil in Ha.
  - rewrite fmap_cons in Hnd. apply NoDup_cons in Hnd as [Hk Hnd].
    apply elem_of_cons in Ha as [Ha|Ha];
      apply elem_of_cons in Hb as [Hb|Hb].
    + congruence.
    + injection Ha as -> ->. destruct Hk.
      apply list_elem_of_fmap. by exists (k', b).
    + injection Hb as -> ->. destruct Hk.
      apply list_elem_of_fmap. by exists (k', a).
    + by apply IH.
Qed.

Lemma mapGet_elem (L : list (Z * Ref)) k v :
  NoDup (fst <$> L) -> (k, v) ∈ L -> mapGet k L = Some v.
Proof.
  intros Hnd Hin. destruct (mapGet k L) as [v'|] eqn:Hget.
  - apply mapGet_Some in Hget. f_equal. by eapply unique_value.
  - by eapply mapGet_None in Hget.
Qed.

Lemma fst_mapSet k v (L : list (Z * Ref)) :
  NoDup (fst <$> L) -> NoDup (fst <$> mapSet k v L)
  ∧ forall i l, (i, l) ∈ mapSet k v L -> (i, l) = (k, v) ∨ (i, l) ∈ L.
Proof.
  induction L as [|[k' v'] L IH]; simpl; intros Hnd.
  - split; [apply NoDup_singleton|].
    intros i l ?%list_elem_of_singleton. by left.
  - apply NoDup_cons in Hnd as [Hk Hnd].
    destruct (decide (k' = k)) as [->|Hne].
    + split; [by apply NoDup_cons|].
      intros i l [?|?]%elem_of_cons; [by left|]. right. by right.
    + destruct (IH Hnd) as [IHnd IHin].
      split.
      * rewrite fmap_cons. apply NoDup_cons. split; [|done].
        intros (il & Hfst & Hin)%list_elem_of_fmap. destruct il as [i l].
        simpl in Hfst. subst i.
        destruct (IHin _ _ Hin) as [[= ? ?]|Hin']; [done|].
        apply Hk. apply list_elem_of_fmap. by exists (k', l).
      * intros i l [[= -> ->]|Hin]%elem_of_cons; [right; by left|].
        destruct (IHin _ _ Hin) as [?|?]; [by left|right; by right].
Qed.

Lemma add_registered h m l :
  registered h m -> registered h (add fl h m l).
Proof.
  intros [Hnd Hid]. unfold registered, add, _addToSpatialHash, withHash.
  cbn [entities].
  destruct (fst_mapSet (Entity.id (h l)) l (entities m) Hnd) as [Hnd' Hin'].
  split; [done|]. intros i l' Hin.
  destruct (Hin' _ _ Hin) as [[= -> ->]|?]; [done|by apply Hid].
Qed.

Lemma addAll_registered h ls : registered h (addAll fl h ls).
Proof.
  unfold addAll.
  assert (Hnew : registered h new).
  { split; [constructor|]. intros i l Hin. by apply not_elem_of_nil in Hin. }
  revert Hnew. generalize new. induction ls as [|l ls IH]; intros m Hm; [done|].
  simpl. by apply IH, add_registered.
Qed.

End ById.


(** ** C5: marking, and the two passes of [update] *)

Section DeferredRemoval.
Import EntityManager.
Context (fl : Q -> Q).

Lemma getNear_store_ext h1 h2 m x y radius :
  sameIndexData h1 h2 ->
  getNear fl h1 m x y radius = getNear fl h2 m x y radius.
Proof.
  intros Hsame. rewrite !getNear_scanList. f_equal.
  generalize (∅ : gset Z, [] : list Ref).
  induction (scanList fl m x y radius) as [|l L IH]; intros acc; [done|].
  cbn [foldl]. rewrite <- IH. f_equal.
  destruct acc as [checked results]. unfold scanEntity, within.
  destruct (Hsame l) as (-> & -> & ->). done.
Qed.

Lemma mark_sameIndexData h l : sameIndexData (mark h l) h.
Proof.
  intros l'. unfold mark, storeSet. by destruct (decide (l' = l)) as [->|].
Qed.

Lemma update_sameFlags dt h l :
  sameFlags (storeSet h l (Entity.update fl dt (h l))) h.
Proof.
  intros l'. unfold storeSet. destruct (decide (l' = l)) as [->|]; [|done].
  unfold Entity.update. by destruct (_ || _).
Qed.

Lemma elem_of_getAll m l : l ∈ getAll m <-> exists i, (i, l) ∈ entities m.
Proof.
  unfold getAll. change (map snd (entities m)) with (snd <$> entities m).
  rewrite list_elem_of_fmap. split.
  - intros ([i l'] & -> & Hin). by exists i.
  - intros [i Hin]. by exists (i, l).
Qed.

Lemma registered_sameFlags h h' m :
  sameFlags h' h -> registered h m -> registered h' m.
Proof.
  intros Hf [Hnd Hid]. split; [done|]. intros i l Hin.
  destruct (Hf l) as [_ ->]. by apply Hid.
Qed.

(** Registered entities with the same id are the same object. *)
Lemma registered_inj h m l l' :
  registered h m -> l ∈ getAll m -> l' ∈ getAll m ->
  Entity.id (h l) = Entity.id (h l') -> l = l'.
Proof.
  intros [Hnd Hid] [i Hi]%elem_of_getAll [i' Hi']%elem_of_getAll Heq.
  rewrite (Hid _ _ Hi), (Hid _ _ Hi') in Heq. subst i'.
  by eapply unique_value.
Qed.

(** One step of the first pass: the by-id map and the flags stay, and the
    entity is filed under the key of wherever it now is. *)
Lemma advanceStep_inv dt h m P l :
  respectsEq fl -> indexed fl h m P -> P l ->
  entities (snd (advanceStep fl dt (h, m) l)) = entities m
  ∧ sameFlags (fst (advanceStep fl dt (h, m) l)) h
  ∧ indexed fl (fst (advanceStep fl dt (h, m) l))
      (snd (advanceStep fl dt (h, m) l)) P.
Proof.
  intros Hfl Hidx HP. unfold advanceStep.
  destruct (negb (Entity.active (h l)));
    [split; [done|split; [by intros ?|done]]|]. cbv zeta.
  set (h' := storeSet h l (Entity.update fl dt (h l))).
  assert (Hother : forall l', l' ≠ l -> h' l' = h l').
  { intros l' Hl. unfold h', storeSet. by destruct (decide (l' = l)). }
  destruct (_ || _) eqn:Hmoved; cbn [fst snd].
  - split; [|split; [apply update_sameFlags|]].
    + unfold _updateSpatialHash. by destruct (decide _).
    + by apply updateSpatialHash_indexed.
  - split; [done|]. split; [apply update_sameFlags|].
    apply orb_false_iff in Hmoved as [Hx Hy].
    apply negb_false_iff, Qeq_bool_iff in Hx, Hy.
    apply (indexed_store fl h); [|done].
    intros l'. destruct (decide (l' = l)) as [->|Hl]; [|by rewrite Hother].
    unfold _getCellKey. f_equal; apply Qfloor_comp, Hfl;
      unfold Qdiv; apply Qmult_comp; done.
Qed.

Lemma advance_fold dt L h m P :
  respectsEq fl -> indexed fl h m P -> (forall l, l ∈ L -> P l) ->
  entities (snd (foldl (advanceStep fl dt) (h, m) L)) = entities m
  ∧ sameFlags (fst (foldl (advanceStep fl dt) (h, m) L)) h
  ∧ indexed fl (fst (foldl (advanceStep fl dt) (h, m) L))
      (snd (foldl (advanceStep fl dt) (h, m) L)) P.
Proof.
  intros Hfl. revert h m.
  induction L as [|l L IH]; intros h m Hidx HL;
    [split; [done|split; [by intros ?|done]]|].
  cbn [foldl].
  destruct (advanceStep_inv dt h m P l Hfl Hidx) as (He & Hf & Hi);
    [apply HL; by left|].
  destruct (advanceStep fl dt (h, m) l) as [h1 m1]. cbn [fst snd] in He, Hf, Hi.
  destruct (IH h1 m1 Hi) as (He' & Hf' & Hi').
  { intros l' Hl'. apply HL. by right. }
  split; [congruence|]. split; [|done].
  intros l'. destruct (Hf' l') as [-> ->]. apply Hf.
Qed.

(** The first pass of [update] leaves the by-id map and the flags as they
    are, and every registered entity filed under the key of its position. *)
Lemma advance_inv dt h m :
  respectsEq fl -> indexed fl h m (fun l => l ∈ getAll m) ->
  entities (snd (advance fl dt (h, m))) = entities m
  ∧ sameFlags (fst (advance fl dt (h, m))) h
  ∧ indexed fl (fst (advance fl dt (h, m))) (snd (advance fl dt (h, m)))
      (fun l => l ∈ getAll m).
Proof. intros Hfl Hidx. unfold advance. by apply advance_fold. Qed.

(** [remove] of an id, or of an object, that the by-id map holds. *)
Lemma remove_found h m e l0 :
  registered h m -> indexed fl h m (fun l => l ∈ getAll m) ->
  mapGet (match e with inl n => n | inr l => Entity.id (h l) end) (entities m)
  = Some l0 ->
  fst (remove fl h m e) = mark h l0
  ∧ entities (snd (remove fl h m e))
    = filter (fun il => snd il ≠ l0) (entities m)
  ∧ registered (fst (remove fl h m e)) (snd (remove fl h m e))
  ∧ indexed fl (fst (remove fl h m e)) (snd (remove fl h m e))
      (fun l => l ∈ getAll (snd (remove fl h m e))).
Proof.
  intros Hreg Hidx Hget. unfold remove. rewrite Hget. cbn [fst snd].
  pose proof Hreg as [Hnd Hid].
  pose proof (mapGet_Some _ _ _ Hget) as Hin.
  assert (He : mapDelete
                 (match e with inl n => n | inr l => Entity.id (h l) end)
                 (entities m)
               = filter (fun il => snd il ≠ l0) (entities m)).
  { unfold mapDelete. apply filter_ext_in. intros [i l'] Hil. simpl. split.
    - intros Hne ->. apply Hne. by rewrite <- (Hid _ _ Hil), <- (Hid _ _ Hin).
    - intros Hne ->. apply Hne. by eapply unique_value. }
  split; [done|].
  unfold _removeFromSpatialHash, withHash. cbn [entities spatialHash cellSize].
  split; [exact He|]. split.
  - split; cbn [entities].
    + rewrite He. eapply sublist_NoDup; [exact Hnd|].
      apply sublist_fmap_fst, sublist_filter.
    + intros i l. rewrite He. intros [_ Hil]%list_elem_of_filter.
      destruct (mark_sameIndexData h l0 l) as (Hi & _).
      unfold mark in Hi. rewrite Hi. by apply Hid.
  - set (m1 := {| entities := _; byType := _; spatialHash := spatialHash m;
                 cellSize := cellSize m |}).
    assert (Hidx1 : indexed fl (mark h l0) m (fun l => l ∈ getAll m)).
    { apply (indexed_store fl h); [|done]. intros l.
      destruct (mark_sameIndexData h l0 l) as (_ & -> & ->). done. }
    pose proof (drop_indexed fl (mark h l0) m _ l0 Hidx1) as Hdrop.
    destruct Hdrop as [Hcs Hdrop]. split; [done|]. intros key.
    destruct (Hdrop key) as [Hnd' Hmem]. split; [exact Hnd'|].
    intros l. etrans; [apply Hmem|].
    change (_getCellKey fl (withHash m _)) with (_getCellKey fl m).
    assert (Hall : l ∈ getAll m ∧ l ≠ l0
                   <-> l ∈ getAll {| entities := mapDelete
                          (match e with inl n => n | inr l => Entity.id (h l) end)
                          (entities m);
                        byType := byType m1; spatialHash := spatialHash m;
                        cellSize := cellSize m |}).
    { rewrite !elem_of_getAll. cbn [entities]. rewrite He. split.
      - intros [[i Hi] Hne]. exists i. by apply list_elem_of_filter.
      - intros [i [Hne Hi]%list_elem_of_filter]. split; [by exists i|done]. }
    unfold getAll in *. cbn [entities] in *. by rewrite Hall.
Qed.

End DeferredRemoval.

Section Purge.
Import EntityManager.
Context (fl : Q -> Q).

(** The second pass over the entities [todo]: the by-id map loses exactly
    the entries of the marked ones among them, the flags stay, and the
    buckets file the entities that are left. *)
Lemma purge_fold h m todo hc mc :
  registered h m ->
  (forall l, l ∈ todo -> l ∈ (snd <$> entities m)) ->
  sameFlags hc h ->
  sublist (entities mc) (entities m) ->
  indexed fl hc mc (fun l => l ∈ getAll mc) ->
  let r := foldl (purgeStep fl) (hc, mc) todo in
  entities (snd r)
  = filter (fun il => ~ (snd il ∈ todo ∧ Entity.removed (h (snd il)) = true))
           (entities mc)
  ∧ sameFlags (fst r) h
  ∧ indexed fl (fst r) (snd r) (fun l => l ∈ getAll (snd r)).
Proof.
  intros Hreg. revert hc mc.
  induction todo as [|l todo IH]; intros hc mc Htodo Hflags Hsub Hidx; cbv zeta.
  - cbn [foldl fst snd]. split; [|done]. symmetry.
    apply filter_all_in. intros il _ [Hin _].
    by apply not_elem_of_nil in Hin.
  - cbn [foldl].
    assert (Hl : (Entity.id (h l), l) ∈ entities m).
    { assert (Hin : l ∈ (entities m).*2) by (apply Htodo; by left).
      apply list_elem_of_fmap in Hin as ([i l'] & Heq & Hin).
      simpl in Heq. subst l'.
      destruct Hreg as [_ Hid]. by rewrite (Hid _ _ Hin). }
    assert (Hsubreg : registered hc mc).
    { destruct Hreg as [Hnd Hid]. split.
      - eapply sublist_NoDup; [exact Hnd|]. by apply sublist_fmap_fst.
      - intros i l' Hin. destruct (Hflags l') as [_ ->].
        apply Hid. eapply elem_of_sublist; eauto. }
    destruct (Hflags l) as [Hrem Hidl].
    change (purgeStep fl (hc, mc) l)
      with (if Entity.removed (hc l) then remove fl hc mc (inr l) else (hc, mc)).
    destruct (Entity.removed (hc l)) eqn:Hrl.
    + destruct (decide ((Entity.id (hc l), l) ∈ entities mc)) as [Hin|Hout].
      * assert (Hget : mapGet (Entity.id (hc l)) (entities mc) = Some l).
        { apply mapGet_elem; [apply Hsubreg|done]. }
        destruct (remove_found fl hc mc (inr l) l Hsubreg Hidx Hget)
          as (Hs & He & _ & Hidx1).
        destruct (remove fl hc mc (inr l)) as [h1 m1].
        cbn [fst snd] in He, Hs, Hidx1.
        destruct (IH h1 m1) as (IHe & IHf & IHi); [| | |done|].
        { intros l' Hl'. apply Htodo. by right. }
        { subst h1. intros l'. unfold mark, storeSet.
          destruct (decide (l' = l)) as [->|]; [|apply Hflags].
          cbn [Entity.remove Entity.removed Entity.id]. by rewrite <- Hrem, <- Hidl. }
        { rewrite He. etrans; [apply sublist_filter|done]. }
        split; [|by split].
        rewrite IHe, He, list_filter_filter. apply filter_ext_in.
        intros [i l'] Hil. cbn [snd]. rewrite elem_of_cons. split.
        -- intros [Hn Hne] [[->|Hin'] Hr]; [done|]. by apply Hn.
        -- intros Hn. split.
           ++ intros [Hin' Hr]. apply Hn. split; [by right|done].
           ++ intros ->. apply Hn. split; [by left|]. by rewrite <- Hrem.
      * assert (Hnone : mapGet (Entity.id (hc l)) (entities mc) = None).
        { destruct (mapGet _ _) as [l0|] eqn:Hget; [|done].
          apply mapGet_Some in Hget. exfalso. apply Hout.
          assert (l0 = l) as ->; [|done].
          destruct Hreg as [Hnd _]. eapply (unique_value (entities m)); [done| |].
          - eapply elem_of_sublist; eauto.
          - by rewrite Hidl. }
        unfold remove. rewrite Hnone.
        destruct (IH hc mc) as (IHe & IHf & IHi); try done.
        { intros l' Hl'. apply Htodo. by right. }
        split; [|by split]. rewrite IHe. apply filter_ext_in.
        intros [i l'] Hil. cbn [snd]. rewrite elem_of_cons. split.
        -- intros Hn [[->|Hin'] Hr]; [|by apply Hn].
           apply Hout. destruct Hsubreg as [_ Hid']. by rewrite (Hid' _ _ Hil) in *.
        -- intros Hn [Hin' Hr]. apply Hn. split; [by right|done].
    + destruct (IH hc mc) as (IHe & IHf & IHi); try done.
      { intros l' Hl'. apply Htodo. by right. }
      split; [|by split]. rewrite IHe. apply filter_ext_in.
      intros [i l'] Hil. cbn [snd]. rewrite elem_of_cons. split.
      * intros Hn [[->|Hin'] Hr]; [congruence|by apply Hn].
      * intros Hn [Hin' Hr]. apply Hn. split; [by right|done].
Qed.

(** The whole of [update]: the by-id map keeps the entries of the
    entities that are not marked, and the buckets file exactly these,
    each under the key of its position after the move. *)
Lemma manager_update_inv dt h m :
  respectsEq fl -> registered h m ->
  indexed fl h m (fun l => l ∈ getAll m) ->
  entities (snd (update fl dt (h, m)))
  = filter (fun il => Entity.removed (h (snd il)) = false) (entities m)
  ∧ sameFlags (fst (update fl dt (h, m))) h
  ∧ indexed fl (fst (update fl dt (h, m))) (snd (update fl dt (h, m)))
      (fun l => l ∈ getAll (snd (update fl dt (h, m)))).
Proof.
  intros Hfl Hreg Hidx. unfold update, purge.
  destruct (advance_inv fl dt h m Hfl Hidx) as (He & Hf & Hi).
  destruct (advance fl dt (h, m)) as [ha ma]. cbn [fst snd] in *.
  assert (Hrega : registered ha ma).
  { destruct Hreg as [Hnd Hid]. rewrite <- He in Hnd, Hid. split; [done|].
    intros i l Hin. destruct (Hf l) as [_ ->]. by apply Hid. }
  assert (Hia : indexed fl ha ma (fun l => l ∈ getAll ma)).
  { unfold getAll. by rewrite He. }
  destruct (purge_fold ha ma (map snd (entities ma)) ha ma)
    as (Hp & Hpf & Hpi); try done.
  split; [|split; [|done]].
  - rewrite Hp, He. apply filter_ext_in. intros [i l] Hil. cbn [snd].
    destruct (Hf l) as [-> _]. split.
    + intros Hn. destruct (Entity.removed (h l)); [|done].
      destruct Hn. split; [|done].
      change (map snd (entities m)) with (snd <$> entities m).
      apply list_elem_of_fmap. by exists (i, l).
    + intros Hr [_ Hr']. congruence.
  - intros l. destruct (Hpf l) as [-> ->]. apply Hf.
Qed.

Lemma mapGet_filter (P : Z * Ref -> Prop) `{!forall x, Decision (P x)}
    (L : list (Z * Ref)) i l :
  NoDup (fst <$> L) -> (i, l) ∈ L ->
  mapGet i (filter P L) = if decide (P (i, l)) then Some l else None.
Proof.
  intros Hnd Hin. destruct (decide (P (i, l))) as [HP|HP].
  - apply mapGet_elem.
    + eapply sublist_NoDup; [exact Hnd|].
      apply sublist_fmap_fst, sublist_filter.
    + by apply list_elem_of_filter.
  - destruct (mapGet i (filter P L)) as [l'|] eqn:Hget; [|done].
    apply mapGet_Some, list_elem_of_filter in Hget as [HP' Hin'].
    by rewrite (unique_value L i l l' Hnd Hin Hin') in HP.
Qed.

(** C5 (amended): let the rounding depend on the value rounded only, and
    let every registered entity be filed in the bucket of its position,
    as [add] and [update] leave it. An entity marked with
    its own [remove()] stays in the by-id map and in its bucket, and
    [getNear] answers as before. The first pass of [update], which
    advances the entities, leaves the by-id map as it is and every
    registered entity, marked or not, in the bucket of its position. The
    pass that follows keeps exactly the entries whose entity is not
    marked: after the update a marked entity is gone from [get], from
    every bucket and from the answers of [getNear], and the entities
    that are left are filed in the bucket of their position. The
    manager's own [remove(id)] does at once what that pass does: the
    entity is marked, gone from [get], from [getAll] and from every
    bucket. *)
Theorem removal_deferred_for_marked dt h m :
  respectsEq fl -> registered h m ->
  indexed fl h m (fun l => l ∈ getAll m) ->
  (forall l x y radius,
     getNear fl (mark h l) m x y radius = getNear fl h m x y radius)
  ∧ (entities (snd (advance fl dt (h, m))) = entities m
     ∧ indexed fl (fst (advance fl dt (h, m))) (snd (advance fl dt (h, m)))
         (fun l => l ∈ getAll m))
  ∧ (entities (snd (update fl dt (h, m)))
     = filter (fun il => Entity.removed (h (snd il)) = false) (entities m)
     ∧ (forall i l, get m i = Some l ->
          get (snd (update fl dt (h, m))) i
          = if Entity.removed (h l) then None else Some l)
     ∧ indexed fl (fst (update fl dt (h, m))) (snd (update fl dt (h, m)))
         (fun l => l ∈ getAll m ∧ Entity.removed (h l) = false)
     ∧ (forall l x y radius,
          l ∈ getNear fl (fst (update fl dt (h, m))) (snd (update fl dt (h, m)))
                x y radius ->
          l ∈ getAll m ∧ Entity.removed (h l) = false))
  ∧ (forall i l, get m i = Some l ->
       Entity.removed (fst (remove fl h m (inl i)) l) = true
       ∧ get (snd (remove fl h m (inl i))) i = None
       ∧ (l ∉ getAll (snd (remove fl h m (inl i))))
       ∧ forall key, l ∉ bucket (snd (remove fl h m (inl i))) key).
Proof.
  intros Hfl Hreg Hidx.
  destruct (manager_update_inv dt h m Hfl Hreg Hidx) as (Hue & Huf & Hui).
  assert (Hleft : forall l,
            l ∈ getAll (snd (update fl dt (h, m)))
            <-> l ∈ getAll m ∧ Entity.removed (h l) = false).
  { intros l. rewrite !elem_of_getAll, Hue. split.
    - intros [i [Hr Hi]%list_elem_of_filter]. split; [by exists i|done].
    - intros [[i Hi] Hr]. exists i. by apply list_elem_of_filter. }
  assert (Hui' : indexed fl (fst (update fl dt (h, m)))
                   (snd (update fl dt (h, m)))
                   (fun l => l ∈ getAll m ∧ Entity.removed (h l) = false)).
  { eapply indexed_ext; [|exact Hui]. exact Hleft. }
  split; [|split; [|split]].
  - intros l x y radius. apply getNear_store_ext, mark_sameIndexData.
  - destruct (advance_inv fl dt h m Hfl Hidx) as (He & _ & Hi). by split.
  - split; [exact Hue|]. split; [|split; [exact Hui'|]].
    + intros i l Hget. unfold get in *. rewrite Hue.
      apply mapGet_Some in Hget. destruct Hreg as [Hnd _].
      rewrite (mapGet_filter _ _ i l Hnd Hget). cbn [snd].
      destruct (Entity.removed (h l)); by destruct (decide _).
    + intros l x y radius Hl.
      by apply (getNear_filed fl _ _ _ x y radius l Hui') in Hl.
  - intros i l Hget. unfold get in Hget.
    destruct (remove_found fl h m (inl i) l Hreg Hidx Hget)
      as (Hs & He & Hreg' & Hidx').
    assert (Hout : l ∉ getAll (snd (remove fl h m (inl i)))).
    { rewrite elem_of_getAll, He. intros [i' [Hne _]%list_elem_of_filter].
      by apply Hne. }
    split; [|split; [|split; [exact Hout|]]].
    + rewrite Hs. unfold mark, storeSet. by rewrite decide_True.
    + unfold get. rewrite He.
      destruct (mapGet i (filter _ _)) as [l'|] eqn:Hget'; [|done].
      apply mapGet_Some, list_elem_of_filter in Hget' as [Hne Hin'].
      exfalso. apply Hne.
      destruct Hreg as [Hnd _]. apply mapGet_Some in Hget.
      by eapply unique_value.
    + intros key Hin. apply Hidx' in Hin as [Hin _]. by apply Hout.
Qed.

End Purge.

(** C5, as the claim states it, fails: [EntityManager.remove] takes the
    entity out of the by-id map and out of its bucket at once, with no
    [update] in between. *)
Lemma remove_is_immediate :
  EntityManager.get
    (EntityManager.addAll round64 threeEntities [0; 1; 2]%nat) 1
    = Some 0%nat
  ∧ EntityManager.get
      (snd (EntityManager.remove round64 threeEntities
              (EntityManager.addAll round64 threeEntities [0; 1; 2]%nat)
              (inl 1))) 1
    = None
  ∧ EntityManager.getAll
      (snd (EntityManager.remove round64 threeEntities
              (EntityManager.addAll round64 threeEntities [0; 1; 2]%nat)
              (inl 1)))
    = [1; 2]%nat
  ∧ EntityManager.getNear round64
      (fst (EntityManager.remove round64 threeEntities
              (EntityManager.addAll round64 threeEntities [0; 1; 2]%nat)
              (inl 1)))
      (snd (EntityManager.remove round64 threeEntities
              (EntityManager.addAll round64 threeEntities [0; 1; 2]%nat)
              (inl 1)))
      3 0 1
    = [].
Proof. split; [|split; [|split]]; vm_compute; reflexivity. Qed.

(** The three objects, the first under way and the second marked, one
    tick of 1/64 s. *)
Lemma removal_deferred_for_marked_witness :
  (forall i l,
     EntityManager.get
       (EntityManager.addAll round64 drifting [0; 1; 2]%nat) i = Some l ->
     EntityManager.get
       (snd (EntityManager.update round64 (1 # 64)
               (mark drifting 1%nat,
                EntityManager.addAll round64 drifting [0; 1; 2]%nat))) i
     = if Entity.removed (mark drifting 1%nat l) then None else Some l)
  ∧ indexed round64
      (fst (EntityManager.update round64 (1 # 64)
              (mark drifting 1%nat,
               EntityManager.addAll round64 drifting [0; 1; 2]%nat)))
      (snd (EntityManager.update round64 (1 # 64)
              (mark drifting 1%nat,
               EntityManager.addAll round64 drifting [0; 1; 2]%nat)))
      (fun l =>
         l ∈ EntityManager.getAll
               (EntityManager.addAll round64 drifting [0; 1; 2]%nat)
         ∧ Entity.removed (mark drifting 1%nat l) = false).
Proof.
  destruct (removal_deferred_for_marked round64 (1 # 64)
              (mark drifting 1%nat)
              (EntityManager.addAll round64 drifting [0; 1; 2]%nat))
    as (_ & _ & (_ & Hget & Hidx & _) & _).
  - exact round64_respectsEq.
  - split.
    + apply (bool_decide_unpack _). vm_compute. exact I.
    + intros i l Hin.
      repeat (apply elem_of_cons in Hin as [[= -> ->]|Hin]; [reflexivity|]).
      by apply not_elem_of_nil in Hin.
  - apply (indexed_store round64 drifting).
    { intros l. by destruct (mark_sameIndexData drifting 1%nat l)
        as (_ & -> & ->). }
    eapply indexed_ext; [|apply addAll_indexed]. intros l. cbn beta.
    by replace (EntityManager.getAll
                  (EntityManager.addAll round64 drifting [0; 1; 2]%nat))
      with [0; 1; 2]%nat by (vm_compute; reflexivity).
  - split; [exact Hget|exact Hidx].
Defined.

(** That tick, computed: the marked object is gone from the by-id map and
    from the bucket it shared; the object under way is at (4, 0) and has
    changed buckets. *)
Lemma update_tick :
  bucket (EntityManager.addAll round64 drifting [0; 1; 2]%nat) (0, 0)
    = [0; 2]%nat
  ∧ bucket (EntityManager.addAll round64 drifting [0; 1; 2]%nat) (1, 0)
    = [1%nat]
  ∧ EntityManager.getAll
      (snd (EntityManager.update round64 (1 # 64)
              (mark drifting 1%nat,
               EntityManager.addAll round64 drifting [0; 1; 2]%nat)))
    = [0; 2]%nat
  ∧ bucket
      (snd (EntityManager.update round64 (1 # 64)
              (mark drifting 1%nat,
               EntityManager.addAll round64 drifting [0; 1; 2]%nat))) (0, 0)
    = [2%nat]
  ∧ bucket
      (snd (EntityManager.update round64 (1 # 64)
              (mark drifting 1%nat,
               EntityManager.addAll round64 drifting [0; 1; 2]%nat))) (1, 0)
    = [0%nat]
  ∧ (Entity.x
       (fst (EntityManager.update round64 (1 # 64)
               (mark drifting 1%nat,
                EntityManager.addAll round64 drifting [0; 1; 2]%nat)) 0%nat)
     == 4)%Q.
Proof. split; [|split; [|split; [|split; [|split]]]]; vm_compute; reflexivity. Qed.

(** Why the entities must be filed where they are: an object whose
    position the application has written, as the game loop does with the
    player, and which is then marked, is purged from the by-id map, stays
    in its old bucket, and is still returned by [getNear]. *)
Lemma purged_stays_filed :
  EntityManager.get
    (snd (EntityManager.update round64 (1 # 64)
            (mark firstMoved 0%nat,
             EntityManager.addAll round64 threeEntities [0; 1; 2]%nat))) 1
    = None
  ∧ bucket
      (snd (EntityManager.update round64 (1 # 64)
              (mark firstMoved 0%nat,
               EntityManager.addAll round64 threeEntities [0; 1; 2]%nat)))
      (0, 0)
    = [0; 2]%nat
  ∧ EntityManager.getNear round64
      (fst (EntityManager.update round64 (1 # 64)
              (mark firstMoved 0%nat,
               EntityManager.addAll round64 threeEntities [0; 1; 2]%nat)))
      (snd (EntityManager.update round64 (1 # 64)
              (mark firstMoved 0%nat,
               EntityManager.addAll round64 threeEntities [0; 1; 2]%nat)))
      10 10 7
    = [0%nat].
Proof. split; [|split]; vm_compute; reflexivity. Qed.
(** * Further properties of the engine *)

(** ** World: writes to the grid, regions and the registry *)

Section WorldGrid.
Import World.

Lemma writeCell_cellAt gx gy key g gx' gy' :
  0 <= gx -> 0 <= gy -> 0 <= gx' -> 0 <= gy' ->
  cellAt (writeCell gx gy key g) gx' gy'
  = if decide (gx' = gx ∧ gy' = gy) then (fun _ => key) <$> cellAt g gx gy
    else cellAt g gx' gy'.
Proof.
  intros Hx Hy Hx' Hy'. unfold cellAt, writeCell.
  rewrite list_lookup_alter.
  destruct (decide (Z.to_nat gy = Z.to_nat gy')) as [Hgy|Hgy].
  - assert (gy' = gy) as -> by lia.
    destruct (g !! Z.to_nat gy) as [row|]; simpl.
    + rewrite list_lookup_insert.
      destruct (decide (gx' = gx ∧ gy = gy)) as [[-> _]|Hne].
      * destruct (decide _) as [[_ Hlt]|Hn].
        -- by destruct (lookup_lt_is_Some_2 row _ Hlt) as [k ->].
        -- rewrite lookup_ge_None_2; [done|]. 
           destruct (decide (Z.to_nat gx < length row)%nat); [|lia].
           destruct Hn. done.
      * destruct (decide _) as [[Heq _]|_]; [|done].
        destruct Hne. split; [lia|done].
    + by destruct (decide _).
  - destruct (decide (gx' = gx ∧ gy' = gy)) as [[_ ->]|_]; done.
Qed.

Lemma fill_row_cellAt key y xs g gx' gy' :
  Forall (fun x => 0 <= x) xs -> 0 <= y -> 0 <= gx' -> 0 <= gy' ->
  cellAt (foldl (fun g' x => writeCell x y key g') g xs) gx' gy'
  = if decide (gx' ∈ xs ∧ gy' = y) then (fun _ => key) <$> cellAt g gx' gy'
    else cellAt g gx' gy'.
Proof.
  intros Hxs Hy Hx' Hy'. revert g.
  induction Hxs as [|x xs Hx _ IH]; intros g; cbn [foldl].
  - destruct (decide _) as [[Hin _]|_]; [|done]. by apply not_elem_of_nil in Hin.
  - rewrite IH, writeCell_cellAt by done.
    pose proof (elem_of_cons xs gx' x) as Hc.
    repeat case_decide;
      first [exfalso; tauto
            |destruct_and?; subst; by destruct (cellAt g _ _)].
Qed.

Lemma fill_rows_cellAt key xs ys g gx' gy' :
  Forall (fun x => 0 <= x) xs -> Forall (fun y => 0 <= y) ys ->
  0 <= gx' -> 0 <= gy' ->
  cellAt (foldl (fun g y => foldl (fun g' x => writeCell x y key g') g xs) g ys)
         gx' gy'
  = if decide (gx' ∈ xs ∧ gy' ∈ ys) then (fun _ => key) <$> cellAt g gx' gy'
    else cellAt g gx' gy'.
Proof.
  intros Hxs Hys Hx' Hy'. revert g.
  induction Hys as [|y ys Hy _ IH]; intros g; cbn [foldl].
  - destruct (decide _) as [[_ Hin]|_]; [|done]. by apply not_elem_of_nil in Hin.
  - rewrite IH, fill_row_cellAt by done.
    pose proof (elem_of_cons ys gy' y) as Hc.
    repeat case_decide;
      first [exfalso; tauto
            |destruct_and?; subst; by destruct (cellAt g _ _)].
Qed.

Lemma rectangular_cellAt w gx gy :
  rectangular w -> outOfBounds w gx gy = false ->
  is_Some (cellAt (grid w) gx gy).
Proof.
  intros (Hw & Hh & Hlen & Hrows) Hin.
  apply outOfBounds_false in Hin as [Hx Hy]. unfold cellAt.
  destruct (lookup_lt_is_Some_2 (grid w) (Z.to_nat gy)) as [row Hrow]; [lia|].
  rewrite Hrow. simpl. apply lookup_lt_is_Some_2.
  rewrite Forall_forall in Hrows. rewrite (Hrows row); [lia|].
  eapply list_elem_of_lookup_2; eauto.
Qed.

Lemma getSectorKey_cellAt w gx gy k :
  outOfBounds w gx gy = false -> cellAt (grid w) gx gy = Some k ->
  getSectorKey w gx gy = Ret k.
Proof.
  intros Hin Hk. unfold getSectorKey, cellAt in *. rewrite Hin.
  destruct (grid w !! Z.to_nat gy) as [row|]; [|done]. simpl in Hk. by rewrite Hk.
Qed.

End WorldGrid.

Section WorldWrites.
Import World.

Lemma writeCell_rows gx gy key g n :
  Forall (fun row : list string => length row = n) g ->
  Forall (fun row : list string => length row = n) (writeCell gx gy key g).
Proof.
  intros Hg. unfold writeCell. apply Forall_alter; [done|].
  intros row _ Hrow. by rewrite length_insert.
Qed.

Lemma foldl_rows {A} (f : list (list string) -> A -> list (list string))
    (xs : list A) g n :
  (forall g' a, Forall (fun row : list string => length row = n) g' ->
                Forall (fun row : list string => length row = n) (f g' a)) ->
  Forall (fun row : list string => length row = n) g ->
  Forall (fun row : list string => length row = n) (foldl f g xs).
Proof.
  intros Hf. revert g. induction xs as [|a xs IH]; intros g Hg; simpl; [done|].
  apply IH, Hf, Hg.
Qed.

Lemma setSector_grid gx gy key w :
  grid (snd (setSector gx gy key w)) = grid w
  ∨ grid (snd (setSector gx gy key w)) = writeCell gx gy key (grid w).
Proof.
  unfold setSector. destruct (outOfBounds w gx gy); [by left|].
  destruct (_ ≫= _) as [old|]; [destruct (String.eqb old key)|];
    simpl; auto.
Qed.

Lemma setSector_dims gx gy key w :
  width (snd (setSector gx gy key w)) = width w
  ∧ height (snd (setSector gx gy key w)) = height w
  ∧ defaultSector (snd (setSector gx gy key w)) = defaultSector w
  ∧ sectorTypes (snd (setSector gx gy key w)) = sectorTypes w
  ∧ regions (snd (setSector gx gy key w)) = regions w.
Proof.
  unfold setSector. destruct (outOfBounds w gx gy); [done|].
  destruct (_ ≫= _) as [old|]; [destruct (String.eqb old key)|]; done.
Qed.

Lemma applyOp_rectangular w o : rectangular w -> rectangular (applyOp w o).
Proof.
  intros (Hw & Hh & Hlen & Hrows). destruct o; cbn [applyOp].
  - done.
  - unfold rectangular.
    destruct (setSector_dims gx gy key w) as (-> & -> & _).
    split; [done|]. split; [done|].
    destruct (setSector_grid gx gy key w) as [-> | ->]; [done|].
    split; [by rewrite writeCell_length|by apply writeCell_rows].
  - split; [done|]. split; [done|]. split.
    + by rewrite fillRect_length.
    + unfold fillRect. cbn [grid width withGrid].
      apply foldl_rows; [|done]. intros g' y Hg'.
      apply foldl_rows; [|done]. intros g'' x Hg''. by apply writeCell_rows.
  - done.
Qed.

Lemma build_rectangular config ops w :
  build config ops = Some w -> rectangular w.
Proof.
  unfold build. destruct (new config) as [w0|] eqn:Hnew; [|done].
  intros [= <-].
  assert (H0 : rectangular w0).
  { unfold new in Hnew. destruct (_ || _) eqn:Hneg; [done|].
    injection Hnew as <-. apply orb_false_iff in Hneg as [Hw Hh].
    unfold rectangular. cbn [width height grid registerSectorType].
    split; [lia|]. split; [lia|]. split; [apply length_replicate|].
    apply Forall_replicate. apply length_replicate. }
  clear Hnew. revert w0 H0.
  induction ops as [|o ops IH]; intros w0 H0; simpl; [done|].
  apply IH, applyOp_rectangular, H0.
Qed.

(** On a rectangular grid, [setSector] on a cell of the grid stores the key
    there and nowhere else, and reports a change exactly when the cell held
    another key; outside the grid it changes nothing and reports no
    change. The registry and the dimensions stay as they are. *)
Theorem setSector_writes w gx gy key :
  rectangular w ->
  (World.outOfBounds w gx gy = true -> setSector gx gy key w = (false, w))
  ∧ (World.outOfBounds w gx gy = false ->
       getSectorKey (snd (setSector gx gy key w)) gx gy = Ret key
       ∧ (fst (setSector gx gy key w) = true <->
          getSectorKey w gx gy ≠ Ret key)
       ∧ forall gx' gy', (gx', gy') ≠ (gx, gy) ->
           getSectorKey (snd (setSector gx gy key w)) gx' gy'
           = getSectorKey w gx' gy')
  ∧ sectorTypes (snd (setSector gx gy key w)) = sectorTypes w
  ∧ rectangular (snd (setSector gx gy key w)).
Proof.
  intros Hrect. split; [|split; [|split]].
  - unfold setSector. by intros ->.
  - intros Hin.
    destruct (rectangular_cellAt w gx gy Hrect Hin) as [old Hold].
    pose proof (outOfBounds_false w gx gy Hin) as [Hx Hy].
    pose proof (getSectorKey_cellAt w gx gy old Hin Hold) as Hkey.
    unfold setSector. rewrite Hin. unfold cellAt in Hold. rewrite Hold.
    destruct (String.eqb old key) eqn:Heq.
    + apply String.eqb_eq in Heq as ->. cbn [fst snd].
      split; [done|]. split; [|done]. rewrite Hkey. split; [done|congruence].
    + apply String.eqb_neq in Heq. cbn [fst snd].
      split; [|split].
      * apply getSectorKey_cellAt; [done|]. cbn [grid withGrid].
        rewrite writeCell_cellAt by lia. rewrite decide_True by done.
        unfold cellAt. by rewrite Hold.
      * rewrite Hkey. split; [congruence|done].
      * intros gx' gy' Hne. unfold getSectorKey.
        change (outOfBounds (withGrid w (writeCell gx gy key (grid w))) gx' gy')
          with (outOfBounds w gx' gy').
        destruct (outOfBounds w gx' gy') eqn:Hin'; [done|].
        pose proof (outOfBounds_false w gx' gy' Hin') as [Hx' Hy'].
        pose proof (writeCell_cellAt gx gy key (grid w) gx' gy') as Hc.
        rewrite decide_False in Hc by (intros [-> ->]; by destruct Hne).
        unfold cellAt in Hc. cbn [grid withGrid].
        specialize (Hc ltac:(lia) ltac:(lia) ltac:(lia) ltac:(lia)).
        destruct (rectangular_cellAt w gx' gy' Hrect Hin') as [k Hk].
        unfold cellAt in Hk. rewrite Hk in Hc.
        destruct (writeCell gx gy key (grid w) !! Z.to_nat gy') as [row'|];
          [|done].
        destruct (grid w !! Z.to_nat gy') as [row|]; [|done].
        simpl in Hc, Hk. by rewrite Hc, Hk.
  - apply setSector_dims.
  - apply (applyOp_rectangular w (OpSetSector gx gy key) Hrect).
Qed.

(** [fillRect] on a rectangular grid: afterwards a cell holds the key if it
    lies in the rectangle (corners in any order) and in the grid, and what
    it held before otherwise. *)
Theorem fillRect_cells w x1 y1 x2 y2 key gx gy :
  rectangular w ->
  (inFill w x1 y1 x2 y2 gx gy ->
   getSectorKey (fillRect x1 y1 x2 y2 key w) gx gy = Ret key)
  ∧ (~ inFill w x1 y1 x2 y2 gx gy ->
     getSectorKey (fillRect x1 y1 x2 y2 key w) gx gy = getSectorKey w gx gy).
Proof.
  intros Hrect. unfold getSectorKey.
  change (outOfBounds (fillRect x1 y1 x2 y2 key w) gx gy)
    with (outOfBounds w gx gy).
  change (defaultSector (fillRect x1 y1 x2 y2 key w)) with (defaultSector w).
  destruct (outOfBounds w gx gy) eqn:Hin.
  { split; [|done]. unfold inFill. rewrite Hin. by intros (_ & _ & ?). }
  pose proof (outOfBounds_false w gx gy Hin) as [Hx Hy].
  destruct (rectangular_cellAt w gx gy Hrect Hin) as [k Hk].
  pose proof (fill_rows_cellAt key
    (seqZ (Z.max 0 (Z.min x1 x2))
          (Z.min (width w - 1) (Z.max x1 x2) - Z.max 0 (Z.min x1 x2) + 1))
    (seqZ (Z.max 0 (Z.min y1 y2))
          (Z.min (height w - 1) (Z.max y1 y2) - Z.max 0 (Z.min y1 y2) + 1))
    (grid w) gx gy) as Hc.
  rewrite Hk in Hc. unfold cellAt in Hc, Hk. unfold fillRect. cbn [grid withGrid].
  assert (Hnn : forall a n, Forall (fun x => 0 <= x) (seqZ (Z.max 0 a) n)).
  { intros a n. apply Forall_forall. intros x Hx'%elem_of_seqZ. lia. }
  specialize (Hc (Hnn _ _) (Hnn _ _) ltac:(lia) ltac:(lia)).
  match type of Hc with
  | ?lhs ≫= _ = _ => destruct lhs as [row'|] eqn:Hrow'
  end.
  - simpl in Hc. rewrite Hc. clear Hc.
    destruct (grid w !! Z.to_nat gy) as [row|]; [|done]. simpl in Hk.
    rewrite Hk. split.
    + intros (? & ? & _). rewrite decide_True; [done|].
      rewrite !elem_of_seqZ. lia.
    + intros Hf. rewrite decide_False; [done|].
      rewrite !elem_of_seqZ. intros [? ?]. apply Hf.
      unfold inFill. rewrite Hin. lia.
  - simpl in Hc. by destruct (decide _).
Qed.

End WorldWrites.

Lemma setSector_writes_witness :
  exists w, World.build doorConfig doorOps = Some w
    ∧ World.getSectorKey (snd (World.setSector 1 0 "floor" w)) 1 0 = Ret "floor"%string
    ∧ (fst (World.setSector 1 0 "floor" w) = true <->
       World.getSectorKey w 1 0 ≠ Ret "floor"%string).
Proof.
  eexists. split; [vm_compute; reflexivity|].
  lazymatch goal with
  | |- World.getSectorKey (snd (World.setSector _ _ _ ?w)) _ _ = _ ∧ _ =>
      pose (w0 := w);
      destruct (setSector_writes w0 1 0 "floor") as (_ & Hin & _)
  end.
  - apply (build_rectangular doorConfig doorOps). vm_compute. reflexivity.
  - assert (Hoob : World.outOfBounds w0 1 0 = false)
      by (vm_compute; reflexivity).
    pose proof (Hin Hoob) as (H1 & H2 & _). by split.
Defined.

Lemma fillRect_cells_witness :
  exists w, World.build doorConfig doorOps = Some w
    ∧ World.getSectorKey (World.fillRect 5 0 1 (-3) "lava" w) 2 0 = Ret "lava"%string
    ∧ World.getSectorKey (World.fillRect 5 0 1 (-3) "lava" w) 0 0
      = World.getSectorKey w 0 0.
Proof.
  eexists. split; [vm_compute; reflexivity|].
  lazymatch goal with
  | |- World.getSectorKey (World.fillRect _ _ _ _ _ ?w) _ _ = _ ∧ _ =>
      assert (Hr : rectangular w)
        by (apply (build_rectangular doorConfig doorOps); vm_compute; reflexivity);
      pose proof (fillRect_cells w 5 0 1 (-3) "lava" 2 0 Hr) as [H1 _];
      pose proof (fillRect_cells w 5 0 1 (-3) "lava" 0 0 Hr) as [_ H2]
  end.
  split.
  - apply H1. unfold inFill. split; [lia|]. split; [lia|reflexivity].
  - apply H2. unfold inFill. intros (H & _). lia.
Defined.

Section WorldRegistry.
Import World.


Lemma inBounds_true b x y :
  inBounds b x y = true <->
  (x1 b <= x)%Q ∧ (x <= x2 b)%Q ∧ (y1 b <= y)%Q ∧ (y <= y2 b)%Q.
Proof.
  unfold inBounds. rewrite !andb_true_iff, !Qle_bool_iff. tauto.
Qed.

Lemma elem_of_getRegionsAt w x y r :
  r ∈ getRegionsAt w x y <->
  (exists k, regions w !! k = Some r) ∧ inBounds (bounds r) x y = true.
Proof.
  unfold getRegionsAt. rewrite list_elem_of_filter, list_elem_of_fmap.
  split.
  - intros [Hb ([k r'] & -> & Hin)]. apply elem_of_map_to_list in Hin. eauto.
  - intros [[k Hk] Hb]. split; [done|]. exists (k, r).
    split; [done|]. by apply elem_of_map_to_list.
Qed.

(** After [defineRegion(name, bounds, props)] the regions found at a point
    are the new region, when the point lies between the two corners given
    in either order, and the regions found there before under other
    names; a region defined earlier under the same name is replaced. *)
Theorem defineRegion_getRegionsAt w nm b props x y r :
  r ∈ getRegionsAt (defineRegion nm b props w) x y <->
  (r = {| r_name := nm;
          bounds := {| x1 := Qmin (x1 b) (x2 b); y1 := Qmin (y1 b) (y2 b);
                       x2 := Qmax (x1 b) (x2 b); y2 := Qmax (y1 b) (y2 b) |};
          r_properties := props |}
   ∧ (Qmin (x1 b) (x2 b) <= x)%Q ∧ (x <= Qmax (x1 b) (x2 b))%Q
   ∧ (Qmin (y1 b) (y2 b) <= y)%Q ∧ (y <= Qmax (y1 b) (y2 b))%Q)
  ∨ ((exists k, k ≠ nm ∧ regions w !! k = Some r)
     ∧ inBounds (bounds r) x y = true).
Proof.
  rewrite elem_of_getRegionsAt. unfold defineRegion. cbn [regions]. split.
  - intros [[k Hk] Hb]. destruct (decide (k = nm)) as [->|Hne].
    + rewrite lookup_insert_eq in Hk. injection Hk as <-. left.
      split; [done|]. by apply inBounds_true in Hb.
    + rewrite lookup_insert_ne in Hk by done. right. eauto.
  - intros [[-> Hb]|[(k & Hne & Hk) Hb]].
    + split; [exists nm; by rewrite lookup_insert_eq|].
      by apply inBounds_true.
    + split; [|done]. exists k. by rewrite lookup_insert_ne.
Qed.

(** A cell stores only its key: once [registerSectorType(key, def)] has
    run, every cell of the grid holding [key] resolves to the new record,
    the definition laid over the fixed defaults, with no change to the
    grid; a cell holding another registered key resolves as before. *)
Theorem registerSectorType_resolves w key d x y k :
  World.outOfBounds w (Qfloor x) (Qfloor y) = false ->
  cellKey w (Qfloor x) (Qfloor y) = Some k ->
  grid (registerSectorType key d w) = grid w
  ∧ (k = key ->
     getSector (registerSectorType key d w) x y = Ret (mergeDefaults key d))
  ∧ (k ≠ key -> forall s, sectorTypes w !! k = Some s ->
     getSector (registerSectorType key d w) x y = Ret s
     ∧ getSector w x y = Ret s).
Proof.
  intros Hin Hk. split; [done|]. unfold getSector, cellKey in *.
  change (outOfBounds (registerSectorType key d w)) with (outOfBounds w).
  rewrite Hin. cbn [grid sectorTypes registerSectorType].
  destruct (grid w !! Z.to_nat (Qfloor y)) as [row|]; [|done].
  simpl in Hk. rewrite Hk. split.
  - intros ->. by rewrite lookup_insert_eq.
  - intros Hne s Hs. rewrite lookup_insert_ne by done. by rewrite Hs.
Qed.

End WorldRegistry.

Lemma registerSectorType_resolves_witness :
  exists w, World.build doorConfig doorOps = Some w
    ∧ World.getSector (World.registerSectorType "wall" floorDef w) (3 # 2) (1 # 2)
      = Ret (World.mergeDefaults "wall" floorDef)
    ∧ World.isWalkable (World.registerSectorType "wall" floorDef w) (3 # 2) (1 # 2)
      = Some true
    ∧ World.isWalkable w (3 # 2) (1 # 2) = Some false.
Proof.
  eexists. split; [vm_compute; reflexivity|].
  lazymatch goal with
  | |- World.getSector (World.registerSectorType _ _ ?w) _ _ = _ ∧ _ =>
      pose proof (registerSectorType_resolves w "wall" floorDef (3 # 2) (1 # 2)
                    "wall" eq_refl eq_refl) as (_ & H & _)
  end.
  split; [by apply H|]. split; vm_compute; reflexivity.
Defined.

Section CountWalkable.
Import World.

Lemma count_row w y xs n0 :
  rowsPresent w -> defaultRegistered w ->
  foldl (fun acc' x =>
           n ← acc';
           b ← isWalkable w (inject_Z x) (inject_Z y);
           Some (if b : bool then n + 1 else n)) (Some n0) xs
  = Some (n0 + Z.of_nat (length (filter
            (fun c => isWalkableCell w c = Some true)
            (xs ≫= fun x => [(x, y)])))).
Proof.
  intros Hrows Hreg. revert n0.
  induction xs as [|x xs IH]; intros n0.
  - cbn. apply (f_equal Some). unfold Visibility.Cell. lia.
  - cbn [foldl]. rewrite bind_cons. cbn [mbind option_bind app].
    destruct (isWalkable_Some w (inject_Z x) (inject_Z y) Hrows Hreg) as [b Hb].
    assert (Hc : isWalkableCell w (x, y) = Some b) by exact Hb.
    rewrite Hb. cbn [mbind option_bind]. rewrite IH, filter_cons.
    destruct b.
    + rewrite decide_True by done. cbn [length]. apply (f_equal Some).
      unfold Visibility.Cell. lia.
    + rewrite decide_False by (rewrite Hc; done). done.
Qed.

Lemma length_cells_rows (ys xs : list Z) :
  length (ys ≫= fun y => xs ≫= fun x => [(x, y)])
  = (length ys * length xs)%nat.
Proof.
  induction ys as [|y ys IH]; [done|].
  rewrite bind_cons, length_app, IH. cbn [length Nat.mul]. f_equal.
  clear. induction xs as [|x xs IH]; [done|].
  rewrite bind_cons. cbn [app length]. by rewrite IH.
Qed.

Lemma countWalkable_filter w :
  rowsPresent w -> defaultRegistered w ->
  Visibility.countWalkable w
  = Some (Z.of_nat (length (filter (fun c => isWalkableCell w c = Some true)
                                   (cells w)))).
Proof.
  intros Hrows Hreg. unfold Visibility.countWalkable, cells.
  generalize (seqZ 0 (height w)). intros ys.
  assert (Hgen : forall n0,
    foldl (fun acc y =>
             foldl (fun acc' x =>
                      n ← acc';
                      b ← isWalkable w (inject_Z x) (inject_Z y);
                      Some (if b : bool then n + 1 else n))
                   acc (seqZ 0 (width w))) (Some n0) ys
    = Some (n0 + Z.of_nat (length (filter
              (fun c => isWalkableCell w c = Some true)
              (ys ≫= fun y => seqZ 0 (width w) ≫= fun x => [(x, y)]))))).
  { induction ys as [|y ys IH]; intros n0.
    - cbn. apply (f_equal Some). unfold Visibility.Cell. lia.
    - cbn [foldl]. rewrite bind_cons.
      rewrite count_row by done. rewrite IH, filter_app, length_app.
      apply (f_equal Some). unfold Visibility.Cell. lia. }
  rewrite Hgen. f_equal.
Qed.

(** [countWalkable] returns the number of cells of the grid at which
    [isWalkable] is true, a number between 0 and [width * height]. *)
Theorem countWalkable_counts w :
  rowsPresent w -> defaultRegistered w ->
  Visibility.countWalkable w
  = Some (Z.of_nat (length (filter (fun c => isWalkableCell w c = Some true)
                                   (cells w))))
  ∧ Z.of_nat (length (filter (fun c => isWalkableCell w c = Some true)
                             (cells w)))
    <= Z.max 0 (width w) * Z.max 0 (height w).
Proof.
  intros Hrows Hreg. split; [by apply countWalkable_filter|].
  etrans; [apply inj_le, length_filter|].
  unfold cells. rewrite length_cells_rows, !length_seqZ. lia.
Qed.

End CountWalkable.

Lemma countWalkable_counts_witness :
  exists w, World.build doorConfig doorOps = Some w
    ∧ Visibility.countWalkable w = Some 2.
Proof.
  eexists. split; [vm_compute; reflexivity|].
  lazymatch goal with
  | |- Visibility.countWalkable ?w = _ =>
      destruct (countWalkable_counts w) as [H _]
  end.
  - split; [reflexivity|vm_compute; discriminate].
  - vm_compute. eauto.
  - rewrite H. vm_compute. reflexivity.
Defined.

(** ** Visibility: saving, restoring and completing the discovery *)

Section DiscoveryState.
Import Visibility.

(** The saved discovery lists every discovered cell once; loading it,
    into the same engine after a reset or into another one, restores the
    discovered set and leaves the receiver's visible set as it is; a
    reset empties both sets. *)
Theorem discovery_roundtrip v v' :
  NoDup (serializeDiscovery v)
  ∧ (forall gx gy,
       (gx, gy) ∈ serializeDiscovery v <-> isDiscovered v gx gy = true)
  ∧ discovered (deserializeDiscovery (serializeDiscovery v) v') = discovered v
  ∧ currentlyVisible (deserializeDiscovery (serializeDiscovery v) v')
    = currentlyVisible v'
  ∧ (forall gx gy,
       isDiscovered (resetDiscovery v) gx gy = false
       ∧ isVisible (resetDiscovery v) gx gy = false
       ∧ isDiscovered
           (deserializeDiscovery (serializeDiscovery v) (resetDiscovery v))
           gx gy
         = isDiscovered v gx gy).
Proof.
  unfold serializeDiscovery, deserializeDiscovery, resetDiscovery, isDiscovered,
    isVisible, withSets. cbn [discovered currentlyVisible].
  split; [apply NoDup_elements|]. split.
  - intros gx gy. by rewrite elem_of_elements, bool_decide_eq_true.
  - rewrite list_to_set_elements_L. split; [done|]. split; [done|].
    intros gx gy. split; [|split]; [| |done];
      apply bool_decide_eq_false, not_elem_of_empty.
Qed.

(** [discover(gx, gy)] adds one cell and drops none. *)
Lemma discover_adds v gx gy c :
  c ∈ discovered (discover v gx gy) <-> c = (gx, gy) ∨ c ∈ discovered v.
Proof.
  unfold discover, withSets. cbn [discovered].
  by rewrite elem_of_union, elem_of_singleton.
Qed.

End DiscoveryState.

Section DiscoverAll.
Import Visibility.

Lemma discoverAll_row (w : World.t) (y : Z) (xs : list Z) (d0 : gset Cell) :
  rowsPresent w -> defaultRegistered w ->
  exists d : gset Cell,
    foldl (fun acc' x =>
             d ← acc';
             b ← World.isWalkable w (inject_Z x) (inject_Z y);
             Some (if b : bool then {[ (x, y) ]} ∪ d else d))
          (Some d0) xs = Some d
    ∧ forall c, c ∈ d <->
        c ∈ d0 ∨ (c ∈ (xs ≫= fun x => [(x, y)])
                  ∧ isWalkableCell w c = Some true).
Proof.
  intros Hrows Hreg. revert d0.
  induction xs as [|x xs IH]; intros d0.
  - exists d0. split; [done|]. intros c. split; [by left|].
    intros [?|[Hin _]]; [done|]. by apply not_elem_of_nil in Hin.
  - cbn [foldl mbind option_bind].
    destruct (isWalkable_Some w (inject_Z x) (inject_Z y) Hrows Hreg) as [b Hb].
    rewrite Hb. cbn [mbind option_bind].
    destruct (IH (if b then {[ (x, y) ]} ∪ d0 else d0)) as (d & Hd & Hmem).
    exists d. split; [exact Hd|]. intros c. rewrite Hmem, bind_cons.
    cbn [app]. rewrite elem_of_cons.
    assert (Hxy : isWalkableCell w (x, y) = Some b) by exact Hb.
    destruct b.
    + rewrite elem_of_union, elem_of_singleton. split.
      * intros [[->|?]|[? ?]]; auto.
      * intros [?|[[->|?] ?]]; auto.
    + split; [intros [?|[? ?]]; auto|].
      intros [?|[[->|?] Hw]]; auto. rewrite Hxy in Hw. done.
Qed.

Lemma discoverAll_rows (w : World.t) (ys : list Z) (d0 : gset Cell) :
  rowsPresent w -> defaultRegistered w ->
  exists d : gset Cell,
    foldl (fun acc y =>
             foldl (fun acc' x =>
                      d ← acc';
                      b ← World.isWalkable w (inject_Z x) (inject_Z y);
                      Some (if b : bool then {[ (x, y) ]} ∪ d else d))
                   acc (seqZ 0 (World.width w)))
          (Some d0) ys = Some d
    ∧ forall c, c ∈ d <->
        c ∈ d0 ∨ (c ∈ (ys ≫= fun y => seqZ 0 (World.width w) ≫= fun x => [(x, y)])
                  ∧ isWalkableCell w c = Some true).
Proof.
  intros Hrows Hreg. revert d0.
  induction ys as [|y ys IH]; intros d0.
  - exists d0. split; [done|]. intros c. split; [by left|].
    intros [?|[Hin _]]; [done|]. by apply not_elem_of_nil in Hin.
  - cbn [foldl].
    destruct (discoverAll_row w y (seqZ 0 (World.width w)) d0 Hrows Hreg)
      as (d1 & -> & Hmem1).
    destruct (IH d1) as (d & Hd & Hmem).
    exists d. split; [exact Hd|]. intros c.
    rewrite Hmem, Hmem1, bind_cons, elem_of_app. tauto.
Qed.

Lemma elem_of_cells w gx gy :
  (gx, gy) ∈ cells w <-> World.outOfBounds w gx gy = false.
Proof.
  unfold cells, World.outOfBounds. rewrite list_elem_of_bind. split.
  - intros (y & Hin & Hy). apply list_elem_of_bind in Hin as (x & Hin & Hx).
    apply list_elem_of_singleton in Hin. injection Hin as -> ->.
    apply elem_of_seqZ in Hx, Hy. lia.
  - intros H. exists gy. split; [|apply elem_of_seqZ; lia].
    apply list_elem_of_bind. exists gx.
    split; [by apply list_elem_of_singleton|apply elem_of_seqZ; lia].
Qed.

Lemma discoverAll_discovered w v :
  rowsPresent w -> defaultRegistered w ->
  exists v',
    discoverAll w v = Some v'
    ∧ currentlyVisible v' = currentlyVisible v
    ∧ totalWalkable v' = totalWalkable v
    ∧ forall c, c ∈ discovered v' <->
        c ∈ discovered v ∨ (c ∈ cells w ∧ isWalkableCell w c = Some true).
Proof.
  intros Hrows Hreg. unfold discoverAll.
  destruct (discoverAll_rows w (seqZ 0 (World.height w)) (discovered v)
              Hrows Hreg) as (d & -> & Hmem).
  eexists. split; [reflexivity|]. split; [done|]. split; [done|].
  exact Hmem.
Qed.

(** [discoverAll] returns, drops no discovered cell and adds exactly the
    cells of the grid at which [isWalkable] is true; the visible set
    stays. *)
Theorem discoverAll_complete w v :
  rowsPresent w -> defaultRegistered w ->
  exists v',
    discoverAll w v = Some v'
    ∧ currentlyVisible v' = currentlyVisible v
    ∧ forall gx gy,
        isDiscovered v' gx gy = true <->
        isDiscovered v gx gy = true
        ∨ (World.outOfBounds w gx gy = false
           ∧ World.isWalkable w (inject_Z gx) (inject_Z gy) = Some true).
Proof.
  intros Hrows Hreg.
  destruct (discoverAll_discovered w v Hrows Hreg) as (v' & Hall & Hcur & _ & Hmem).
  exists v'. split; [exact Hall|]. split; [exact Hcur|].
  intros gx gy. unfold isDiscovered.
  by rewrite !bool_decide_eq_true, Hmem, elem_of_cells.
Qed.

End DiscoverAll.

Lemma discoverAll_complete_witness :
  exists w v v',
    World.build doorConfig doorOps = Some w
    ∧ Visibility.new w oneRayConfig = Some v
    ∧ Visibility.discoverAll w v = Some v'
    ∧ Visibility.isDiscovered v' 2 0 = true
    ∧ Visibility.isDiscovered v' 1 0 = false.
Proof.
  eexists _, _.
  lazymatch goal with
  | |- exists v', World.build _ _ = Some ?w ∧ Visibility.new _ _ = Some ?v ∧ _ =>
      assert (Hw : World.build doorConfig doorOps = Some w)
        by (vm_compute; reflexivity);
      assert (Hv : Visibility.new w oneRayConfig = Some v)
        by (vm_compute; reflexivity);
      destruct (discoverAll_complete w v) as (v' & Hall & _ & Hmem)
  end.
  - split; [reflexivity|vm_compute; discriminate].
  - vm_compute. eauto.
  - exists v'. split; [exact Hw|]. split; [exact Hv|]. split; [exact Hall|].
    split.
    + apply Hmem. right. split; vm_compute; reflexivity.
    + destruct (Visibility.isDiscovered v' 1 0) eqn:Hd; [|done].
      apply Hmem in Hd as [Hd|[_ Hd]]; vm_compute in Hd; discriminate.
Defined.

Section DiscoveryPercent.
Import Visibility.

Lemma NoDup_cells w : NoDup (cells w).
Proof.
  unfold cells. apply NoDup_bind; [| |apply NoDup_seqZ].
  - intros y1 y2 [cx cy] _ _ H1 H2.
    apply list_elem_of_bind in H1 as (? & H1%list_elem_of_singleton & _).
    apply list_elem_of_bind in H2 as (? & H2%list_elem_of_singleton & _).
    congruence.
  - intros y _. apply NoDup_bind; [| |apply NoDup_seqZ].
    + intros x1 x2 k _ _ H1%list_elem_of_singleton H2%list_elem_of_singleton.
      congruence.
    + intros x _. apply NoDup_singleton.
Qed.

(** Counting over keys that are all walkable counts them all. *)
Lemma count_all_walkable w (L : list Cell) n0 :
  (forall c, c ∈ L -> isWalkableCell w c = Some true) ->
  foldl (fun acc key =>
           n ← acc;
           b ← World.isWalkable w (inject_Z (fst key)) (inject_Z (snd key));
           Some (if b : bool then n + 1 else n))
        (Some n0) L
  = Some (n0 + Z.of_nat (length L)).
Proof.
  revert n0. induction L as [|c L IH]; intros n0 Hall.
  - cbn. f_equal. lia.
  - cbn [foldl mbind option_bind].
    assert (Hc : World.isWalkable w (inject_Z c.1) (inject_Z c.2) = Some true)
      by (apply Hall; by left).
    rewrite Hc. cbn [mbind option_bind]. rewrite IH.
    + cbn [length]. f_equal. lia.
    + intros c' Hc'. apply Hall. by right.
Qed.

(** On a fresh engine, once [discoverAll] has run, the count of discovered
    walkable cells is the total counted at construction and the
    percentage is 100. *)
Theorem discoverAll_percent w config v :
  rowsPresent w -> defaultRegistered w ->
  Visibility.new w config = Some v ->
  exists v',
    discoverAll w v = Some v'
    ∧ getDiscoveryCount w v' = Some (totalWalkable v, totalWalkable v)
    ∧ getDiscoveryPercent w v' = Some 100.
Proof.
  intros Hrows Hreg Hnew.
  destruct (discoverAll_discovered w v Hrows Hreg)
    as (v' & Hall & _ & Htw & Hmem).
  exists v'. split; [exact Hall|].
  unfold Visibility.new in Hnew.
  rewrite (countWalkable_filter w Hrows Hreg) in Hnew.
  cbn [mbind option_bind] in Hnew. injection Hnew as <-.
  set (L := filter (fun c => isWalkableCell w c = Some true) (cells w)).
  assert (Htot : totalWalkable v' = Z.of_nat (length L)) by exact Htw.
  assert (Hd : discovered v' = list_to_set L).
  { apply set_eq. intros c.
    rewrite elem_of_list_to_set, Hmem. unfold L.
    rewrite list_elem_of_filter. cbn [discovered]. split.
    - intros [Hin|[? ?]]; [by apply not_elem_of_empty in Hin|done].
    - intros [? ?]. by right. }
  assert (Hlen : length (elements (discovered v')) = length L).
  { rewrite Hd. apply Permutation_length, elements_list_to_set.
    apply NoDup_filter, NoDup_cells. }
  assert (Hcount : discoveredWalkable w v' = Some (Z.of_nat (length L))).
  { unfold discoveredWalkable. rewrite count_all_walkable.
    - unfold Cell in *. by rewrite Hlen.
    - intros c Hc. apply elem_of_elements in Hc. rewrite Hd in Hc.
      apply elem_of_list_to_set in Hc. unfold L in Hc.
      by apply list_elem_of_filter in Hc as [? _]. }
  cbn [totalWalkable]. split.
  - unfold getDiscoveryCount. rewrite Hcount. cbn [mbind option_bind].
    by rewrite Htot.
  - unfold getDiscoveryPercent. rewrite Htot.
    destruct (Z.of_nat (length L) =? 0) eqn:Hz; [done|].
    rewrite Hcount. cbn [mbind option_bind]. f_equal.
    apply Z.eqb_neq in Hz. unfold round.
    assert (Hq : (inject_Z (Z.of_nat (length L)) / inject_Z (Z.of_nat (length L))
                  * 100 + (1 # 2) == 201 # 2)%Q).
    { assert (Hnz : ~ (inject_Z (Z.of_nat (length L)) == 0)%Q).
      { intros H0. apply Hz. apply (inject_Z_injective _ 0). exact H0. }
      field. exact Hnz. }
    by rewrite (Qfloor_comp _ _ Hq).
Qed.

End DiscoveryPercent.

Lemma discoverAll_percent_witness :
  exists w v v',
    World.build doorConfig doorOps = Some w
    ∧ Visibility.new w oneRayConfig = Some v
    ∧ Visibility.discoverAll w v = Some v'
    ∧ Visibility.getDiscoveryCount w v' = Some (2, 2)
    ∧ Visibility.getDiscoveryPercent w v' = Some 100.
Proof.
  eexists _, _.
  lazymatch goal with
  | |- exists v', World.build _ _ = Some ?w ∧ Visibility.new _ _ = Some ?v ∧ _ =>
      assert (Hw : World.build doorConfig doorOps = Some w)
        by (vm_compute; reflexivity);
      assert (Hv : Visibility.new w oneRayConfig = Some v)
        by (vm_compute; reflexivity);
      destruct (discoverAll_percent w oneRayConfig v) as (v' & Hall & Hc & Hp)
  end.
  - split; [reflexivity|vm_compute; discriminate].
  - vm_compute. eauto.
  - exact Hv.
  - exists v'. split; [exact Hw|]. split; [exact Hv|]. split; [exact Hall|].
    split; [exact Hc|exact Hp].
Defined.

(** ** Movement: searching for a free position, tracing a path *)

Section FindValidPosition.
Import Movement.
Context (M : MathLib).

Lemma ringLoop_sound mv w tx ty r dist fuel angle :
  rowsPresent w -> defaultRegistered w ->
  (PI M * 2 <= angle + inject_Z (Z.of_nat fuel) * (PI M / 8))%Q ->
  exists res,
    ringLoop M mv w tx ty r dist fuel angle = Some res
    ∧ forall p, res = Some p ->
        canOccupy mv w (fst p) (snd p) (Some r) None = Some true.
Proof.
  intros Hrows Hreg. revert angle.
  induction fuel as [|fuel IH]; intros angle Hfuel.
  - cbn [ringLoop]. destruct (Qltb angle (PI M * 2)) eqn:Hlt.
    + apply Qltb_true in Hlt.
      change (inject_Z (Z.of_nat 0)) with 0%Q in Hfuel. lra.
    + eexists. split; [reflexivity|done].
  - cbn [ringLoop]. destruct (Qltb angle (PI M * 2)) eqn:Hlt.
    2:{ eexists. split; [reflexivity|done]. }
    destruct (canOccupy_total mv w (tx + cos M angle * dist)
                (ty + sin M angle * dist) (Some r) None Hrows Hreg)
      as [b Hb].
    rewrite Hb. cbn [mbind option_bind]. destruct b.
    + eexists. split; [reflexivity|]. by intros p [= <-].
    + apply IH. rewrite Nat2Z.inj_succ in Hfuel. unfold Z.succ in Hfuel.
      rewrite inject_Z_plus in Hfuel. change (inject_Z 1) with 1%Q in Hfuel.
      lra.
Qed.

Lemma spiralLoop_sound mv w tx ty r sr fuel dist :
  rowsPresent w -> defaultRegistered w ->
  (sr < dist + inject_Z (Z.of_nat fuel) * (1 # 2))%Q ->
  exists res,
    spiralLoop M mv w tx ty r sr fuel dist = Some res
    ∧ forall p, res = Some p ->
        canOccupy mv w (fst p) (snd p) (Some r) None = Some true.
Proof.
  intros Hrows Hreg. revert dist.
  induction fuel as [|fuel IH]; intros dist Hfuel.
  - cbn [spiralLoop]. destruct (Qle_bool dist sr) eqn:Hle.
    + apply Qle_bool_iff in Hle.
      change (inject_Z (Z.of_nat 0)) with 0%Q in Hfuel. lra.
    + eexists. split; [reflexivity|done].
  - cbn [spiralLoop]. destruct (Qle_bool dist sr) eqn:Hle.
    2:{ eexists. split; [reflexivity|done]. }
    destruct (ringLoop_sound mv w tx ty r dist 16 0 Hrows Hreg)
      as (found & Hfound & Hok).
    { change (inject_Z (Z.of_nat 16)) with 16%Q.
      assert (H : (0 + 16 * (PI M / 8) == PI M * 2)%Q) by field.
      rewrite H. apply Qle_refl. }
    rewrite Hfound. cbn [mbind option_bind]. destruct found as [p|].
    + eexists. split; [reflexivity|]. intros p' [= <-]. by apply Hok.
    + apply IH. rewrite Nat2Z.inj_succ in Hfuel. unfold Z.succ in Hfuel.
      rewrite inject_Z_plus in Hfuel. change (inject_Z 1) with 1%Q in Hfuel.
      lra.
Qed.

(** [findValidPosition] returns: the target itself when it can be
    occupied, and otherwise either nothing or a position at which
    [canOccupy] has answered true. *)
Theorem findValidPosition_sound mv w tx ty radius searchRadius :
  rowsPresent w -> defaultRegistered w ->
  exists res,
    findValidPosition M mv w tx ty radius searchRadius = Some res
    ∧ (canOccupy mv w tx ty (Some (orQ radius (defaultRadius mv))) None
       = Some true -> res = Some (tx, ty))
    ∧ forall p, res = Some p ->
        canOccupy mv w (fst p) (snd p)
          (Some (orQ radius (defaultRadius mv))) None = Some true.
Proof.
  intros Hrows Hreg. unfold findValidPosition. cbv zeta.
  set (r := orQ radius (defaultRadius mv)).
  set (sr := default 5%Q searchRadius).
  destruct (canOccupy_total mv w tx ty (Some r) None Hrows Hreg) as [b Hb].
  rewrite Hb. cbn [mbind option_bind]. destruct b.
  - eexists. split; [reflexivity|]. split; [done|]. by intros p [= <-].
  - destruct (spiralLoop_sound mv w tx ty r sr
                (Z.to_nat (Qfloor (sr / (1 # 2)))) (1 # 2) Hrows Hreg)
      as (res & Hres & Hok).
    { pose proof (Qlt_floor (sr / (1 # 2))) as Hfl.
      destruct (Z_lt_le_dec (Qfloor (sr / (1 # 2))) 0) as [Hneg|Hpos].
      - replace (Z.to_nat (Qfloor (sr / (1 # 2)))) with 0%nat by lia.
        change (inject_Z (Z.of_nat 0)) with 0%Q.
        assert (inject_Z (Qfloor (sr / (1 # 2)) + 1) <= 0)%Q.
        { change 0%Q with (inject_Z 0). rewrite <- Zle_Qle. lia. }
        assert (sr / (1 # 2) == sr * 2)%Q by (field).
        lra.
      - rewrite Z2Nat.id by done.
        rewrite inject_Z_plus in Hfl. change (inject_Z 1) with 1%Q in Hfl.
        assert (sr / (1 # 2) == sr * 2)%Q by (field).
        lra. }
    exists res. split; [exact Hres|]. split; [congruence|exact Hok].
Qed.

End FindValidPosition.

Section TracePath.
Import Movement.
Context (M : MathLib).



End TracePath.

Lemma findValidPosition_sound_witness :
  exists w res,
    World.build corridorConfig corridorOps = Some w
    ∧ Movement.findValidPosition taylorMath solver w 1 1 None None = Some res
    ∧ forall p, res = Some p ->
        Movement.canOccupy solver w (fst p) (snd p)
          (Some (orQ None (Movement.defaultRadius solver))) None = Some true.
Proof.
  eexists _.
  lazymatch goal with
  | |- exists res, World.build _ _ = Some ?w ∧ _ =>
      assert (Hw : World.build corridorConfig corridorOps = Some w)
        by (vm_compute; reflexivity);
      destruct (findValidPosition_sound taylorMath solver w 1 1 None None)
        as (res & Hres & _ & Hok)
  end.
  - split; [reflexivity|vm_compute; discriminate].
  - vm_compute. eauto.
  - exists res. split; [exact Hw|]. split; [exact Hres|exact Hok].
Defined.

(** In the corridor, from a point on the line between the corridor and
    the wall row, the search settles on the third direction tried on the
    first ring, the first that leads far enough into the corridor. *)
Lemma findValidPosition_corridor :
  exists w p,
    World.build corridorConfig corridorOps = Some w
    ∧ Movement.canOccupy solver w 1 1 None None = Some false
    ∧ Movement.findValidPosition taylorMath solver w 1 1 None None
      = Some (Some p)
    ∧ (fst p == 1 + cos taylorMath (PI taylorMath / 8 + PI taylorMath / 8)
                    * (1 # 2))%Q
    ∧ (1 + (2 # 10) < snd p)%Q ∧ (snd p < 2 - (2 # 10))%Q.
Proof.
  eexists _, _.
  split; [vm_compute; reflexivity|].
  split; [vm_compute; reflexivity|].
  split; [vm_compute; reflexivity|].
  split; [vm_compute; reflexivity|].
  split; vm_compute; reflexivity.
Qed.


(** Along the centre line of the corridor the path is valid; from the
    centre line across the wall row it is blocked at sample 7 of 20, the
    first whose circle reaches into the wall. *)
Lemma tracePath_corridor :
  exists w r1 r2,
    World.build corridorConfig corridorOps = Some w
    ∧ Movement.tracePath taylorMath solver w 1 (3 # 2) 2 (3 # 2) None = Some r1
    ∧ Movement.valid r1 = true ∧ Movement.progress r1 = Some 1%Q
    ∧ Movement.tracePath taylorMath solver w 1 (3 # 2) 1 (1 # 2) None = Some r2
    ∧ Movement.valid r2 = false
    ∧ (exists p, Movement.blockedAt r2 = Some p
                 ∧ (snd p == stepped (3 # 2) (- (1 # 20)) 7)%Q)
    ∧ (exists q, Movement.progress r2 = Some q ∧ (q == 7 # 20)%Q).
Proof.
  eexists _, _, _.
  split; [vm_compute; reflexivity|].
  split; [vm_compute; reflexivity|].
  split; [reflexivity|]. split; [reflexivity|].
  split; [vm_compute; reflexivity|].
  split; [reflexivity|].
  split; eexists; (split; [reflexivity|vm_compute; reflexivity]).
Qed.

(** ** EntityManager: the by-id map, the type index, [getInSector] *)

Section Registry.
Import EntityManager.
Context (fl : Q -> Q).

Lemma mapSet_fresh k v (L : list (Z * Ref)) :
  k ∉ (fst <$> L) -> mapSet k v L = L ++ [(k, v)].
Proof.
  induction L as [|[k' v'] L IH]; intros Hk; [done|]. simpl.
  rewrite fmap_cons in Hk. apply not_elem_of_cons in Hk as [Hne Hk].
  simpl in Hne. rewrite decide_False by done. by rewrite IH.
Qed.

Lemma getByType_add h m l ty :
  getByType (add fl h m l) ty
  = if decide (Entity.type (h l) = ty) then setAdd l (getByType m ty)
    else getByType m ty.
Proof.
  unfold getByType, add, _addToSpatialHash, withHash. cbn [byType].
  destruct (decide _) as [<-|Hne].
  - by rewrite lookup_insert_eq.
  - by rewrite lookup_insert_ne.
Qed.

Lemma foldl_add_registry h ls m :
  NoDup ls ->
  NoDup ((fun l => Entity.id (h l)) <$> ls) ->
  (forall l, l ∈ ls -> Entity.id (h l) ∉ (fst <$> entities m)) ->
  (forall l ty, l ∈ ls -> l ∉ getByType m ty) ->
  entities (foldl (add fl h) m ls)
  = entities m ++ ((fun l => (Entity.id (h l), l)) <$> ls)
  ∧ forall ty,
      getByType (foldl (add fl h) m ls) ty
      = getByType m ty ++ filter (fun l => Entity.type (h l) = ty) ls.
Proof.
  revert m. induction ls as [|l ls IH]; intros m Hnd Hids Hfresh Htypes.
  - cbn [foldl fmap list_fmap]. rewrite app_nil_r. split; [done|].
    intros ty. by rewrite app_nil_r.
  - cbn [foldl]. apply NoDup_cons in Hnd as [Hl Hnd].
    rewrite fmap_cons in Hids. apply NoDup_cons in Hids as [Hid Hids].
    assert (He : entities (add fl h m l) = entities m ++ [(Entity.id (h l), l)]).
    { unfold add, _addToSpatialHash, withHash. cbn [entities].
      apply mapSet_fresh, Hfresh. by left. }
    destruct (IH (add fl h m l)) as [IHe IHt]; [done..| | |].
    + intros l' Hl'. rewrite He, fmap_app, elem_of_app.
      intros [Hin|Hin%list_elem_of_singleton].
      * eapply Hfresh; [by right|done].
      * apply Hid. simpl in Hin. rewrite <- Hin.
        apply list_elem_of_fmap. by exists l'.
    + intros l' ty Hl'. rewrite getByType_add.
      destruct (decide _); [|apply Htypes; by right].
      rewrite elem_of_setAdd. intros [Hin|Heq]; [|by subst].
      eapply Htypes; [by right|done].
    + split.
      * rewrite IHe, He, fmap_cons, <- app_assoc. done.
      * intros ty. rewrite IHt, getByType_add, filter_cons.
        destruct (decide (Entity.type (h l) = ty)) as [Hty|Hty].
        -- unfold setAdd. rewrite decide_False by (apply Htypes; by left).
           by rewrite <- app_assoc.
        -- done.
Qed.

(** After the objects [ls], distinct and with distinct ids, have been
    registered in order on a fresh manager: [getAll] lists them in that
    order, [get] finds each under its id and nothing under another id,
    and [getByType] lists the objects of a type in registration order. *)
Theorem addAll_lookup h ls :
  NoDup ls ->
  NoDup ((fun l => Entity.id (h l)) <$> ls) ->
  getAll (addAll fl h ls) = ls
  ∧ (forall l, l ∈ ls -> get (addAll fl h ls) (Entity.id (h l)) = Some l)
  ∧ (forall i, (forall l, l ∈ ls -> Entity.id (h l) ≠ i) ->
       get (addAll fl h ls) i = None)
  ∧ forall ty,
      getByType (addAll fl h ls) ty
      = filter (fun l => Entity.type (h l) = ty) ls.
Proof.
  intros Hnd Hids. unfold addAll.
  destruct (foldl_add_registry h ls new Hnd Hids) as [He Ht].
  { intros l _ Hin. by apply not_elem_of_nil in Hin. }
  { intros l ty _ Hin. unfold getByType in Hin. cbn [new byType] in Hin.
    rewrite lookup_empty in Hin. by apply not_elem_of_nil in Hin. }
  cbn [new entities app] in He.
  assert (Hfst : fst <$> entities (foldl (add fl h) new ls)
                 = (fun l => Entity.id (h l)) <$> ls).
  { rewrite He, <- list_fmap_compose. done. }
  split; [|split; [|split]].
  - unfold getAll. change (map snd ?L) with (snd <$> L).
    rewrite He, <- list_fmap_compose. apply list_fmap_id.
  - intros l Hl. unfold get. apply mapGet_elem; [by rewrite Hfst|].
    rewrite He. apply list_elem_of_fmap. by exists l.
  - intros i Hi. unfold get.
    destruct (mapGet i _) as [l|] eqn:Hget; [|done].
    apply mapGet_Some in Hget. rewrite He in Hget.
    apply list_elem_of_fmap in Hget as (l' & Heq & Hl').
    injection Heq as Hi' _. by destruct (Hi l' Hl').
  - intros ty. rewrite Ht. unfold getByType. cbn [new byType].
    by rewrite lookup_empty.
Qed.

End Registry.

Lemma addAll_lookup_witness :
  EntityManager.getAll (EntityManager.addAll round64 threeEntities [0; 1; 2]%nat)
  = [0; 1; 2]%nat
  ∧ EntityManager.get
      (EntityManager.addAll round64 threeEntities [0; 1; 2]%nat) 2
    = Some 1%nat
  ∧ EntityManager.getByType
      (EntityManager.addAll round64 threeEntities [0; 1; 2]%nat) "entity"
    = [0; 1; 2]%nat.
Proof.
  destruct (addAll_lookup round64 threeEntities [0; 1; 2]%nat)
    as (Hall & Hget & _ & Hty).
  - apply (bool_decide_unpack _). vm_compute. exact I.
  - apply (bool_decide_unpack _). vm_compute. exact I.
  - split; [exact Hall|]. split.
    + apply (Hget 1%nat). apply (bool_decide_unpack _). vm_compute. exact I.
    + rewrite Hty. vm_compute. reflexivity.
Defined.

Section InSector.
Import EntityManager.
Context (fl : Q -> Q).

(** [getInSector(gx, gy)] returns registered entities of the cell
    [(gx, gy)] only, each once; where nothing rounds it returns every
    one of them, the circle of radius 1 around the centre of the cell
    holding the whole cell. *)
Theorem getInSector_cell h ls gx gy :
  (forall l l', l ∈ ls -> l' ∈ ls ->
     Entity.id (h l) = Entity.id (h l') -> l = l') ->
  NoDup (getInSector fl h (addAll fl h ls) gx gy)
  ∧ (forall l, l ∈ getInSector fl h (addAll fl h ls) gx gy ->
       l ∈ ls ∧ Qfloor (Entity.x (h l)) = gx ∧ Qfloor (Entity.y (h l)) = gy)
  ∧ ((fl (inject_Z gx + (1 # 2)) == inject_Z gx + (1 # 2))%Q ->
     (fl (inject_Z gy + (1 # 2)) == inject_Z gy + (1 # 2))%Q ->
     exactQuery fl (addAll fl h ls)
       (fl (inject_Z gx + (1 # 2))%Q) (fl (inject_Z gy + (1 # 2))%Q) 1 ->
     (forall l, l ∈ ls ->
        exactFor fl h (addAll fl h ls)
          (fl (inject_Z gx + (1 # 2))%Q) (fl (inject_Z gy + (1 # 2))%Q) l) ->
     forall l, l ∈ ls -> Qfloor (Entity.x (h l)) = gx ->
       Qfloor (Entity.y (h l)) = gy ->
       l ∈ getInSector fl h (addAll fl h ls) gx gy).
Proof.
  intros Hids. unfold getInSector.
  set (qx := fl (inject_Z gx + (1 # 2))%Q).
  set (qy := fl (inject_Z gy + (1 # 2))%Q).
  pose proof (addAll_indexed fl h ls) as Hidx.
  destruct (getNear_indexed fl h (addAll fl h ls) (fun l => l ∈ ls) qx qy 1
              Hidx Hids) as [Hnd Hmem].
  split; [by apply NoDup_filter|]. split.
  - intros l [[Hx Hy] Hl]%list_elem_of_filter.
    apply Hmem in Hl as [Hl _]. done.
  - intros Hqx Hqy Hq Hls l Hl Hx Hy.
    apply list_elem_of_filter. split; [done|]. apply Hmem. split; [done|].
    assert (Hd : (distSq h qx qy l <= 1 * 1)%Q).
    { unfold distSq.
      pose proof (Qfloor_le (Entity.x (h l))) as Hx1.
      pose proof (Qlt_floor (Entity.x (h l))) as Hx2.
      pose proof (Qfloor_le (Entity.y (h l))) as Hy1.
      pose proof (Qlt_floor (Entity.y (h l))) as Hy2.
      rewrite Hx in Hx1, Hx2. rewrite Hy in Hy1, Hy2.
      rewrite inject_Z_plus in Hx2, Hy2.
      change (inject_Z 1) with 1%Q in Hx2, Hy2.
      set (ex := Entity.x (h l)) in *. set (ey := Entity.y (h l)) in *.
      assert (Hax : (- (1 # 2) <= ex - qx)%Q ∧ (ex - qx <= 1 # 2)%Q)
        by (rewrite Hqx; split; lra).
      assert (Hay : (- (1 # 2) <= ey - qy)%Q ∧ (ey - qy <= 1 # 2)%Q)
        by (rewrite Hqy; split; lra).
      nra. }
    split.
    + by apply (within_exact fl h (addAll fl h ls)); auto.
    + destruct Hidx as [Hcs _]. apply (within_scanKeys fl h); auto.
      discriminate.
Qed.

End InSector.

Lemma getInSector_cell_witness :
  NoDup (EntityManager.getInSector round64 threeEntities
           (EntityManager.addAll round64 threeEntities [0; 1; 2]%nat) 5 1)
  ∧ 1%nat ∈ EntityManager.getInSector round64 threeEntities
              (EntityManager.addAll round64 threeEntities [0; 1; 2]%nat) 5 1.
Proof.
  destruct (getInSector_cell round64 threeEntities [0; 1; 2]%nat 5 1)
    as (Hnd & _ & Hall).
  - intros l l' Hl Hl' Hid.
    repeat (apply elem_of_cons in Hl as [->|Hl]);
      try (by apply not_elem_of_nil in Hl);
      repeat (apply elem_of_cons in Hl' as [->|Hl']);
      try (by apply not_elem_of_nil in Hl');
      try reflexivity; vm_compute in Hid; discriminate.
  - split; [exact Hnd|]. apply Hall.
    + vm_compute. reflexivity.
    + vm_compute. reflexivity.
    + vm_compute. auto.
    + intros l Hl.
      repeat (apply elem_of_cons in Hl as [->|Hl]; [vm_compute; auto 10|]).
      by apply not_elem_of_nil in Hl.
    + apply (bool_decide_unpack _). vm_compute. exact I.
    + reflexivity.
    + reflexivity.
Defined.

(** ** Entity: ids from the counter; EntityManager: [clear] *)

Section EntityIds.




End EntityIds.


(** An id given in the configuration is taken as it is and leaves the
    counter alone, so it can meet an id the counter hands out next. *)
Lemma construct_given_id_collides :
  Entity.id <$> fst (construct [idConfig (Some 1); idConfig None] 1) = [1; 1]
  ∧ snd (construct [idConfig (Some 1); idConfig None] 1) = 2.
Proof. split; reflexivity. Qed.

Section Clear.
Import EntityManager.

Lemma getNear_empty fl h m x y radius :
  spatialHash m = ∅ -> getNear fl h m x y radius = [].
Proof.
  intros He.
  assert (Hrow : forall (xs : list Z) (cy : Z) (acc : gset Z * list Ref),
            foldl (fun acc' cx =>
                     match spatialHash m !! (cx, cy) with
                     | None => acc'
                     | Some cell => scanCell fl h x y radius cell acc'
                     end) acc xs = acc).
  { intros xs cy acc. induction xs as [|cx xs IHx]; [done|].
    cbn [foldl]. destruct (spatialHash m !! (cx, cy)) eqn:Hl; [|exact IHx].
    by rewrite He, lookup_empty in Hl. }
  assert (Hgen : forall (xs ys : list Z) (acc : gset Z * list Ref),
            foldl (fun acc cy =>
                     foldl (fun acc' cx =>
                              match spatialHash m !! (cx, cy) with
                              | None => acc'
                              | Some cell => scanCell fl h x y radius cell acc'
                              end) acc xs) acc ys = acc).
  { intros xs ys acc. induction ys as [|cy ys IH]; [done|].
    cbn [foldl]. by rewrite Hrow. }
  unfold getNear. cbv zeta. by rewrite Hgen.
Qed.

(** [clear()] leaves no entity behind: [getAll], [getByType] and
    [getNear] return nothing and [get] finds nothing, whatever the
    manager held; the cell size stays. *)
Theorem clear_empties m :
  getAll (clear m) = []
  ∧ (forall i, get (clear m) i = None)
  ∧ (forall ty, getByType (clear m) ty = [])
  ∧ (forall fl h x y radius, getNear fl h (clear m) x y radius = [])
  ∧ (forall key, bucket (clear m) key = [])
  ∧ cellSize (clear m) = cellSize m.
Proof.
  split; [done|]. split; [done|]. split.
  { intros ty. unfold getByType, clear. cbn [byType]. by rewrite lookup_empty. }
  split.
  { intros fl h x y radius. by apply getNear_empty. }
  split; [|done].
  intros key. unfold bucket, clear. cbn [spatialHash]. by rewrite lookup_empty.
Qed.

End Clear.
